(** * The analysis pipeline of the film-set planning assistant

    A shallow embedding of the orchestration core of the application:
    - [retryWithBackoff] and [generateAllVisuals] of services/geminiService,
    - [handleAnalysis], [handleStopAnalysis], [handleResumeAnalysis],
      [executeAnalysis] and [handleError] of App.tsx,
    - the parts of types.ts these read and write.

    Asynchronous code is written in a small monad over an explicit state:
    the outside world (the generative backend and the user who may press
    Stop while a request is in flight), the React state of [App], and a log
    of everything the code did to the outside world. *)

From Stdlib Require Import ZArith List String Ascii Bool Lia DecimalString.
Import ListNotations.
Local Open Scope string_scope.
Local Open Scope Z_scope.

(** ** JavaScript strings *)

Module Js.

(** [hay.includes(needle)] *)
Fixpoint includes (hay needle : string) : bool :=
  String.prefix needle hay ||
  match hay with
  | EmptyString => false
  | String _ rest => includes rest needle
  end.

(** White space as [String.prototype.trim] sees it, on code units below 256:
    TAB, LF, VT, FF, CR, SPACE and NBSP. *)
Definition isWhiteSpace (c : ascii) : bool :=
  let n := nat_of_ascii c in
  ((9 <=? n) && (n <=? 13))%nat || (n =? 32)%nat || (n =? 160)%nat.

Fixpoint trimStart (s : string) : string :=
  match s with
  | EmptyString => EmptyString
  | String c rest => if isWhiteSpace c then trimStart rest else s
  end.

Fixpoint trimEnd (s : string) : string :=
  match s with
  | EmptyString => EmptyString
  | String c rest =>
      match trimEnd rest with
      | EmptyString => if isWhiteSpace c then EmptyString else String c EmptyString
      | kept => String c kept
      end
  end.

Definition trim (s : string) : string := trimEnd (trimStart s).

(** Truthiness of a string: only the empty string is falsy. *)
Definition truthy (s : string) : bool :=
  match s with EmptyString => false | _ => true end.

(** [!s.trim()] *)
Definition blank (s : string) : bool := negb (truthy (trim s)).

(** Every code unit of the string is white space. *)
Fixpoint allWhiteSpace (s : string) : bool :=
  match s with
  | EmptyString => true
  | String c rest => isWhiteSpace c && allWhiteSpace rest
  end.

(** [a || b] on optional numbers: [undefined] and [0] are falsy. *)
Definition orNum (a b : option Z) : option Z :=
  match a with
  | Some n => if n =? 0 then b else a
  | None => b
  end.

(** [a || b] on strings. *)
Definition orStr (a b : string) : string := if truthy a then a else b.

(** Template rendering of an optional number. *)
Definition showNum (a : option Z) : string :=
  match a with
  | Some n => NilZero.string_of_int (Z.to_int n)
  | None => "undefined"
  end.

End Js.

(** ** Values thrown by the backend

    [message], [err_statusText], [error_status], [error_message] and
    [response_statusText] hold the empty string when the property is
    absent; the numeric properties are optional. *)

Record JsError := mkJsError {
  instanceofError : bool;
  message : string;
  err_status : option Z;
  err_statusText : string;
  hasErrorBody : bool;
  error_code : option Z;
  error_status : string;
  error_message : string;
  response_status : option Z;
  response_statusText : string
}.

Definition plainError (msg : string) : JsError :=
  mkJsError true msg None "" false None "" "" None "".

Definition errorCode (error : JsError) : option Z :=
  Js.orNum (err_status error) (Js.orNum (error_code error) (response_status error)).

Definition errorStatusText (error : JsError) : string :=
  Js.orStr (err_statusText error)
    (Js.orStr (error_status error) (Js.orStr (response_statusText error) "")).

Definition codeIs (error : JsError) (n : Z) : bool :=
  match errorCode error with
  | Some c => c =? n
  | None => false
  end.

Definition isRateLimit (error : JsError) : bool :=
  Js.includes (message error) "429" ||
  Js.includes (message error) "RESOURCE_EXHAUSTED" ||
  codeIs error 429.

Definition isServerOverload (error : JsError) : bool :=
  Js.includes (message error) "503" ||
  Js.includes (message error) "UNAVAILABLE" ||
  Js.includes (message error) "overloaded" ||
  Js.includes (message error) "500" ||
  Js.includes (message error) "Internal Server Error" ||
  codeIs error 503 ||
  codeIs error 500 ||
  Js.includes (errorStatusText error) "Internal Server Error".

(** The failures [retryWithBackoff] retries. *)
Definition transient (error : JsError) : bool :=
  isRateLimit error || isServerOverload error.

(** ** types.ts, restricted to what the pipeline reads and writes *)

Inductive AnalysisStatus :=
| IDLE
| ANALYZING_STAGE_1
| ANALYZING_STAGE_2
| ANALYZING_STAGE_2_VISUALS
| ANALYZING_STAGE_3
| PAUSED
| COMPLETE
| ERROR.

Record Stage1Result := mkStage1Result {
  logline : string;
  synopsis_extended : string;
  stage1_rest : string
}.

Record CharacterProfile := mkCharacterProfile {
  name : string;
  description : string;
  screen_presence : string;
  arc : string;
  motivation : string;
  image_base64 : option string
}.

Record TitleVisual := mkTitleVisual {
  tv_title : string;
  tv_image_base64 : string
}.

Record Stage2Result := mkStage2Result {
  title : string;
  genre : string;
  tone : string;
  pitch_logline : string;
  world_and_setting : string;
  character_profiles : list CharacterProfile;
  comparable_titles : list string;
  comparable_titles_visuals : option (list TitleVisual);
  visual_style_suggestion : string;
  visual_style_images_base64 : option (list string);
  concept_art_base64 : option string;
  movie_poster_base64 : option string;
  stage2_rest : string
}.

Record Stage3Result := mkStage3Result {
  stage3_breakdown : string
}.

Record FullScene := mkFullScene {
  scene_number : Z;
  heading : string;
  content : string
}.

Record Project := mkProject {
  project_name : string;
  script : string;
  stage1Result : option Stage1Result;
  stage2Result : option Stage2Result;
  stage3Result : option Stage3Result;
  fullScenes : option (list FullScene)
}.

Definition createNewProject : Project :=
  mkProject "Untitled Project" "" None None None None.

Definition withScript (p : Project) (s : string) : Project :=
  mkProject (project_name p) s (stage1Result p) (stage2Result p)
            (stage3Result p) (fullScenes p).

Definition withStage1 (p : Project) (r : Stage1Result) : Project :=
  mkProject (project_name p) (script p) (Some r) (stage2Result p)
            (stage3Result p) (fullScenes p).

Definition withStage2 (p : Project) (r : Stage2Result) : Project :=
  mkProject (project_name p) (script p) (stage1Result p) (Some r)
            (stage3Result p) (fullScenes p).

Definition withStage3 (p : Project) (r : Stage3Result) (scenes : list FullScene)
  : Project :=
  mkProject (project_name p) (script p) (stage1Result p) (stage2Result p)
            (Some r) (Some scenes).

Record VisualOptions := mkVisualOptions {
  poster : bool;
  concept : bool;
  characters : bool
}.

(** What [generateAllVisuals] resolves to. *)
Record Portrait := mkPortrait {
  portrait_name : string;
  portrait_image_base64 : string
}.

Record Visuals := mkVisuals {
  v_concept_art_base64 : string;
  v_movie_poster_base64 : string;
  v_character_portraits : list Portrait;
  v_comparable_titles_visuals : list TitleVisual;
  v_visual_style_images_base64 : list string
}.

(** ** The backend *)

(** Prompts are kept as the template that was chosen and the values
    interpolated into it. *)
Inductive ImagePrompt :=
| ConceptArtPrompt (title genre tone logline style setting : string)
| PosterPrompt (title genre logline style : string)
| CharacterPrompt (name description genre tone style : string)
| ComparablePosterPrompt (title : string)
| VisualStylePrompt (style : string).

Inductive Request :=
| GenerateStage1 (script : string)
| GenerateStage2 (script logline synopsis : string)
| GenerateStage3 (script : string)
| GenerateScenes (script : string)
| GenerateImages (prompt : ImagePrompt) (numberOfImages : nat) (aspectRatio : string)
| SearchPoster (title : string).

(** The text of a structured response: empty after trimming, rejected by
    [JSON.parse], or a value of the expected shape. *)
Inductive Json (T : Type) :=
| NoText
| BadJson (syntaxError : string)
| Parsed (value : T).
Arguments NoText {T}.
Arguments BadJson {T} syntaxError.
Arguments Parsed {T} value.

(** What a request resolves to: the structured text, the [imageBytes] of
    each generated image (empty when absent), or the [inlineData] of each
    part of the first candidate. *)
Definition Resp (r : Request) : Type :=
  match r with
  | GenerateStage1 _ => Json Stage1Result
  | GenerateStage2 _ _ _ => Json Stage2Result
  | GenerateStage3 _ => Json Stage3Result
  | GenerateScenes _ => Json (list FullScene)
  | GenerateImages _ _ _ => list string
  | SearchPoster _ => list (option string)
  end.

Inductive GatewayOp :=
| OpStage1
| OpStage2
| OpStage2Visuals
| OpStage3
| OpExtractScenes.

(** What the code did, oldest first: a service function was entered, the
    operation handed to [retryWithBackoff] was started, a request went to
    the backend, a timer ran out. *)
Inductive Event :=
| Invoke (op : GatewayOp)
| Attempt
| Send (r : Request)
| Slept (ms : Z).

(** A request either rejects or resolves; while it is in flight the user
    may press Stop. *)
Record Reply (r : Request) := mkReply {
  outcome : JsError + Resp r;
  stopPressed : bool
}.
Arguments mkReply {r} outcome stopPressed.
Arguments outcome {r} _.
Arguments stopPressed {r} _.

(** The outside world: its answer may depend on everything that happened
    before. *)
Definition Backend := list Event -> forall r : Request, Reply r.

(** ** React state of [App] *)

Record App := mkApp {
  status : AnalysisStatus;
  error : option string;
  currentProject : option Project;
  scriptToAnalyze : string;
  visualOptions : option VisualOptions;
  shouldStop : bool;
  isVisualsModalOpen : bool
}.

Definition setStatus' (s : AnalysisStatus) (a : App) : App :=
  mkApp s (error a) (currentProject a) (scriptToAnalyze a) (visualOptions a)
        (shouldStop a) (isVisualsModalOpen a).

Definition setError' (e : option string) (a : App) : App :=
  mkApp (status a) e (currentProject a) (scriptToAnalyze a) (visualOptions a)
        (shouldStop a) (isVisualsModalOpen a).

Definition setCurrentProject' (p : option Project) (a : App) : App :=
  mkApp (status a) (error a) p (scriptToAnalyze a) (visualOptions a)
        (shouldStop a) (isVisualsModalOpen a).

Definition setScriptToAnalyze' (s : string) (a : App) : App :=
  mkApp (status a) (error a) (currentProject a) s (visualOptions a)
        (shouldStop a) (isVisualsModalOpen a).

Definition setVisualOptions' (o : option VisualOptions) (a : App) : App :=
  mkApp (status a) (error a) (currentProject a) (scriptToAnalyze a) o
        (shouldStop a) (isVisualsModalOpen a).

Definition setShouldStop' (b : bool) (a : App) : App :=
  mkApp (status a) (error a) (currentProject a) (scriptToAnalyze a)
        (visualOptions a) b (isVisualsModalOpen a).

Definition setIsVisualsModalOpen' (b : bool) (a : App) : App :=
  mkApp (status a) (error a) (currentProject a) (scriptToAnalyze a)
        (visualOptions a) (shouldStop a) b.

(** Triggered when the Stop button is clicked. *)
Definition handleStopAnalysis (a : App) : App :=
  setStatus' PAUSED (setShouldStop' true a).

(** ** The monad of asynchronous code *)

Record St := mkSt {
  app : App;
  log : list Event
}.

(** Completion of a piece of code: it ran through, threw, or executed a
    [return] of the enclosing function. *)
Inductive Completion (A : Type) :=
| Normal (a : A)
| Thrown (e : JsError)
| Returned.
Arguments Normal {A} a.
Arguments Thrown {A} e.
Arguments Returned {A}.

Definition M (A : Type) : Type := St -> Completion A * St.

Definition ret {A} (a : A) : M A := fun st => (Normal a, st).

Definition bind {A B} (m : M A) (k : A -> M B) : M B :=
  fun st =>
    match m st with
    | (Normal a, st') => k a st'
    | (Thrown e, st') => (Thrown e, st')
    | (Returned, st') => (Returned, st')
    end.

Definition throw {A} (e : JsError) : M A := fun st => (Thrown e, st).

Definition return_ {A} : M A := fun st => (Returned, st).

Definition tryCatch {A} (body : M A) (handler : JsError -> M A) : M A :=
  fun st =>
    match body st with
    | (Thrown e, st') => handler e st'
    | other => other
    end.

(** The body of a function: its [return] ends the function, not the caller. *)
Definition function (body : M unit) : M unit :=
  fun st =>
    match body st with
    | (Returned, st') => (Normal tt, st')
    | other => other
    end.

Definition tell (e : Event) : M unit :=
  fun st => (Normal tt, mkSt (app st) (log st ++ [e])%list).

Definition getApp : M App := fun st => (Normal (app st), st).

Definition modifyApp (f : App -> App) : M unit :=
  fun st => (Normal tt, mkSt (f (app st)) (log st)).

Definition when (b : bool) (m : M unit) : M unit := if b then m else ret tt.

Declare Scope js_scope.
Delimit Scope js_scope with js.
Notation "x <- m ;; k" := (bind m (fun x => k))
  (at level 100, m at next level, right associativity) : js_scope.
Notation "m ;; k" := (bind m (fun _ => k))
  (at level 100, right associativity) : js_scope.
Local Open Scope js_scope.

Definition sleep (ms : Z) : M unit := tell (Slept ms).

Section Service.

Variable ai : Backend.

(** [await ai.models...]: the request is sent; a Stop pressed meanwhile
    runs [handleStopAnalysis]; then the promise settles.  A Stop pressed
    while a timer runs is not told apart from one pressed during the
    request that follows the timer: no code reads the flag in between. *)
Definition request (r : Request) : M (Resp r) :=
  fun st =>
    let reply := ai (log st) r in
    let a := if stopPressed reply then handleStopAnalysis (app st) else app st in
    let st' := mkSt a (log st ++ [Send r])%list in
    match outcome reply with
    | inl e => (Thrown e, st')
    | inr v => (Normal v, st')
    end.

(** Retries an async operation with exponential backoff if a rate limit or
    transient error occurs.  The test [retries > 0] is the match. *)
Fixpoint retryWithBackoff {T} (operation : M T) (retries : nat)
    (delay factor : Z) : M T :=
  tryCatch (tell Attempt ;; operation)
    (fun error =>
       match retries with
       | S retries' =>
           if isRateLimit error || isServerOverload error then
             sleep delay ;;
             retryWithBackoff operation retries' (delay * factor) factor
           else throw error
       | O => throw error
       end).

(** The defaults every call site relies on. *)
Definition retryDefault {T} (operation : M T) : M T :=
  retryWithBackoff operation 4 2000 2.


(** [(response.text ?? '').trim()], the empty-text check and [JSON.parse]. *)
Definition parseJson {T} (emptyMessage : string) (text : Json T) : M T :=
  match text with
  | NoText => throw (plainError emptyMessage)
  | BadJson syntaxError => throw (plainError syntaxError)
  | Parsed value => ret value
  end.

Definition analyzeStage1 (script : string) : M Stage1Result :=
  tell (Invoke OpStage1) ;;
  retryDefault
    (response <- request (GenerateStage1 script) ;;
     parseJson "Received an empty response from the AI model for Stage 1 analysis. This might be due to safety filters or content restrictions." response).

Definition analyzeStage2 (script logline synopsis : string) : M Stage2Result :=
  tell (Invoke OpStage2) ;;
  retryDefault
    (response <- request (GenerateStage2 script logline synopsis) ;;
     parseJson "Received an empty response from the AI model for Stage 2 analysis. This might be due to safety filters or content restrictions." response).

Definition analyzeStage3 (script : string) : M Stage3Result :=
  tell (Invoke OpStage3) ;;
  retryDefault
    (response <- request (GenerateStage3 script) ;;
     parseJson "Received an empty response from the AI model for Stage 3 analysis. This might be due to safety filters or content restrictions." response).

Definition extractScenes (script : string) : M (list FullScene) :=
  tell (Invoke OpExtractScenes) ;;
  retryDefault
    (response <- request (GenerateScenes script) ;;
     parseJson "Received an empty response from the AI model during scene extraction. The script might be empty or invalid." response).

(** [generatedImages?.[0]?.image.imageBytes || ''] *)
Definition firstImage (generatedImages : list string) : string :=
  match generatedImages with
  | [] => ""
  | imageBytes :: _ => imageBytes
  end.

(** The [data] of the first part that has [inlineData], or the initial ['']. *)
Fixpoint firstInlineData (parts : list (option string)) : string :=
  match parts with
  | [] => ""
  | Some data :: _ => data
  | None :: rest => firstInlineData rest
  end.

Definition isEmpty {A} (l : list A) : bool :=
  match l with [] => true | _ => false end.

Definition mainCharactersOf (pitchDeckData : Stage2Result) : list CharacterProfile :=
  firstn 2
    (filter (fun c => String.eqb (screen_presence c) "on-screen")
            (character_profiles pitchDeckData)).

Definition characterPrompt (pitchDeckData : Stage2Result)
    (character : CharacterProfile) : ImagePrompt :=
  CharacterPrompt (name character) (description character)
    (genre pitchDeckData) (tone pitchDeckData)
    (visual_style_suggestion pitchDeckData).

(** One turn of the portrait loop: the delay, the retried request, the
    [push] when image bytes came back; a failure is logged and swallowed. *)
Definition portraitFor (pitchDeckData : Stage2Result) (options : VisualOptions)
    (character : CharacterProfile) (character_portraits : list Portrait)
  : M (list Portrait) :=
  tryCatch
    (when (negb (isEmpty character_portraits) || poster options || concept options)
          (sleep 4000) ;;
     retryDefault
       (resp <- request (GenerateImages (characterPrompt pitchDeckData character)
                                        1 "3:4") ;;
        ret (if Js.truthy (firstImage resp)
             then (character_portraits ++
                   [mkPortrait (name character) (firstImage resp)])%list
             else character_portraits)))
    (fun _ => ret character_portraits).

Fixpoint portraitsLoop (pitchDeckData : Stage2Result) (options : VisualOptions)
    (mainCharacters : list CharacterProfile) (character_portraits : list Portrait)
  : M (list Portrait) :=
  match mainCharacters with
  | [] => ret character_portraits
  | character :: rest =>
      character_portraits' <-
        portraitFor pitchDeckData options character character_portraits ;;
      portraitsLoop pitchDeckData options rest character_portraits'
  end.

(** One turn of the comparable-titles loop: the grounded search, the
    fallback when it left no image, and the unconditional [push]. *)
Definition comparableFor (character_portraits : list Portrait)
    (title : string) (comparable_titles_visuals : list TitleVisual)
  : M (list TitleVisual) :=
  image_base64 <-
    tryCatch
      (when (negb (isEmpty comparable_titles_visuals) ||
             negb (isEmpty character_portraits))
            (sleep 5000) ;;
       retryDefault
         (resp <- request (SearchPoster title) ;;
          ret (firstInlineData resp)))
      (fun _ => ret "") ;;
  image_base64 <-
    (if negb (Js.truthy image_base64) then
       tryCatch
         (sleep 2000 ;;
          retryDefault
            (resp <- request (GenerateImages (ComparablePosterPrompt title)
                                             1 "3:4") ;;
             ret (firstImage resp)))
         (fun _ => ret image_base64)
     else ret image_base64) ;;
  ret (comparable_titles_visuals ++ [mkTitleVisual title image_base64])%list.

Fixpoint comparablesLoop (character_portraits : list Portrait)
    (titles : list string) (comparable_titles_visuals : list TitleVisual)
  : M (list TitleVisual) :=
  match titles with
  | [] => ret comparable_titles_visuals
  | title :: rest =>
      comparable_titles_visuals' <-
        comparableFor character_portraits title comparable_titles_visuals ;;
      comparablesLoop character_portraits rest comparable_titles_visuals'
  end.

Definition generateAllVisuals (pitchDeckData : Stage2Result)
    (options : VisualOptions) : M Visuals :=
  tell (Invoke OpStage2Visuals) ;;
  let mainCharacters := mainCharactersOf pitchDeckData in
  let visualStylePrompt :=
    VisualStylePrompt (visual_style_suggestion pitchDeckData) in
  (* CONCEPT ART *)
  concept_art_base64 <-
    (if concept options then
       tryCatch
         (retryDefault
            (conceptArtResponse <-
               request (GenerateImages
                          (ConceptArtPrompt (title pitchDeckData)
                             (genre pitchDeckData) (tone pitchDeckData)
                             (pitch_logline pitchDeckData)
                             (visual_style_suggestion pitchDeckData)
                             (world_and_setting pitchDeckData))
                          1 "16:9") ;;
             ret (firstImage conceptArtResponse)))
         (fun _ => ret "")
     else ret "") ;;
  (* MOVIE POSTER *)
  movie_poster_base64 <-
    (if poster options then
       tryCatch
         (when (concept options) (sleep 2000) ;;
          retryDefault
            (posterResponse <-
               request (GenerateImages
                          (PosterPrompt (title pitchDeckData)
                             (genre pitchDeckData)
                             (pitch_logline pitchDeckData)
                             (visual_style_suggestion pitchDeckData))
                          1 "3:4") ;;
             ret (firstImage posterResponse)))
         (fun _ => ret "")
     else ret "") ;;
  (* CHARACTER PORTRAITS *)
  character_portraits <-
    (if characters options then
       portraitsLoop pitchDeckData options mainCharacters []
     else ret []) ;;
  (* COMPARABLE TITLES *)
  comparable_titles_visuals <-
    (if poster options || concept options || characters options then
       comparablesLoop character_portraits
         (firstn 3 (comparable_titles pitchDeckData)) []
     else ret []) ;;
  (* VISUAL STYLE EXAMPLES *)
  visual_style_images_base64 <-
    (if concept options then
       tryCatch
         (sleep 4000 ;;
          retryDefault
            (visualStyleImagesResponse <-
               request (GenerateImages visualStylePrompt 3 "16:9") ;;
             ret (filter Js.truthy visualStyleImagesResponse)))
         (fun _ => ret [])
     else ret []) ;;
  ret (mkVisuals concept_art_base64 movie_poster_base64 character_portraits
                 comparable_titles_visuals visual_style_images_base64).

End Service.

(** ** App.tsx *)

Definition setStatus (s : AnalysisStatus) : M unit := modifyApp (setStatus' s).
Definition setError (e : option string) : M unit := modifyApp (setError' e).
Definition setCurrentProject (p : Project) : M unit :=
  modifyApp (setCurrentProject' (Some p)).

Definition unknownErrorMessage : string :=
  "An unknown error occurred during analysis.".

Definition quotaMessage : string :=
  "API quota exceeded. Please check your plan and billing details. For more information, see https://ai.google.dev/gemini-api/docs/rate-limits. To monitor your usage, visit https://ai.dev/usage?tab=rate-limit.".

Definition overloadMessage : string :=
  "The AI model is currently experiencing high demand. Please wait a few moments and try again.".

Definition errorMessageOf (err : JsError) : string :=
  if instanceofError err then
    if Js.includes (message err) "429" ||
       Js.includes (message err) "RESOURCE_EXHAUSTED" then quotaMessage
    else if Js.includes (message err) "503" ||
            Js.includes (message err) "UNAVAILABLE" ||
            Js.includes (message err) "overloaded" then overloadMessage
    else message err
  else if hasErrorBody err then
    if Js.truthy (error_message err) then error_message err
    else if Js.truthy (error_status err) then
      "API Error: " ++ error_status err ++ " (" ++ Js.showNum (error_code err) ++ ")"
    else unknownErrorMessage
  else unknownErrorMessage.

Definition handleError (err : JsError) : M unit :=
  setError (Some (errorMessageOf err)) ;;
  setStatus ERROR.

Definition handleAnalysis (scriptText : string) : M unit :=
  function
    (if Js.blank scriptText then
       setError (Some "Script content cannot be empty.") ;;
       return_
     else
       modifyApp (setScriptToAnalyze' scriptText) ;;
       modifyApp (setIsVisualsModalOpen' true)).

(** [if (shouldStopRef.current) { setStatus(PAUSED); return; }] *)
Definition checkStop : M unit :=
  a <- getApp ;;
  if shouldStop a then setStatus PAUSED ;; return_ else ret tt.

Definition isNull {A} (o : option A) : bool :=
  match o with None => true | Some _ => false end.

(** Truthiness of an optional string property. *)
Definition truthyOpt (o : option string) : bool :=
  match o with Some s => Js.truthy s | None => false end.

(** Field-level patch of the pitch deck with what the visuals step
    returned (the body of the [try] after the [await]). *)
Definition patchProfile (character_portraits : list Portrait)
    (profile : CharacterProfile) : CharacterProfile :=
  match find (fun p => String.eqb (portrait_name p) (name profile))
             character_portraits with
  | Some portrait =>
      mkCharacterProfile (name profile) (description profile)
        (screen_presence profile) (arc profile) (motivation profile)
        (Some (portrait_image_base64 portrait))
  | None => profile
  end.

Definition mergeVisuals (stage2 : Stage2Result) (visuals : Visuals)
  : Stage2Result :=
  mkStage2Result
    (title stage2) (genre stage2) (tone stage2) (pitch_logline stage2)
    (world_and_setting stage2)
    (if negb (isEmpty (v_character_portraits visuals))
     then map (patchProfile (v_character_portraits visuals))
              (character_profiles stage2)
     else character_profiles stage2)
    (comparable_titles stage2)
    (if negb (isEmpty (v_comparable_titles_visuals visuals))
     then Some (v_comparable_titles_visuals visuals)
     else comparable_titles_visuals stage2)
    (visual_style_suggestion stage2)
    (if negb (isEmpty (v_visual_style_images_base64 visuals))
     then Some (v_visual_style_images_base64 visuals)
     else visual_style_images_base64 stage2)
    (if Js.truthy (v_concept_art_base64 visuals)
     then Some (v_concept_art_base64 visuals)
     else concept_art_base64 stage2)
    (if Js.truthy (v_movie_poster_base64 visuals)
     then Some (v_movie_poster_base64 visuals)
     else movie_poster_base64 stage2)
    (stage2_rest stage2).

Definition needVisualsOf (options : option VisualOptions) : bool :=
  match options with
  | Some o => poster o || concept o || characters o
  | None => false
  end.

(** [activeProject.stage1Result?.logline || ""] *)
Definition loglineOf (activeProject : Project) : string :=
  match stage1Result activeProject with
  | Some r => Js.orStr (logline r) ""
  | None => ""
  end.

(** [activeProject.stage1Result?.synopsis.extended || ""] *)
Definition synopsisOf (activeProject : Project) : string :=
  match stage1Result activeProject with
  | Some r => Js.orStr (synopsis_extended r) ""
  | None => ""
  end.

Section App.

Variable ai : Backend.

Definition stage1Block (scriptText : string) (activeProject : Project)
  : M Project :=
  if isNull (stage1Result activeProject) then
    checkStop ;;
    setStatus ANALYZING_STAGE_1 ;;
    tryCatch
      (result1 <- analyzeStage1 ai scriptText ;;
       let activeProject := withStage1 activeProject result1 in
       setCurrentProject activeProject ;;
       ret activeProject)
      (fun err => handleError err ;; return_)
  else ret activeProject.

Definition stage2Block (scriptText : string) (activeProject : Project)
  : M Project :=
  if isNull (stage2Result activeProject) then
    checkStop ;;
    setStatus ANALYZING_STAGE_2 ;;
    tryCatch
      (let logline := loglineOf activeProject in
       let synopsis := synopsisOf activeProject in
       result2 <- analyzeStage2 ai scriptText logline synopsis ;;
       let activeProject := withStage2 activeProject result2 in
       setCurrentProject activeProject ;;
       ret activeProject)
      (fun err => handleError err ;; return_)
  else ret activeProject.

Definition visualsBlock (options : option VisualOptions)
    (activeProject : Project) : M Project :=
  let needVisuals := needVisualsOf options in
  if needVisuals then
    (* computed by the source and never read *)
    let hasSomeVisuals :=
      match stage2Result activeProject with
      | Some r => truthyOpt (concept_art_base64 r) ||
                  truthyOpt (movie_poster_base64 r)
      | None => false
      end in
    checkStop ;;
    setStatus ANALYZING_STAGE_2_VISUALS ;;
    tryCatch
      (match stage2Result activeProject, options with
       | Some stage2, Some options =>
           visuals <- generateAllVisuals ai stage2 options ;;
           let updatedResult2 := mergeVisuals stage2 visuals in
           let activeProject := withStage2 activeProject updatedResult2 in
           setCurrentProject activeProject ;;
           ret activeProject
       | _, _ =>
           throw (plainError "Cannot read properties of null (reading 'character_profiles')")
       end)
      (fun err => handleError err ;; return_)
  else ret activeProject.

Definition stage3Block (scriptText : string) (activeProject : Project)
  : M Project :=
  if isNull (stage3Result activeProject) then
    checkStop ;;
    setStatus ANALYZING_STAGE_3 ;;
    tryCatch
      (result3 <- analyzeStage3 ai scriptText ;;
       fullScenes <- extractScenes ai scriptText ;;
       let activeProject := withStage3 activeProject result3 fullScenes in
       setCurrentProject activeProject ;;
       ret activeProject)
      (fun err => handleError err ;; return_)
  else ret activeProject.

(** The pipeline from each stage boundary on. *)
Definition fromStage3 (scriptText : string) (activeProject : Project) : M unit :=
  _ <- stage3Block scriptText activeProject ;;
  setStatus COMPLETE.

Definition fromVisuals (scriptText : string) (options : option VisualOptions)
    (activeProject : Project) : M unit :=
  activeProject <- visualsBlock options activeProject ;;
  fromStage3 scriptText activeProject.

Definition fromStage2 (scriptText : string) (options : option VisualOptions)
    (activeProject : Project) : M unit :=
  activeProject <- stage2Block scriptText activeProject ;;
  fromVisuals scriptText options activeProject.

Definition fromStage1 (scriptText : string) (options : option VisualOptions)
    (activeProject : Project) : M unit :=
  activeProject <- stage1Block scriptText activeProject ;;
  fromStage2 scriptText options activeProject.

(** [scriptToAnalyze] and [currentProject] are those of the render the
    callback belongs to; when the dialog or the Resume button calls it
    they are the values in the state, from where they are read here. *)
Definition executeAnalysis (options : option VisualOptions) (isResuming : bool)
  : M unit :=
  function
    (modifyApp (setIsVisualsModalOpen' false) ;;
     (* If we're starting fresh, reset stop ref and store visual choice *)
     when (negb isResuming)
          (modifyApp (setShouldStop' false) ;;
           modifyApp (setVisualOptions' options)) ;;
     a <- getApp ;;
     let scriptText := scriptToAnalyze a in
     if Js.blank scriptText then return_ else
     (* Determine working project state *)
     activeProject <-
       match isResuming, currentProject a with
       | true, Some currentProject => ret currentProject
       | _, _ =>
           let fresh := withScript createNewProject scriptText in
           setCurrentProject fresh ;;
           ret fresh
       end ;;
     setError None ;;
     fromStage1 scriptText options activeProject).

(** Triggered when the Resume button is clicked. *)
Definition handleResumeAnalysis : M unit :=
  function
    (a <- getApp ;;
     if isNull (currentProject a) then return_ else
     modifyApp (setShouldStop' false) ;;
     (* Resume by re-calling executeAnalysis. *)
     executeAnalysis (visualOptions a) true).

(** [start(text, options)]: the script is submitted, then the choice made
    in the visuals dialog starts the run. *)
Definition start (scriptText : string) (options : option VisualOptions)
  : M unit :=
  handleAnalysis scriptText ;;
  a <- getApp ;;
  when (isVisualsModalOpen a) (executeAnalysis options false).

End App.

(** The state of [App] after mounting, and a state with an empty log. *)
Definition initialApp : App :=
  mkApp IDLE None (Some createNewProject) "" None false false.

Definition initialSt : St := mkSt initialApp [].

(** * Vocabulary of the properties *)

(** The React state after a call during which Stop was pressed, or not. *)
Definition stopApp (pressed : bool) (a : App) : App :=
  if pressed then handleStopAnalysis a else a.

(** The service functions entered, oldest first. *)
Definition invoked (evs : list Event) : list GatewayOp :=
  flat_map (fun e => match e with Invoke op => [op] | _ => [] end) evs.

(** The requests sent, oldest first. *)
Definition sent (evs : list Event) : list Request :=
  flat_map (fun e => match e with Send r => [r] | _ => [] end) evs.

(** Attempts and timers, oldest first. *)
Definition isRetryEvent (e : Event) : bool :=
  match e with Attempt | Slept _ => true | _ => false end.

Definition retryEvents (evs : list Event) : list Event := filter isRetryEvent evs.

(** Somewhere, the user presses Stop while a request is in flight. *)
Definition pressable (ai : Backend) : Prop :=
  exists l r, stopPressed (ai l r) = true.

(** [Effect ai ops m]: from any log, [m] completes the same way whatever
    the React state is, enters exactly the service functions [ops], never
    executes a [return] of its caller, and touches the React state only
    through a Stop pressed while a request to [ai] is in flight. *)
Definition Effect {A} (ai : Backend) (ops : list GatewayOp) (m : M A) : Prop :=
  forall l, exists c pressed evs,
    invoked evs = ops /\ c <> Returned /\ (pressed = true -> pressable ai) /\
    forall a, m (mkSt a l) = (c, mkSt (stopApp pressed a) (l ++ evs)%list).

(** The state in which an attempt starts. *)
Definition attempted (st : St) : St := mkSt (app st) (log st ++ [Attempt])%list.

(** The attempts and timers of a call that retries [k] times. *)
Fixpoint backoff (k : nat) (delay factor : Z) : list Event :=
  Attempt ::
  match k with
  | O => []
  | S k' => Slept delay :: backoff k' (delay * factor) factor
  end.

(** An operation that starts no attempts and no timers of its own. *)
Definition Plain {T} (operation : M T) : Prop :=
  forall st, exists evs,
    log (snd (operation st)) = (log st ++ evs)%list /\ retryEvents evs = [].

(** A completion that is a throw of a transient failure. *)
Definition transientThrow {T} (c : Completion T) : Prop :=
  exists e, c = Thrown e /\ transient e = true.

(** A backend that answers every request with a rate-limit failure. *)
Definition rateLimited : Backend :=
  fun _ r => mkReply (inl (plainError "429 Too Many Requests")) false.

(** A backend whose fifth answer is the first that succeeds. *)
Definition recoversOnFifth : Backend :=
  fun l r =>
    if (List.length (sent l) <? 4)%nat
    then mkReply (inl (plainError "got status: 503 UNAVAILABLE")) false
    else
      mkReply
        (inr match r return Resp r with
             | GenerateStage1 _ => Parsed (mkStage1Result "A man enters." "" "")
             | GenerateStage2 _ _ _ => NoText
             | GenerateStage3 _ => NoText
             | GenerateScenes _ => NoText
             | GenerateImages _ _ _ => []
             | SearchPoster _ => []
             end)
        false.

(** What [handleError] leaves behind. *)
Definition failApp (e : JsError) (a : App) : App :=
  setStatus' ERROR (setError' (Some (errorMessageOf e)) a).

(** How a step that is due can end: paused at its boundary, halted by a
    failure after entering one of the listed runs of service functions, or
    done with a merged project. *)
Inductive Step (ai : Backend) (running : AnalysisStatus)
    (ops : list GatewayOp) (failures : list (list GatewayOp))
    (Merged : Project -> Prop)
    (a : App) (l : list Event) : Completion Project * St -> Prop :=
| StepPaused :
    shouldStop a = true ->
    Step ai running ops failures Merged a l
         (Returned, mkSt (setStatus' PAUSED a) l)
| StepFailed pressed evs e :
    shouldStop a = false ->
    (pressed = true -> pressable ai) ->
    In (invoked evs) failures ->
    Step ai running ops failures Merged a l
         (Returned,
          mkSt (failApp e (stopApp pressed (setStatus' running a)))
               (l ++ evs)%list)
| StepDone pressed evs p' :
    shouldStop a = false ->
    (pressed = true -> pressable ai) ->
    invoked evs = ops ->
    Merged p' ->
    Step ai running ops failures Merged a l
         (Normal p',
          mkSt (setCurrentProject' (Some p')
                  (stopApp pressed (setStatus' running a)))
               (l ++ evs)%list).

(** Code that always runs through. *)
Definition Total {A} (m : M A) : Prop :=
  forall st, exists x, fst (m st) = Normal x.

Inductive Boundary := AtStage1 | AtStage2 | AtVisuals | AtStage3 | AtEnd.

Definition from (ai : Backend) (K : Boundary) (scriptText : string)
    (options : option VisualOptions) (activeProject : Project) : M unit :=
  match K with
  | AtStage1 => fromStage1 ai scriptText options activeProject
  | AtStage2 => fromStage2 ai scriptText options activeProject
  | AtVisuals => fromVisuals ai scriptText options activeProject
  | AtStage3 => fromStage3 ai scriptText activeProject
  | AtEnd => setStatus COMPLETE
  end.

(** The service functions a run from boundary [K] has to enter. *)
Definition plan3 (p : Project) : list GatewayOp :=
  if isNull (stage3Result p) then [OpStage3; OpExtractScenes] else [].

Definition planV (o : option VisualOptions) (p : Project) : list GatewayOp :=
  ((if needVisualsOf o then [OpStage2Visuals] else []) ++ plan3 p)%list.

Definition plan2 (o : option VisualOptions) (p : Project) : list GatewayOp :=
  ((if isNull (stage2Result p) then [OpStage2] else []) ++ planV o p)%list.

Definition plan1 (o : option VisualOptions) (p : Project) : list GatewayOp :=
  ((if isNull (stage1Result p) then [OpStage1] else []) ++ plan2 o p)%list.

Definition plan (K : Boundary) (o : option VisualOptions) (p : Project)
  : list GatewayOp :=
  match K with
  | AtStage1 => plan1 o p
  | AtStage2 => plan2 o p
  | AtVisuals => planV o p
  | AtStage3 => plan3 p
  | AtEnd => []
  end.

(** A pitch deck without its generated imagery. *)
Definition stripImage (c : CharacterProfile) : CharacterProfile :=
  mkCharacterProfile (name c) (description c) (screen_presence c) (arc c)
                     (motivation c) None.

Definition stripVisuals (d : Stage2Result) : Stage2Result :=
  mkStage2Result (title d) (genre d) (tone d) (pitch_logline d)
    (world_and_setting d) (map stripImage (character_profiles d))
    (comparable_titles d) None (visual_style_suggestion d) None None None
    (stage2_rest d).

(** [p'] keeps what [p] had: a stage-1 or stage-3 result is the same or
    was missing before; a pitch deck that was there is still there, the
    same up to its imagery. *)
Definition Keeps (p p' : Project) : Prop :=
  project_name p' = project_name p /\
  script p' = script p /\
  (stage1Result p' = stage1Result p \/
   stage1Result p = None /\ stage1Result p' <> None) /\
  (forall d, stage2Result p = Some d ->
     exists d', stage2Result p' = Some d' /\ stripVisuals d' = stripVisuals d) /\
  (stage3Result p' = stage3Result p /\ fullScenes p' = fullScenes p \/
   stage3Result p = None /\ stage3Result p' <> None /\ fullScenes p' <> None).

(** The result field a service function works for is still null. *)
Definition stageNull (op : GatewayOp) (p : Project) : Prop :=
  match op with
  | OpStage1 => stage1Result p = None
  | OpStage2 => stage2Result p = None
  | OpStage2Visuals => False
  | OpStage3 | OpExtractScenes => stage3Result p = None
  end.

(** The result field a service function works for is populated. *)
Definition doneBy (p : Project) (op : GatewayOp) : Prop :=
  match op with
  | OpStage1 => stage1Result p <> None
  | OpStage2 | OpStage2Visuals => stage2Result p <> None
  | OpStage3 | OpExtractScenes => stage3Result p <> None
  end.

(** How a run can end: paused with work left, halted by the failure of the
    last service function it entered, or complete. *)
Definition Ending (c : Completion unit) (evs : list Event) (a' : App)
    (p' : Project) (rest : list GatewayOp) : Prop :=
  (c = Returned /\ status a' = PAUSED /\ shouldStop a' = true /\ rest <> []) \/
  (c = Returned /\ status a' = ERROR /\
   exists pre op,
     invoked evs = (pre ++ [op])%list /\ stageNull op p' /\
     Forall (fun op' => op' <> OpStage3 -> doneBy p' op') pre) \/
  (c = Normal tt /\ status a' = COMPLETE /\ rest = [] /\
   Forall (doneBy p') (invoked evs)).

(** Everything the claims need to know about a run from boundary [K]. *)
Definition RunPost (ai : Backend) (K : Boundary) (o : option VisualOptions)
    (p : Project) (a : App) (l : list Event)
    (res : Completion unit * St) : Prop :=
  exists c evs a' p' rest,
    res = (c, mkSt a' (l ++ evs)%list) /\
    plan K o p = (invoked evs ++ rest)%list /\
    currentProject a' = Some p' /\
    Keeps p p' /\
    scriptToAnalyze a' = scriptToAnalyze a /\
    visualOptions a' = visualOptions a /\
    (shouldStop a = true ->
     evs = [] /\
     a' = setStatus' (if isEmpty (plan K o p) then COMPLETE else PAUSED) a) /\
    (shouldStop a = false -> plan K o p <> [] -> invoked evs <> []) /\
    (shouldStop a' = true -> shouldStop a = true \/ pressable ai) /\
    Ending c evs a' p' rest.

(** At every boundary the visuals step can be reached from. *)
Definition ready (K : Boundary) (p : Project) : Prop :=
  match K with
  | AtVisuals => stage2Result p <> None
  | _ => True
  end.

(** The project a run works on, and the React state at its first boundary. *)
Definition startProject (isResuming : bool) (a : App) : Project :=
  match isResuming, currentProject a with
  | true, Some p => p
  | _, _ => withScript createNewProject (scriptToAnalyze a)
  end.

Definition startApp (o : option VisualOptions) (isResuming : bool) (a : App)
  : App :=
  setError' None
    (setCurrentProject' (Some (startProject isResuming a))
       (if isResuming then setIsVisualsModalOpen' false a
        else setVisualOptions' o
               (setShouldStop' false (setIsVisualsModalOpen' false a)))).

(** ** Sample data *)

Definition sampleScript : string := "INT. ROOM - DAY A man enters.".

Definition sampleStage1 : Stage1Result :=
  mkStage1Result "A man enters a room." "A man enters a room and stays." "".

Definition ava : CharacterProfile :=
  mkCharacterProfile "AVA" "A pilot." "on-screen" "" "" None.
Definition radio : CharacterProfile :=
  mkCharacterProfile "RADIO" "A voice." "off-screen" "" "" None.
Definition ben : CharacterProfile :=
  mkCharacterProfile "BEN" "A mechanic." "on-screen" "" "" None.
Definition cal : CharacterProfile :=
  mkCharacterProfile "CAL" "A guard." "on-screen" "" "" None.

Definition sampleDeck : Stage2Result :=
  mkStage2Result "ROOM" "Drama" "Tense" "A man enters a room." "One room."
    [ava; radio; ben; cal] ["Alien"] None "Noir" None None None "".

Definition sampleStage3 : Stage3Result := mkStage3Result "1 location, 1 day".

Definition sampleScenes : list FullScene :=
  [mkFullScene 1 "INT. ROOM - DAY" "A man enters."].

Definition answer (r : Request) : Resp r :=
  match r with
  | GenerateStage1 _ => Parsed sampleStage1
  | GenerateStage2 _ _ _ => Parsed sampleDeck
  | GenerateStage3 _ => Parsed sampleStage3
  | GenerateScenes _ => Parsed sampleScenes
  | GenerateImages _ _ _ => ["IMG"]
  | SearchPoster _ => [Some "POSTER"]
  end.

(** A backend that answers everything, and a user who never presses Stop. *)
Definition helpful : Backend := fun _ r => mkReply (inr (answer r)) false.


(** The same backend, and a user who presses Stop while stage 1 is in
    flight. *)
Definition stopDuringStage1 : Backend :=
  fun _ r =>
    mkReply (inr (answer r))
            match r with GenerateStage1 _ => true | _ => false end.

(** A paused session: stages 1 and 2 are done, the poster is there. *)
Definition posterDeck : Stage2Result :=
  mkStage2Result "ROOM" "Drama" "Tense" "A man enters a room." "One room."
    [ava; radio; ben; cal] ["Alien"] None "Noir" None None (Some "OLD POSTER") "".

Definition pausedProject : Project :=
  mkProject "Untitled Project" sampleScript (Some sampleStage1)
            (Some posterDeck) None None.

Definition posterOnly : VisualOptions := mkVisualOptions true false false.

Definition pausedApp : App :=
  mkApp PAUSED None (Some pausedProject) sampleScript (Some posterOnly)
        true false.


(** [Logs P m]: everything [m] adds to the log satisfies [P]. *)
Definition Logs {A} (P : Event -> Prop) (m : M A) : Prop :=
  forall st, exists evs,
    log (snd (m st)) = (log st ++ evs)%list /\ Forall P evs.

(** The portrait requests allowed for a pitch deck: those for its main
    characters. *)
Definition portraitAllowed (pitchDeckData : Stage2Result) (e : Event) : Prop :=
  match e with
  | Send (GenerateImages (CharacterPrompt n d g t v) k ratio) =>
      exists character,
        In character (mainCharactersOf pitchDeckData) /\
        GenerateImages (CharacterPrompt n d g t v) k ratio =
        GenerateImages (characterPrompt pitchDeckData character) 1 "3:4"
  | _ => True
  end.

Definition portraitRequest (pitchDeckData : Stage2Result)
    (character : CharacterProfile) : Request :=
  GenerateImages (characterPrompt pitchDeckData character) 1 "3:4".

(** The backend never yields image bytes for this request: it rejects, or
    resolves without them. *)
Definition neverYields (ai : Backend) (r : Request)
    (bytes : Resp r -> string) : Prop :=
  forall l,
    match outcome (ai l r) with
    | inl _ => True
    | inr resp => bytes resp = ""
    end.

(** A completion that is a throw or the value [x]. *)
Definition ThrowsOr {T} (x : T) (c : Completion T) : Prop :=
  (exists e, c = Thrown e) \/ c = Normal x.

(** [Sends r m]: whatever happens, [m] sends the request [r]. *)
Definition Sends {A} (r : Request) (m : M A) : Prop :=
  forall st, exists evs,
    log (snd (m st)) = (log st ++ evs)%list /\ In (Send r) evs.

Definition anyEvent (e : Event) : Prop := True.

Definition withImage (c : CharacterProfile) (img : string) : CharacterProfile :=
  mkCharacterProfile (name c) (description c) (screen_presence c) (arc c)
                     (motivation c) (Some img).

Definition emptyScriptMessage : string := "Script content cannot be empty.".

(** A backend that answers the requests in [fails] with the error [e] and
    everything else as [helpful] does; no Stop is pressed. *)
Definition failing (fails : Request -> bool) (e : JsError) : Backend :=
  fun _ r => mkReply (if fails r then inl e else inr (answer r)) false.

Definition isScenes (r : Request) : bool :=
  match r with GenerateScenes _ => true | _ => false end.

Definition isPortraitOf (who : string) (r : Request) : bool :=
  match r with
  | GenerateImages (CharacterPrompt n _ _ _ _) _ _ => String.eqb n who
  | _ => false
  end.

Definition blocked : JsError := plainError "The request was blocked.".


Definition submittedApp : App := setScriptToAnalyze' sampleScript initialApp.

Definition portraitsOnly : VisualOptions := mkVisualOptions false false true.

Definition deckProject : Project :=
  mkProject "Untitled Project" sampleScript (Some sampleStage1)
            (Some sampleDeck) None None.

Definition deckApp : App :=
  mkApp ANALYZING_STAGE_2 None (Some deckProject) sampleScript
        (Some portraitsOnly) false false.

(** ** App.tsx: what is rendered, new and loaded projects *)

Inductive ActiveTool :=
| ToolScript
| ToolImage
| ToolScriptGenerator
| ToolShotIdea
| ToolSceneSelect
| ToolAIPrompter.

(** The rest of the React state the handlers below write. *)
Record Shell := mkShell {
  activeTool : ActiveTool;
  isReadOnlyMode : bool;
  hasFileHandle : bool;
  isProjectManagerOpen : bool
}.

Definition handleNewProject (ui : App * Shell) : App * Shell :=
  let (a, sh) := ui in
  (mkApp IDLE None (Some createNewProject) (scriptToAnalyze a) None false
         (isVisualsModalOpen a),
   mkShell ToolScript false false (isProjectManagerOpen sh)).

(** [handleLoadProject(id)] once [getProject(id)] has resolved to
    [stored] ([None] for [undefined]). *)
Definition handleLoadProject (stored : option Project) (ui : App * Shell)
  : App * Shell :=
  let (a, sh) := ui in
  match stored with
  | Some project =>
      (mkApp (if isNull (stage3Result project) then IDLE else COMPLETE)
             (error a) (Some project) (scriptToAnalyze a) None (shouldStop a)
             (isVisualsModalOpen a),
       mkShell ToolScript false false false)
  | None => ui
  end.

(** The buttons of [AnalysisInProgress]. *)
Inductive Button := StopButton | ResumeButton | CancelButton.

Definition buttonsOf (s : AnalysisStatus) : list Button :=
  match s with
  | PAUSED => [ResumeButton; CancelButton]
  | _ => [StopButton]
  end.

(** What [renderScriptContent] returns. *)
Inductive View :=
| NoView
| ScriptInputView (error : option string) (script : string) (isReadOnly : bool)
| AnalysisInProgressView (status : AnalysisStatus) (buttons : list Button)
| AnalysisResultView (project : Project) (isReadOnly : bool).

(** [renderScriptContent]: the view, and the state after the fallback
    [handleNewProject()] of the [COMPLETE] case. *)
Definition renderScriptContent (ui : App * Shell) : View * (App * Shell) :=
  let (a, sh) := ui in
  match currentProject a with
  | None => (NoView, ui)
  | Some currentProject =>
      match status a with
      | IDLE | ERROR =>
          (ScriptInputView (error a) (script currentProject) (isReadOnlyMode sh),
           ui)
      | ANALYZING_STAGE_1 | ANALYZING_STAGE_2 | ANALYZING_STAGE_2_VISUALS
      | ANALYZING_STAGE_3 | PAUSED =>
          (AnalysisInProgressView (status a) (buttonsOf (status a)), ui)
      | COMPLETE =>
          if negb (isNull (stage1Result currentProject)) &&
             negb (isNull (stage2Result currentProject)) &&
             negb (isNull (stage3Result currentProject))
          then (AnalysisResultView currentProject (isReadOnlyMode sh), ui)
          else (NoView, handleNewProject ui)
      end
  end.

(** ** ShareModal.tsx: what [generateLiteCode] does to the pitch deck

    The block under [if (liteProject.stage2Result)]; the other parts of a
    project are not modelled. *)

Definition liteStage2 (d : Stage2Result) : Stage2Result :=
  mkStage2Result (title d) (genre d) (tone d) (pitch_logline d)
    (world_and_setting d)
    (map (fun c =>
            mkCharacterProfile (name c) (description c) (screen_presence c)
                               (arc c) (motivation c) None)
         (character_profiles d))
    (comparable_titles d)
    (option_map (map (fun c => mkTitleVisual (tv_title c) ""))
                (comparable_titles_visuals d))
    (visual_style_suggestion d)
    (Some [])
    None None
    (stage2_rest d).

(** ** Vocabulary of the further properties *)

(** Milliseconds spent in timers. *)
Definition slept (evs : list Event) : Z :=
  fold_right (fun e acc => match e with Slept ms => ms + acc | _ => acc end)
             0 evs.


(** The requests the options of the visuals step allow. *)
Definition optionAllows (o : VisualOptions) (e : Event) : Prop :=
  match e with
  | Send (GenerateImages (ConceptArtPrompt _ _ _ _ _ _) _ _) => concept o = true
  | Send (GenerateImages (PosterPrompt _ _ _ _) _ _) => poster o = true
  | Send (GenerateImages (CharacterPrompt _ _ _ _ _) _ _) => characters o = true
  | Send (GenerateImages (VisualStylePrompt _) _ _) => concept o = true
  | Send (GenerateImages (ComparablePosterPrompt _) _ _)
  | Send (SearchPoster _) => poster o || concept o || characters o = true
  | Send _ => False
  | _ => True
  end.

(** A backend that rejects every request. *)
Definition rejectsAll (ai : Backend) : Prop :=
  forall l r, exists e, outcome (ai l r) = inl e.

(** The text requests of a run carry the submitted script; the stage-2
    request also the logline and the synopsis [lg] and [sy]. *)
Definition carries (s lg sy : string) (e : Event) : Prop :=
  match e with
  | Send (GenerateStage1 s') => s' = s
  | Send (GenerateStage2 s' lg' sy') => s' = s /\ lg' = lg /\ sy' = sy
  | Send (GenerateStage3 s') => s' = s
  | Send (GenerateScenes s') => s' = s
  | _ => True
  end.

(** The same, for code that sends no stage-2 request at all. *)
Definition carriesNoStage2 (s : string) (e : Event) : Prop :=
  match e with
  | Send (GenerateStage1 s') => s' = s
  | Send (GenerateStage2 _ _ _) => False
  | Send (GenerateStage3 s') => s' = s
  | Send (GenerateScenes s') => s' = s
  | _ => True
  end.


(** [Yields P m]: whenever [m] runs through, its value satisfies [P]. *)
Definition Yields {A} (P : A -> Prop) (m : M A) : Prop :=
  forall st x, fst (m st) = Normal x -> P x.

(** The five parts of [generateAllVisuals], as they stand in its body. *)
Definition conceptArtPart (ai : Backend) (pitchDeckData : Stage2Result)
    (options : VisualOptions) : M string :=
  if concept options then
    tryCatch
      (retryDefault
         (conceptArtResponse <-
            request ai (GenerateImages
                          (ConceptArtPrompt (title pitchDeckData)
                             (genre pitchDeckData) (tone pitchDeckData)
                             (pitch_logline pitchDeckData)
                             (visual_style_suggestion pitchDeckData)
                             (world_and_setting pitchDeckData))
                          1 "16:9") ;;
          ret (firstImage conceptArtResponse)))
      (fun _ => ret "")
  else ret "".

Definition moviePosterPart (ai : Backend) (pitchDeckData : Stage2Result)
    (options : VisualOptions) : M string :=
  if poster options then
    tryCatch
      (when (concept options) (sleep 2000) ;;
       retryDefault
         (posterResponse <-
            request ai (GenerateImages
                          (PosterPrompt (title pitchDeckData)
                             (genre pitchDeckData)
                             (pitch_logline pitchDeckData)
                             (visual_style_suggestion pitchDeckData))
                          1 "3:4") ;;
          ret (firstImage posterResponse)))
      (fun _ => ret "")
  else ret "".

Definition portraitsPart (ai : Backend) (pitchDeckData : Stage2Result)
    (options : VisualOptions) : M (list Portrait) :=
  if characters options then
    portraitsLoop ai pitchDeckData options (mainCharactersOf pitchDeckData) []
  else ret [].

Definition comparablesPart (ai : Backend) (pitchDeckData : Stage2Result)
    (options : VisualOptions) (character_portraits : list Portrait)
  : M (list TitleVisual) :=
  if poster options || concept options || characters options then
    comparablesLoop ai character_portraits
      (firstn 3 (comparable_titles pitchDeckData)) []
  else ret [].

Definition styleFramesPart (ai : Backend) (pitchDeckData : Stage2Result)
    (options : VisualOptions) : M (list string) :=
  if concept options then
    tryCatch
      (sleep 4000 ;;
       retryDefault
         (visualStyleImagesResponse <-
            request ai (GenerateImages
                          (VisualStylePrompt
                             (visual_style_suggestion pitchDeckData))
                          3 "16:9") ;;
          ret (filter Js.truthy visualStyleImagesResponse)))
      (fun _ => ret [])
  else ret [].

(** The comparable titles, each with an empty image. *)
Definition emptyVisualsOf (titles : list string) : list TitleVisual :=
  map (fun t => mkTitleVisual t "") titles.

(** A portrait the visuals step may return for a pitch deck. *)
Definition goodPortrait (pitchDeckData : Stage2Result) (q : Portrait) : Prop :=
  Js.truthy (portrait_image_base64 q) = true /\
  exists character,
    In character (mainCharactersOf pitchDeckData) /\
    portrait_name q = name character.

(** A backend that rejects every request. *)
Definition rejecting : Backend := failing (fun _ => true) blocked.

(** The log of an operation that sends [r] once per attempt and is
    retried [k] times. *)
Fixpoint attempts (r : Request) (k : nat) (delay factor : Z) : list Event :=
  Attempt :: Send r ::
  match k with
  | O => []
  | S k' => Slept delay :: attempts r k' (delay * factor) factor
  end.

(** Code after the request that leaves the state alone. *)
Definition Silent {A B} (post : A -> M B) : Prop :=
  forall x st, snd (post x st) = st.

(** The shape of a stage call: entered once, the same request sent once
    per attempt, at most four retries behind their timers, and fewer than
    four only when the outcome is not a transient failure. *)
Definition callShape {T} (op : GatewayOp) (r : Request)
    (res : Completion T * St) (st : St) : Prop :=
  exists k,
    (k <= 4)%nat /\
    log (snd res) = (log st ++ Invoke op :: attempts r k 2000 2)%list /\
    sent (Invoke op :: attempts r k 2000 2) = repeat r (S k) /\
    slept (Invoke op :: attempts r k 2000 2) <= 30000 /\
    ((k < 4)%nat -> ~ transientThrow (fst res)).

(** The outcome of a stage call whose first answer has no text. *)
Definition endsAtOnce {T} (op : GatewayOp) (r : Request)
    (res : Completion T * St) (st : St) : Prop :=
  exists e,
    fst res = Thrown e /\
    transient e = false /\
    errorMessageOf e = message e /\
    log (snd res) = (log st ++ [Invoke op; Attempt; Send r])%list.

(** A backend whose text answers are empty and which finds no image. *)
Definition mute : Backend :=
  fun _ r =>
    mkReply
      (inr (match r return Resp r with
            | GenerateStage1 _ => NoText
            | GenerateStage2 _ _ _ => NoText
            | GenerateStage3 _ => NoText
            | GenerateScenes _ => NoText
            | GenerateImages _ _ _ => []
            | SearchPoster _ => []
            end))
      false.

(** Visuals in which nothing was generated. *)
Definition noVisuals : Visuals := mkVisuals "" "" [] [] [].

(** A pitch deck that holds no image. *)
Definition imageFree (d : Stage2Result) : Prop :=
  concept_art_base64 d = None /\
  movie_poster_base64 d = None /\
  visual_style_images_base64 d = Some [] /\
  Forall (fun c => image_base64 c = None) (character_profiles d) /\
  (forall cs, comparable_titles_visuals d = Some cs ->
              Forall (fun c => tv_image_base64 c = "") cs).

(** [Retried operation k delay factor st last]: from [st], [k] attempts in
    a row each failed with a transient error and was followed by its
    timer, the first of [delay] ms and each next one [factor] times
    longer; [last] is the state in which the attempt after them starts. *)
Fixpoint Retried {T} (operation : M T) (k : nat) (delay factor : Z)
    (st last : St) : Prop :=
  match k with
  | O => last = attempted st
  | S k' =>
      exists e st1,
        operation (attempted st) = (Thrown e, st1) /\
        transient e = true /\
        Retried operation k' (delay * factor) factor
                (mkSt (app st1) (log st1 ++ [Slept delay])%list) last
  end.

(** The backend always resolves the request [r] to [resp]. *)
Definition answers (ai : Backend) (r : Request) (resp : Resp r) : Prop :=
  forall l, outcome (ai l r) = inr resp.

(** [Returns x m]: [m] always runs through, with the value [x]. *)
Definition Returns {A} (x : A) (m : M A) : Prop :=
  forall st, fst (m st) = Normal x.

(** The image requests of the visuals step for a pitch deck. *)
Definition conceptRequest (pitchDeckData : Stage2Result) : Request :=
  GenerateImages
    (ConceptArtPrompt (title pitchDeckData) (genre pitchDeckData)
       (tone pitchDeckData) (pitch_logline pitchDeckData)
       (visual_style_suggestion pitchDeckData)
       (world_and_setting pitchDeckData))
    1 "16:9".

Definition posterRequest (pitchDeckData : Stage2Result) : Request :=
  GenerateImages
    (PosterPrompt (title pitchDeckData) (genre pitchDeckData)
       (pitch_logline pitchDeckData)
       (visual_style_suggestion pitchDeckData))
    1 "3:4".

Definition styleRequest (pitchDeckData : Stage2Result) : Request :=
  GenerateImages (VisualStylePrompt (visual_style_suggestion pitchDeckData))
                 3 "16:9".

(** Each requested sub-asset on its own: its request is among the events
    [evs] of the visuals step, and what the backend answers to that
    request is in the visuals [v] the step returns. *)
Definition subAssetsOnTheirOwn (ai : Backend) (d : Stage2Result)
    (o : VisualOptions) (evs : list Event) (v : Visuals) : Prop :=
  (concept o = true ->
   In (Send (conceptRequest d)) evs /\
   (forall resp : list string,
      answers ai (conceptRequest d) resp ->
      v_concept_art_base64 v = firstImage resp) /\
   In (Send (styleRequest d)) evs /\
   (forall resp : list string,
      answers ai (styleRequest d) resp ->
      v_visual_style_images_base64 v = filter Js.truthy resp)) /\
  (poster o = true ->
   In (Send (posterRequest d)) evs /\
   (forall resp : list string,
      answers ai (posterRequest d) resp ->
      v_movie_poster_base64 v = firstImage resp)) /\
  (characters o = true ->
   forall c, In c (mainCharactersOf d) ->
     In (Send (portraitRequest d c)) evs /\
     (forall resp : list string,
        answers ai (portraitRequest d c) resp ->
        Js.truthy (firstImage resp) = true ->
        In (mkPortrait (name c) (firstImage resp))
           (v_character_portraits v))) /\
  (poster o || concept o || characters o = true ->
   forall t, In t (firstn 3 (comparable_titles d)) ->
     In (Send (SearchPoster t)) evs /\
     (forall resp : list (option string),
        answers ai (SearchPoster t) resp ->
        Js.truthy (firstInlineData resp) = true ->
        In (mkTitleVisual t (firstInlineData resp))
           (v_comparable_titles_visuals v))).

(** Two main characters that share a name. *)
Definition twin : CharacterProfile :=
  mkCharacterProfile "AVA" "Her double." "on-screen" "" "" None.

Definition twinDeck : Stage2Result :=
  mkStage2Result "ROOM" "Drama" "Tense" "A man enters a room." "One room."
    [ava; twin] ["Alien"] None "Noir" None None None "".

Definition twinProject : Project :=
  mkProject "Untitled Project" sampleScript (Some sampleStage1)
            (Some twinDeck) None None.

Definition twinApp : App :=
  mkApp ANALYZING_STAGE_2 None (Some twinProject) sampleScript
        (Some portraitsOnly) false false.

Definition isPortraitDescribed (how : string) (r : Request) : bool :=
  match r with
  | GenerateImages (CharacterPrompt _ d _ _ _) _ _ => String.eqb d how
  | _ => false
  end.





(** * Properties *)

Ltac splits := repeat match goal with |- _ /\ _ => split end.

(** ** What service code can do to the state

    Service code never reads the React state; the only way it changes is
    by a Stop pressed while a request is in flight. *)

Lemma invoked_app l1 l2 : invoked (l1 ++ l2) = (invoked l1 ++ invoked l2)%list.
Proof. apply flat_map_app. Qed.

Lemma sent_app l1 l2 : sent (l1 ++ l2) = (sent l1 ++ sent l2)%list.
Proof. apply flat_map_app. Qed.

Lemma retryEvents_app l1 l2 :
  retryEvents (l1 ++ l2) = (retryEvents l1 ++ retryEvents l2)%list.
Proof. apply filter_app. Qed.

Lemma stopApp_stopApp b1 b2 a :
  stopApp b2 (stopApp b1 a) = stopApp (b1 || b2) a.
Proof. destruct b1, b2; reflexivity. Qed.

Section EffectFacts.

Variable ai : Backend.

Lemma Effect_ret {A} (x : A) : Effect ai [] (ret x).
Proof.
  intros l. exists (Normal x), false, []. repeat split; try discriminate.
  intros a. unfold ret. now rewrite app_nil_r.
Qed.

Lemma Effect_throw {A} e : Effect ai [] (@throw A e).
Proof.
  intros l. exists (Thrown e), false, []. repeat split; try discriminate.
  intros a. unfold throw. now rewrite app_nil_r.
Qed.

Lemma Effect_tell e : invoked [e] = [] -> Effect ai [] (tell e).
Proof.
  intros He l. exists (Normal tt), false, [e]. repeat split; auto; discriminate.
Qed.

Lemma Effect_sleep ms : Effect ai [] (sleep ms).
Proof. apply Effect_tell. reflexivity. Qed.

Lemma pressed_orb b b' :
  (b = true -> pressable ai) -> (b' = true -> pressable ai) ->
  b || b' = true -> pressable ai.
Proof. destruct b; auto. Qed.

Lemma Effect_bind {A B} ops (m : M A) (k : A -> M B) :
  Effect ai ops m -> (forall x, Effect ai [] (k x)) -> Effect ai ops (bind m k).
Proof.
  intros Hm Hk l.
  destruct (Hm l) as (c & b & evs & Hinv & Hc & Hb & Hrun).
  destruct c as [x | e | ]; [ | | congruence ].
  - destruct (Hk x (l ++ evs)%list)
      as (c' & b' & evs' & Hinv' & Hc' & Hb' & Hrun').
    exists c', (b || b'), (evs ++ evs')%list.
    split; [ | split; [ exact Hc' | split; [ now apply pressed_orb | ] ] ].
    + rewrite invoked_app, Hinv, Hinv'. apply app_nil_r.
    + intros a. unfold bind. rewrite Hrun, Hrun', stopApp_stopApp.
      now rewrite app_assoc.
  - exists (Thrown e), b, evs. repeat split; auto; try discriminate.
    intros a. unfold bind. now rewrite Hrun.
Qed.

Lemma Effect_tryCatch {A} (m : M A) (h : JsError -> M A) :
  Effect ai [] m -> (forall e, Effect ai [] (h e)) -> Effect ai [] (tryCatch m h).
Proof.
  intros Hm Hh l.
  destruct (Hm l) as (c & b & evs & Hinv & Hc & Hb & Hrun).
  destruct c as [x | e | ]; [ | | congruence ].
  - exists (Normal x), b, evs. repeat split; auto.
    intros a. unfold tryCatch. now rewrite Hrun.
  - destruct (Hh e (l ++ evs)%list)
      as (c' & b' & evs' & Hinv' & Hc' & Hb' & Hrun').
    exists c', (b || b'), (evs ++ evs')%list.
    split; [ | split; [ exact Hc' | split; [ now apply pressed_orb | ] ] ].
    + rewrite invoked_app, Hinv, Hinv'. reflexivity.
    + intros a. unfold tryCatch. rewrite Hrun, Hrun', stopApp_stopApp.
      now rewrite app_assoc.
Qed.

Lemma Effect_when b (m : M unit) : Effect ai [] m -> Effect ai [] (when b m).
Proof. destruct b; simpl; auto using Effect_ret. Qed.

Lemma Effect_enter {A} op (m : M A) :
  Effect ai [] m -> Effect ai [op] (tell (Invoke op) ;; m).
Proof.
  intros Hm l.
  destruct (Hm (l ++ [Invoke op])%list)
    as (c & b & evs & Hinv & Hc & Hb & Hrun).
  exists c, b, (Invoke op :: evs). repeat split; auto.
  - change (Invoke op :: evs) with ([Invoke op] ++ evs)%list.
    rewrite invoked_app, Hinv. reflexivity.
  - intros a. unfold bind, tell. simpl. rewrite Hrun.
    now rewrite <- app_assoc.
Qed.

Lemma Effect_request r : Effect ai [] (request ai r).
Proof.
  intros l.
  exists (match outcome (ai l r) with inl e => Thrown e | inr v => Normal v end),
         (stopPressed (ai l r)), [Send r].
  repeat split.
  - destruct (outcome (ai l r)); discriminate.
  - intros Hp. now exists l, r.
  - intros a. unfold request, stopApp. simpl.
    destruct (outcome (ai l r)); reflexivity.
Qed.

Lemma Effect_retryWithBackoff {T} (operation : M T) retries :
  Effect ai [] operation ->
  forall delay factor,
    Effect ai [] (retryWithBackoff operation retries delay factor).
Proof.
  intros Hop. induction retries as [ | n IH]; intros delay factor; simpl.
  - apply Effect_tryCatch.
    + apply Effect_bind; auto using Effect_tell.
    + intros e. apply Effect_throw.
  - apply Effect_tryCatch.
    + apply Effect_bind; auto using Effect_tell.
    + intros e. destruct (isRateLimit e || isServerOverload e).
      * apply Effect_bind; auto using Effect_sleep.
      * apply Effect_throw.
Qed.

Lemma Effect_parseJson {T} msg (text : Json T) :
  Effect ai [] (parseJson msg text).
Proof. destruct text; simpl; auto using Effect_ret, Effect_throw. Qed.

End EffectFacts.

Create HintDb effect.
#[global] Hint Resolve Effect_ret Effect_throw Effect_sleep Effect_request
  Effect_parseJson : effect.

Ltac effect :=
  repeat match goal with
  | |- Effect _ _ (bind (tell (Invoke _)) _) => apply Effect_enter
  | |- Effect _ _ (retryDefault _) => unfold retryDefault
  | |- Effect _ _ (retryWithBackoff _ _ _ _) => apply Effect_retryWithBackoff
  | |- Effect _ _ (tryCatch _ _) => apply Effect_tryCatch
  | |- Effect _ _ (bind _ _) => apply Effect_bind
  | |- Effect _ _ (when _ _) => apply Effect_when
  | |- Effect _ _ (if ?b then _ else _) => destruct b
  | |- forall _, _ => intro
  | |- _ => solve [ auto with effect ]
  end.

Lemma Effect_analyzeStage1 ai s : Effect ai [OpStage1] (analyzeStage1 ai s).
Proof. unfold analyzeStage1. effect. Qed.

Lemma Effect_analyzeStage2 ai s lg sy :
  Effect ai [OpStage2] (analyzeStage2 ai s lg sy).
Proof. unfold analyzeStage2. effect. Qed.

Lemma Effect_analyzeStage3 ai s : Effect ai [OpStage3] (analyzeStage3 ai s).
Proof. unfold analyzeStage3. effect. Qed.

Lemma Effect_extractScenes ai s : Effect ai [OpExtractScenes] (extractScenes ai s).
Proof. unfold extractScenes. effect. Qed.

Lemma Effect_portraitsLoop ai d o cs :
  forall acc, Effect ai [] (portraitsLoop ai d o cs acc).
Proof.
  induction cs as [ | c cs IH]; intros acc; simpl.
  - apply Effect_ret.
  - apply Effect_bind; auto. unfold portraitFor. effect.
Qed.

Lemma Effect_comparablesLoop ai ps ts :
  forall acc, Effect ai [] (comparablesLoop ai ps ts acc).
Proof.
  induction ts as [ | t ts IH]; intros acc; simpl.
  - apply Effect_ret.
  - apply Effect_bind; auto. unfold comparableFor. effect.
Qed.

Lemma Effect_generateAllVisuals ai d o :
  Effect ai [OpStage2Visuals] (generateAllVisuals ai d o).
Proof.
  unfold generateAllVisuals.
  apply Effect_enter.
  apply Effect_bind; [ effect | intros v1 ].
  apply Effect_bind; [ effect | intros v2 ].
  apply Effect_bind;
    [ destruct (characters o); auto using Effect_portraitsLoop, Effect_ret
    | intros v3 ].
  apply Effect_bind;
    [ destruct (poster o || concept o || characters o);
      auto using Effect_comparablesLoop, Effect_ret
    | intros v4 ].
  apply Effect_bind; [ effect | intros v5 ].
  apply Effect_ret.
Qed.

(** ** Retry with backoff *)

Lemma retryWithBackoff_first {T} (operation : M T) retries delay factor st :
  ~ transientThrow (fst (operation (attempted st))) ->
  retryWithBackoff operation retries delay factor st = operation (attempted st).
Proof.
  intros Hnt.
  destruct retries; simpl; unfold tryCatch, bind, tell; simpl;
    fold (attempted st);
    destruct (operation (attempted st)) as [[x | e | ] st1] eqn:E; auto.
  simpl in Hnt. fold (transient e).
  destruct (transient e) eqn:Et; auto.
  exfalso. apply Hnt. now exists e.
Qed.

Lemma retryWithBackoff_again {T} (operation : M T) retries delay factor st e st1 :
  operation (attempted st) = (Thrown e, st1) ->
  transient e = true ->
  retryWithBackoff operation (S retries) delay factor st =
  retryWithBackoff operation retries (delay * factor) factor
    (mkSt (app st1) (log st1 ++ [Slept delay])%list).
Proof.
  intros E Et. simpl. unfold tryCatch at 1. unfold bind at 1, tell at 1.
  simpl. fold (attempted st). rewrite E. fold (transient e). rewrite Et.
  reflexivity.
Qed.

Lemma retryWithBackoff_exhausted {T} (operation : M T) delay factor st :
  retryWithBackoff operation 0 delay factor st = operation (attempted st).
Proof.
  simpl; unfold tryCatch, bind, tell; simpl; fold (attempted st).
  now destruct (operation (attempted st)) as [[x | e | ] st1].
Qed.

Lemma retryWithBackoff_schedule {T} (operation : M T) :
  Plain operation ->
  forall retries delay factor st,
  exists k last evs,
    (k <= retries)%nat /\
    retryWithBackoff operation retries delay factor st = operation last /\
    log (snd (operation last)) = (log st ++ evs)%list /\
    retryEvents evs = backoff k delay factor /\
    ((k < retries)%nat -> ~ transientThrow (fst (operation last))).
Proof.
  intros Hp. induction retries as [ | n IH]; intros delay factor st.
  - exists 0%nat, (attempted st).
    destruct (Hp (attempted st)) as (evs & Hl & Hr).
    exists (Attempt :: evs). repeat split; auto.
    + apply retryWithBackoff_exhausted.
    + rewrite Hl. simpl. now rewrite <- app_assoc.
    + simpl. now rewrite Hr.
    + lia.
  - destruct (Hp (attempted st)) as (evs & Hl & Hr).
    destruct (operation (attempted st)) as [c st1] eqn:E.
    assert (Hcases : transientThrow c \/ ~ transientThrow c).
    { destruct c as [x | e | ].
      - right. intros (e' & He' & _). discriminate.
      - destruct (transient e) eqn:Et.
        + left. now exists e.
        + right. intros (e' & He' & Ht). congruence.
      - right. intros (e' & He' & _). discriminate. }
    destruct Hcases as [(e & -> & Et) | Hnt].
    + destruct (IH (delay * factor) factor
                   (mkSt (app st1) (log st1 ++ [Slept delay])%list))
        as (k & last & evs' & Hk & Hrun & Hl' & Hr' & Hstop).
      exists (S k), last, (Attempt :: evs ++ Slept delay :: evs')%list.
      repeat split.
      * lia.
      * rewrite (retryWithBackoff_again _ _ _ _ _ _ _ E Et). exact Hrun.
      * rewrite Hl'. simpl in *. rewrite Hl. simpl.
        repeat rewrite <- app_assoc. reflexivity.
      * simpl. rewrite retryEvents_app, Hr. simpl. now rewrite Hr'.
      * intros Hlt. apply Hstop. lia.
    + exists 0%nat, (attempted st), (Attempt :: evs).
      repeat split.
      * lia.
      * apply retryWithBackoff_first. now rewrite E.
      * rewrite E. simpl in *. rewrite Hl. now rewrite <- app_assoc.
      * simpl. now rewrite Hr.
      * intros _. now rewrite E.
Qed.

Lemma Plain_request ai r : Plain (request ai r).
Proof.
  intros st. exists [Send r]. split; [ | reflexivity ].
  unfold request. simpl. now destruct (outcome (ai (log st) r)).
Qed.

(** C3, as stated: with a backend that is rate limited for good, the
    operation is attempted five times, not four. *)
Lemma retry_bound_counterexample :
  let st' := snd (analyzeStage1 rateLimited "INT. ROOM - DAY" initialSt) in
  List.length (sent (log st')) = 5%nat /\
  ~ (List.length (sent (log st')) <= 4)%nat /\
  fst (analyzeStage1 recoversOnFifth "INT. ROOM - DAY" initialSt) =
    Normal (mkStage1Result "A man enters." "" "").
Proof.
  vm_compute. repeat split. intros H. now repeat apply le_S_n in H.
Qed.

Lemma transientThrow_dec {T} (c : Completion T) :
  transientThrow c \/ ~ transientThrow c.
Proof.
  destruct c as [x | e | ].
  - right. intros (e' & He' & _). discriminate.
  - destruct (transient e) eqn:Et.
    + left. now exists e.
    + right. intros (e' & He' & Ht). congruence.
  - right. intros (e' & He' & _). discriminate.
Qed.

(** Every call of [retryWithBackoff] is a run of transiently failed
    attempts, each followed by its timer, and one last attempt whose
    completion is the completion of the call. *)
Lemma retryWithBackoff_trace {T} (operation : M T) :
  forall retries delay factor st,
  exists k last,
    (k <= retries)%nat /\
    Retried operation k delay factor st last /\
    retryWithBackoff operation retries delay factor st = operation last /\
    ((k < retries)%nat -> ~ transientThrow (fst (operation last))).
Proof.
  induction retries as [ | n IH]; intros delay factor st.
  - exists 0%nat, (attempted st). splits; [ lia | reflexivity | | lia ].
    apply retryWithBackoff_exhausted.
  - destruct (operation (attempted st)) as [c st1] eqn:E.
    destruct (transientThrow_dec c) as [(e & -> & Et) | Hnt].
    + destruct (IH (delay * factor) factor
                   (mkSt (app st1) (log st1 ++ [Slept delay])%list))
        as (k & last & Hk & Htr & Hrun & Hstop).
      exists (S k), last. splits.
      * lia.
      * simpl. exists e, st1. auto.
      * rewrite (retryWithBackoff_again _ _ _ _ _ _ _ E Et). exact Hrun.
      * intros Hlt. apply Hstop. lia.
    + exists 0%nat, (attempted st). splits.
      * lia.
      * reflexivity.
      * apply retryWithBackoff_first. now rewrite E.
      * intros _. now rewrite E.
Qed.

(** The attempts and timers such a run leaves in the log. *)
Lemma Retried_events {T} (operation : M T) :
  Plain operation ->
  forall k delay factor st last,
    Retried operation k delay factor st last ->
    exists evs,
      log (snd (operation last)) = (log st ++ evs)%list /\
      retryEvents evs = backoff k delay factor.
Proof.
  intros Hp. induction k as [ | k IH]; intros delay factor st last Htr.
  - simpl in Htr. subst last.
    destruct (Hp (attempted st)) as (evs & Hl & Hr).
    exists (Attempt :: evs). split.
    + rewrite Hl. simpl. now rewrite <- app_assoc.
    + simpl. now rewrite Hr.
  - simpl in Htr. destruct Htr as (e & st1 & E & Et & Htr).
    destruct (Hp (attempted st)) as (evs & Hl & Hr).
    rewrite E in Hl. simpl in Hl.
    destruct (IH _ _ _ _ Htr) as (evs' & Hl' & Hr').
    exists (Attempt :: evs ++ Slept delay :: evs')%list. split.
    + rewrite Hl'. simpl. rewrite Hl. repeat rewrite <- app_assoc.
      reflexivity.
    + simpl. rewrite retryEvents_app, Hr. simpl. now rewrite Hr'.
Qed.

(** C3, amended: the default policy makes at most four retries, five
    attempts in all.  Every call is a run of [k <= 4] attempts that each
    failed with a transient error and was followed by its timer (2000,
    4000, 8000, 16000 ms), and one more attempt whose completion is the
    completion of the call, unchanged.  An attempt is retried only when
    it failed transiently: a first attempt that succeeds or fails with a
    non-transient error is the only one, and fewer than four retries are
    made only when the last attempt did not fail transiently.  When every
    attempt fails transiently four retries are made and the transient
    failure of the fifth attempt is what the call throws.  The attempts
    and timers in the log are exactly those of the [k] retries. *)
Theorem retryWithBackoff_policy {T} (operation : M T) (st : St) :
  exists k last,
    (k <= 4)%nat /\
    Retried operation k 2000 2 st last /\
    retryDefault operation st = operation last /\
    ((k < 4)%nat -> ~ transientThrow (fst (operation last))) /\
    (~ transientThrow (fst (operation (attempted st))) ->
     k = 0%nat /\ retryDefault operation st = operation (attempted st)) /\
    ((forall s, transientThrow (fst (operation s))) ->
     k = 4%nat /\ transientThrow (fst (retryDefault operation st))) /\
    (Plain operation ->
     exists evs,
       log (snd (retryDefault operation st)) = (log st ++ evs)%list /\
       retryEvents evs = backoff k 2000 2 /\
       (k = 4%nat ->
        retryEvents evs =
          [Attempt; Slept 2000; Attempt; Slept 4000; Attempt; Slept 8000;
           Attempt; Slept 16000; Attempt])).
Proof.
  unfold retryDefault.
  destruct (retryWithBackoff_trace operation 4 2000 2 st)
    as (k & last & Hk & Htr & Hrun & Hstop).
  exists k, last. splits; auto.
  - intros Hnt. split; [ | now apply retryWithBackoff_first ].
    destruct k as [ | k]; auto.
    simpl in Htr. destruct Htr as (e & st1 & E & Et & _).
    exfalso. apply Hnt. rewrite E. now exists e.
  - intros Hall. split; [ | rewrite Hrun; apply Hall ].
    destruct (Nat.eq_dec k 4) as [ | Hne]; auto.
    exfalso. apply Hstop; [ lia | apply Hall ].
  - intros Hp.
    destruct (Retried_events operation Hp k 2000 2 st last Htr)
      as (evs & Hl & Hr).
    exists evs. rewrite Hrun. splits; auto.
    intros ->. exact Hr.
Qed.

Lemma retryWithBackoff_policy_witness :
  exists k last,
    k = 4%nat /\
    retryDefault (request rateLimited (GenerateStage1 "INT. ROOM - DAY"))
                 initialSt =
      request rateLimited (GenerateStage1 "INT. ROOM - DAY") last /\
    transientThrow
      (fst (retryDefault
              (request rateLimited (GenerateStage1 "INT. ROOM - DAY"))
              initialSt)) /\
    exists evs,
      log (snd (retryDefault
                  (request rateLimited (GenerateStage1 "INT. ROOM - DAY"))
                  initialSt)) = (log initialSt ++ evs)%list /\
      retryEvents evs =
        [Attempt; Slept 2000; Attempt; Slept 4000; Attempt; Slept 8000;
         Attempt; Slept 16000; Attempt].
Proof.
  destruct (retryWithBackoff_policy
              (request rateLimited (GenerateStage1 "INT. ROOM - DAY"))
              initialSt)
    as (k & last & _ & _ & Hrun & _ & _ & Hall & Hlog).
  destruct Hall as (Hk & Hthrow).
  { intros s. exists (plainError "429 Too Many Requests").
    split; reflexivity. }
  destruct (Hlog (Plain_request rateLimited _)) as (evs & Hl & _ & Hr).
  exists k, last. splits; auto.
  exists evs. split; auto.
Defined.

(** ** The four steps of the pipeline *)

Local Opaque analyzeStage1 analyzeStage2 analyzeStage3 extractScenes
  generateAllVisuals.

Ltac run_service H :=
  let c := fresh "c" in
  let pressed := fresh "pressed" in
  let evs := fresh "evs" in
  let Hinv := fresh "Hinv" in
  let Hc := fresh "Hc" in
  let Hpressed := fresh "Hpressed" in
  let Hrun := fresh "Hrun" in
  destruct H as (c & pressed & evs & Hinv & Hc & Hpressed & Hrun);
  rewrite Hrun; destruct c as [? | ? | ]; [ | | congruence ].

Lemma stage1Block_skip ai s p st :
  stage1Result p <> None -> stage1Block ai s p st = (Normal p, st).
Proof. unfold stage1Block. destruct (stage1Result p); [ reflexivity | congruence ]. Qed.

Lemma stage1Block_step ai s p a l :
  stage1Result p = None ->
  Step ai ANALYZING_STAGE_1 [OpStage1] [[OpStage1]]
       (fun p' => exists r, p' = withStage1 p r) a l
       (stage1Block ai s p (mkSt a l)).
Proof.
  intros Hnull. unfold stage1Block. rewrite Hnull. simpl.
  unfold bind, checkStop, getApp, bind. simpl.
  destruct (shouldStop a) eqn:Hstop; simpl.
  - now apply StepPaused.
  - unfold tryCatch, bind.
    run_service (Effect_analyzeStage1 ai s l); simpl.
    + apply StepDone; eauto.
    + apply StepFailed; auto. rewrite Hinv. now left.
Qed.

Lemma stage2Block_skip ai s p st :
  stage2Result p <> None -> stage2Block ai s p st = (Normal p, st).
Proof. unfold stage2Block. destruct (stage2Result p); [ reflexivity | congruence ]. Qed.

Lemma stage2Block_step ai s p a l :
  stage2Result p = None ->
  Step ai ANALYZING_STAGE_2 [OpStage2] [[OpStage2]]
       (fun p' => exists r, p' = withStage2 p r) a l
       (stage2Block ai s p (mkSt a l)).
Proof.
  intros Hnull. unfold stage2Block. rewrite Hnull. simpl.
  unfold bind, checkStop, getApp, bind. simpl.
  destruct (shouldStop a) eqn:Hstop; simpl.
  - now apply StepPaused.
  - unfold tryCatch, bind.
    match goal with
    | |- context [analyzeStage2 ai s ?lg ?sy _] =>
        run_service (Effect_analyzeStage2 ai s lg sy l); simpl
    end.
    + apply StepDone; eauto.
    + apply StepFailed; auto. rewrite Hinv. now left.
Qed.

Lemma visualsBlock_skip ai o p st :
  needVisualsOf o = false -> visualsBlock ai o p st = (Normal p, st).
Proof. unfold visualsBlock. now intros ->. Qed.

Lemma Total_ret {A} (x : A) : Total (ret x).
Proof. intros st. now exists x. Qed.

Lemma Total_tell e : Total (tell e).
Proof. intros st. now exists tt. Qed.

Lemma Total_bind {A B} (m : M A) (k : A -> M B) :
  Total m -> (forall x, Total (k x)) -> Total (bind m k).
Proof.
  intros Hm Hk st. unfold bind.
  destruct (Hm st) as (x & Hx). destruct (m st) as [c st'].
  simpl in Hx. subst c. apply Hk.
Qed.

Lemma Total_tryCatch {A} ai (m : M A) (h : JsError -> M A) :
  Effect ai [] m -> (forall e, Total (h e)) -> Total (tryCatch m h).
Proof.
  intros Hm Hh [a l]. unfold tryCatch.
  destruct (Hm l) as (c & b & evs & _ & Hc & _ & Hrun). rewrite Hrun.
  destruct c as [x | e | ]; [ now exists x | apply Hh | congruence ].
Qed.

Lemma Total_portraitsLoop ai d o cs :
  forall acc, Total (portraitsLoop ai d o cs acc).
Proof.
  induction cs as [ | c cs IH]; intros acc; simpl.
  - apply Total_ret.
  - apply Total_bind; auto. unfold portraitFor.
    apply (Total_tryCatch ai); [ effect | intros; apply Total_ret ].
Qed.

Lemma Total_comparablesLoop ai ps ts :
  forall acc, Total (comparablesLoop ai ps ts acc).
Proof.
  induction ts as [ | t ts IH]; intros acc; simpl.
  - apply Total_ret.
  - apply Total_bind; auto. unfold comparableFor.
    apply Total_bind.
    + apply (Total_tryCatch ai); [ effect | intros; apply Total_ret ].
    + intros img. apply Total_bind; [ | intros; apply Total_ret ].
      destruct (negb (Js.truthy img)); [ | apply Total_ret ].
      apply (Total_tryCatch ai); [ effect | intros; apply Total_ret ].
Qed.

(** Every sub-asset failure is caught inside: the visuals step itself
    always resolves. *)
Lemma Total_generateAllVisuals ai d o : Total (generateAllVisuals ai d o).
Proof.
  Local Transparent generateAllVisuals.
  unfold generateAllVisuals.
  Local Opaque generateAllVisuals.
  apply Total_bind; [ apply Total_tell | intros _ ].
  apply Total_bind; [ | intros v1 ].
  { destruct (concept o); [ | apply Total_ret ].
    apply (Total_tryCatch ai); [ effect | intros; apply Total_ret ]. }
  apply Total_bind; [ | intros v2 ].
  { destruct (poster o); [ | apply Total_ret ].
    apply (Total_tryCatch ai); [ effect | intros; apply Total_ret ]. }
  apply Total_bind; [ | intros v3 ].
  { destruct (characters o); auto using Total_portraitsLoop, Total_ret. }
  apply Total_bind; [ | intros v4 ].
  { destruct (poster o || concept o || characters o);
      auto using Total_comparablesLoop, Total_ret. }
  apply Total_bind; [ | intros v5; apply Total_ret ].
  destruct (concept o); [ | apply Total_ret ].
  apply (Total_tryCatch ai); [ effect | intros; apply Total_ret ].
Qed.

Lemma visualsBlock_step ai o p a l stage2 :
  needVisualsOf o = true ->
  stage2Result p = Some stage2 ->
  Step ai ANALYZING_STAGE_2_VISUALS [OpStage2Visuals] []
       (fun p' => exists options visuals,
            o = Some options /\
            fst (generateAllVisuals ai stage2 options
                   (mkSt (setStatus' ANALYZING_STAGE_2_VISUALS a) l))
              = Normal visuals /\
            p' = withStage2 p (mergeVisuals stage2 visuals)) a l
       (visualsBlock ai o p (mkSt a l)).
Proof.
  intros Hneed Hs2. unfold visualsBlock. rewrite Hneed, Hs2.
  destruct o as [options | ]; [ | discriminate ].
  unfold bind, checkStop, getApp, bind. simpl.
  destruct (shouldStop a) eqn:Hstop; simpl.
  - now apply StepPaused.
  - unfold tryCatch, bind.
    destruct (Total_generateAllVisuals ai stage2 options
                (mkSt (setStatus' ANALYZING_STAGE_2_VISUALS a) l))
      as (visuals & Hv).
    destruct (Effect_generateAllVisuals ai stage2 options l)
      as (c & pressed & evs & Hinv & Hc & Hpressed & Hrun).
    rewrite Hrun in Hv |- *. simpl in Hv. subst c. simpl.
    apply StepDone; auto.
    exists options, visuals. rewrite Hrun. auto.
Qed.

Lemma stage3Block_skip ai s p st :
  stage3Result p <> None -> stage3Block ai s p st = (Normal p, st).
Proof. unfold stage3Block. destruct (stage3Result p); [ reflexivity | congruence ]. Qed.

Lemma stage3Block_step ai s p a l :
  stage3Result p = None ->
  Step ai ANALYZING_STAGE_3 [OpStage3; OpExtractScenes]
       [[OpStage3]; [OpStage3; OpExtractScenes]]
       (fun p' => exists r scenes, p' = withStage3 p r scenes) a l
       (stage3Block ai s p (mkSt a l)).
Proof.
  intros Hnull. unfold stage3Block. rewrite Hnull. simpl.
  unfold bind, checkStop, getApp, bind. simpl.
  destruct (shouldStop a) eqn:Hstop; simpl.
  - now apply StepPaused.
  - unfold tryCatch, bind.
    run_service (Effect_analyzeStage3 ai s l); simpl.
    + run_service (Effect_extractScenes ai s (l ++ evs)%list); simpl;
        rewrite stopApp_stopApp, <- app_assoc.
      * apply StepDone; eauto using pressed_orb.
        rewrite invoked_app, Hinv, Hinv0. reflexivity.
      * apply StepFailed; eauto using pressed_orb.
        rewrite invoked_app, Hinv, Hinv0. right. now left.
    + apply StepFailed; auto. rewrite Hinv. now left.
Qed.

(** ** The pipeline from a stage boundary on *)

Lemma stripImage_patchProfile portraits c :
  stripImage (patchProfile portraits c) = stripImage c.
Proof. unfold patchProfile. now destruct (find _ portraits). Qed.

Lemma stripVisuals_mergeVisuals d v :
  stripVisuals (mergeVisuals d v) = stripVisuals d.
Proof.
  unfold stripVisuals, mergeVisuals. simpl. f_equal.
  destruct (negb (isEmpty (v_character_portraits v))); auto.
  rewrite map_map. apply map_ext. intros c. apply stripImage_patchProfile.
Qed.

Lemma Keeps_refl p : Keeps p p.
Proof. unfold Keeps. intuition eauto. Qed.

Lemma Keeps_trans p q r : Keeps p q -> Keeps q r -> Keeps p r.
Proof.
  unfold Keeps.
  intros (N1 & S1 & A1 & B1 & C1) (N2 & S2 & A2 & B2 & C2).
  repeat split; try congruence.
  - destruct A1 as [E1 | [E1 F1]], A2 as [E2 | [E2 F2]];
      try (left; congruence); right; split; congruence.
  - intros d Hd. destruct (B1 d Hd) as (d1 & Hd1 & E1).
    destruct (B2 d1 Hd1) as (d2 & Hd2 & E2).
    exists d2. split; congruence.
  - destruct C1 as [[E1 G1] | (E1 & F1 & G1)], C2 as [[E2 G2] | (E2 & F2 & G2)];
      try (left; split; congruence); right; repeat split; congruence.
Qed.

Lemma Keeps_stage2 p p' :
  Keeps p p' -> stage2Result p <> None -> stage2Result p' <> None.
Proof.
  intros (_ & _ & _ & B & _) H.
  destruct (stage2Result p) as [d | ] eqn:E; [ | congruence ].
  destruct (B d eq_refl) as (d' & -> & _). discriminate.
Qed.

Lemma doneBy_Keeps p p' op : Keeps p p' -> doneBy p op -> doneBy p' op.
Proof.
  intros HK. pose proof (Keeps_stage2 _ _ HK) as B.
  destruct HK as (_ & _ & A & _ & C).
  destruct op; simpl; intros H; auto.
  - destruct A as [E | [E F]]; congruence.
  - destruct C as [[E _] | (E & F & _)]; congruence.
  - destruct C as [[E _] | (E & F & _)]; congruence.
Qed.

Lemma RunPost_end ai s o p a l :
  currentProject a = Some p ->
  RunPost ai AtEnd o p a l (from ai AtEnd s o p (mkSt a l)).
Proof.
  intros Hp. exists (Normal tt), [], (setStatus' COMPLETE a), p, [].
  simpl. rewrite app_nil_r.
  splits; auto using Keeps_refl; try congruence.
  right. right. splits; auto.
Qed.

Lemma RunPost_skip ai K K' s o (block : M Project) p a l :
  from ai K s o p = bind block (fun p' => from ai K' s o p') ->
  block (mkSt a l) = (Normal p, mkSt a l) ->
  plan K o p = plan K' o p ->
  RunPost ai K' o p a l (from ai K' s o p (mkSt a l)) ->
  RunPost ai K o p a l (from ai K s o p (mkSt a l)).
Proof.
  intros Hfrom Hblock Hplan H. rewrite Hfrom. unfold bind. rewrite Hblock.
  unfold RunPost in *. now rewrite Hplan.
Qed.


Lemma RunPost_step ai K K' s o running ops failures Merged
    (block : M Project) p a l :
  from ai K s o p = bind block (fun p' => from ai K' s o p') ->
  plan K o p = (ops ++ plan K' o p)%list ->
  ops <> [] ->
  Step ai running ops failures Merged a l (block (mkSt a l)) ->
  (forall f, In f failures ->
     exists pre op rest,
       f = (pre ++ [op])%list /\ ops = (f ++ rest)%list /\ stageNull op p /\
       Forall (fun op' => op' <> OpStage3 -> doneBy p op') pre) ->
  (forall p', Merged p' ->
     Keeps p p' /\ plan K' o p' = plan K' o p /\ Forall (doneBy p') ops) ->
  (forall p' a1 l1, Merged p' -> currentProject a1 = Some p' ->
     RunPost ai K' o p' a1 l1 (from ai K' s o p' (mkSt a1 l1))) ->
  currentProject a = Some p ->
  RunPost ai K o p a l (from ai K s o p (mkSt a l)).
Proof.
  intros Hfrom Hplan Hops Hstep Hfail Hmerged Hnext Hp.
  rewrite Hfrom. unfold bind.
  inversion Hstep as [Hstop Hres | pressed evs e Hstop Hpr Hin Hres
                      | pressed evs p' Hstop Hpr Hinv Hm Hres].
  - (* paused at the boundary *)
    exists Returned, [], (setStatus' PAUSED a), p, (plan K o p).
    rewrite app_nil_r. simpl.
    assert (Hne : plan K o p <> []).
    { rewrite Hplan. destruct ops; [ congruence | discriminate ]. }
    splits; auto using Keeps_refl.
    + intros _. split; auto.
      destruct (plan K o p); [ congruence | reflexivity ].
    + congruence.
    + left. splits; auto.
  - (* halted by a failure *)
    destruct (Hfail _ Hin) as (pre & op & rest & Hf & Hopsf & Hnull & Hpre).
    exists Returned, evs,
      (failApp e (stopApp pressed (setStatus' running a))), p,
      (rest ++ plan K' o p)%list.
    assert (Hflag : shouldStop
                      (failApp e (stopApp pressed (setStatus' running a)))
                    = pressed).
    { simpl. destruct pressed; simpl; auto. }
    splits; auto using Keeps_refl.
    + rewrite Hplan, Hopsf, <- app_assoc. reflexivity.
    + destruct pressed; simpl; auto.
    + destruct pressed; reflexivity.
    + destruct pressed; reflexivity.
    + congruence.
    + intros _ _. rewrite Hf. destruct pre; discriminate.
    + rewrite Hflag. intros E. right. auto.
    + right. left. splits; auto.
      exists pre, op. rewrite Hf. auto.
  - (* done: the rest of the pipeline follows *)
    destruct (Hmerged _ Hm) as (Hk & Hplan' & Hdone).
    set (a1 := setCurrentProject' (Some p')
                 (stopApp pressed (setStatus' running a))) in *.
    assert (Hp1 : currentProject a1 = Some p') by reflexivity.
    destruct (Hnext p' a1 (l ++ evs)%list Hm Hp1)
      as (c & evs2 & a2 & p2 & rest & Hres2 & Hplan2 & Hp2 & Hk2 & Hs2 & Hv2
          & Hset & Hstart & Hflag & Hend).
    rewrite Hres2.
    exists c, (evs ++ evs2)%list, a2, p2, rest.
    assert (Hstop1 : shouldStop a1 = pressed).
    { unfold a1. simpl. destruct pressed; simpl; auto. }
    splits.
    + now rewrite app_assoc.
    + rewrite invoked_app, Hplan, <- Hplan', Hplan2, Hinv, <- app_assoc.
      reflexivity.
    + exact Hp2.
    + eauto using Keeps_trans.
    + rewrite Hs2. unfold a1. destruct pressed; reflexivity.
    + rewrite Hv2. unfold a1. destruct pressed; reflexivity.
    + congruence.
    + intros _ _. rewrite invoked_app, Hinv.
      destruct ops; [ congruence | discriminate ].
    + intros E. right. destruct (Hflag E) as [E1 | ]; auto.
      apply Hpr. congruence.
    + destruct Hend as [(-> & E1 & E2 & E3) | [(-> & E1 & pre & op & E2 & E3 & E4)
                                              | (-> & E1 & E2 & E3)]].
      * left. auto.
      * right. left. repeat split; auto.
        exists (ops ++ pre)%list, op. repeat split; auto.
        -- rewrite invoked_app, Hinv, E2, app_assoc. reflexivity.
        -- apply Forall_app. split; auto.
           eapply Forall_impl; [ | exact Hdone ].
           intros op' Hd _. eauto using doneBy_Keeps.
      * right. right. repeat split; auto.
        rewrite invoked_app, Hinv. apply Forall_app. split; auto.
        eapply Forall_impl; [ | exact Hdone ].
        intros op' Hd. eauto using doneBy_Keeps.
Qed.

Lemma Keeps_withStage1 p r : stage1Result p = None -> Keeps p (withStage1 p r).
Proof. intros H. unfold Keeps. simpl. intuition (eauto; congruence). Qed.

Lemma Keeps_withStage2 p r : stage2Result p = None -> Keeps p (withStage2 p r).
Proof. intros H. unfold Keeps. simpl. intuition (eauto; congruence). Qed.

Lemma Keeps_mergeVisuals p d v :
  stage2Result p = Some d -> Keeps p (withStage2 p (mergeVisuals d v)).
Proof.
  intros H. unfold Keeps. simpl. repeat split; auto.
  intros d0 Hd0. exists (mergeVisuals d v). split; auto.
  rewrite stripVisuals_mergeVisuals. congruence.
Qed.

Lemma Keeps_withStage3 p r scenes :
  stage3Result p = None -> Keeps p (withStage3 p r scenes).
Proof.
  intros H. unfold Keeps. simpl. repeat split; eauto.
  right. repeat split; auto; discriminate.
Qed.

Lemma RunPost_stage3 ai s o p a l :
  currentProject a = Some p ->
  RunPost ai AtStage3 o p a l (from ai AtStage3 s o p (mkSt a l)).
Proof.
  intros Hp. destruct (stage3Result p) as [r3 | ] eqn:H3.
  - eapply (RunPost_skip ai AtStage3 AtEnd s o (stage3Block ai s p)).
    + reflexivity.
    + apply stage3Block_skip. congruence.
    + simpl. unfold plan3. now rewrite H3.
    + now apply RunPost_end.
  - apply (RunPost_step ai AtStage3 AtEnd s o ANALYZING_STAGE_3
             [OpStage3; OpExtractScenes]
             [[OpStage3]; [OpStage3; OpExtractScenes]]
             (fun p' => exists r scenes, p' = withStage3 p r scenes)
             (stage3Block ai s p));
      [ reflexivity | | discriminate | | | | | exact Hp ].
    + simpl. unfold plan3. rewrite H3. reflexivity.
    + now apply stage3Block_step.
    + intros f [<- | [<- | []]].
      * exists [], OpStage3, [OpExtractScenes]. repeat split; auto.
      * exists [OpStage3], OpExtractScenes, []. repeat split; auto.
        constructor; [ congruence | constructor ].
    + intros p' (r & scenes & ->). splits.
      * now apply Keeps_withStage3.
      * reflexivity.
      * repeat constructor; simpl; discriminate.
    + intros p' a1 l1 _ Hp1. now apply RunPost_end.
Qed.

Lemma RunPost_visuals ai s o p a l :
  currentProject a = Some p ->
  stage2Result p <> None ->
  RunPost ai AtVisuals o p a l (from ai AtVisuals s o p (mkSt a l)).
Proof.
  intros Hp H2. destruct (needVisualsOf o) eqn:Hneed.
  - destruct (stage2Result p) as [stage2 | ] eqn:Hs2; [ | congruence ].
    apply (RunPost_step ai AtVisuals AtStage3 s o ANALYZING_STAGE_2_VISUALS
             [OpStage2Visuals] []
             (fun p' => exists options visuals,
                  o = Some options /\
                  fst (generateAllVisuals ai stage2 options
                         (mkSt (setStatus' ANALYZING_STAGE_2_VISUALS a) l))
                    = Normal visuals /\
                  p' = withStage2 p (mergeVisuals stage2 visuals))
             (visualsBlock ai o p));
      [ reflexivity | | discriminate | | | | | exact Hp ].
    + simpl. unfold planV. rewrite Hneed. reflexivity.
    + now apply visualsBlock_step.
    + intros f [].
    + intros p' (options & visuals & _ & _ & ->). splits.
      * now apply Keeps_mergeVisuals.
      * reflexivity.
      * repeat constructor; simpl; discriminate.
    + intros p' a1 l1 _ Hp1. now apply RunPost_stage3.
  - eapply (RunPost_skip ai AtVisuals AtStage3 s o (visualsBlock ai o p)).
    + reflexivity.
    + now apply visualsBlock_skip.
    + simpl. unfold planV. now rewrite Hneed.
    + now apply RunPost_stage3.
Qed.

Lemma RunPost_stage2 ai s o p a l :
  currentProject a = Some p ->
  RunPost ai AtStage2 o p a l (from ai AtStage2 s o p (mkSt a l)).
Proof.
  intros Hp. destruct (stage2Result p) as [r2 | ] eqn:H2.
  - eapply (RunPost_skip ai AtStage2 AtVisuals s o (stage2Block ai s p)).
    + reflexivity.
    + apply stage2Block_skip. congruence.
    + simpl. unfold plan2. now rewrite H2.
    + apply RunPost_visuals; congruence.
  - apply (RunPost_step ai AtStage2 AtVisuals s o ANALYZING_STAGE_2
             [OpStage2] [[OpStage2]]
             (fun p' => exists r, p' = withStage2 p r)
             (stage2Block ai s p));
      [ reflexivity | | discriminate | | | | | exact Hp ].
    + simpl. unfold plan2. rewrite H2. reflexivity.
    + now apply stage2Block_step.
    + intros f [<- | []].
      exists [], OpStage2, []. repeat split; auto.
    + intros p' (r & ->). splits.
      * now apply Keeps_withStage2.
      * reflexivity.
      * repeat constructor; simpl; discriminate.
    + intros p' a1 l1 (r & ->) Hp1. apply RunPost_visuals; auto.
      simpl. discriminate.
Qed.

Lemma RunPost_stage1 ai s o p a l :
  currentProject a = Some p ->
  RunPost ai AtStage1 o p a l (from ai AtStage1 s o p (mkSt a l)).
Proof.
  intros Hp. destruct (stage1Result p) as [r1 | ] eqn:H1.
  - eapply (RunPost_skip ai AtStage1 AtStage2 s o (stage1Block ai s p)).
    + reflexivity.
    + apply stage1Block_skip. congruence.
    + simpl. unfold plan1. now rewrite H1.
    + now apply RunPost_stage2.
  - apply (RunPost_step ai AtStage1 AtStage2 s o ANALYZING_STAGE_1
             [OpStage1] [[OpStage1]]
             (fun p' => exists r, p' = withStage1 p r)
             (stage1Block ai s p));
      [ reflexivity | | discriminate | | | | | exact Hp ].
    + simpl. unfold plan1. rewrite H1. reflexivity.
    + now apply stage1Block_step.
    + intros f [<- | []].
      exists [], OpStage1, []. repeat split; auto.
    + intros p' (r & ->). splits.
      * now apply Keeps_withStage1.
      * reflexivity.
      * repeat constructor; simpl; discriminate.
    + intros p' a1 l1 _ Hp1. now apply RunPost_stage2.
Qed.

Lemma RunPost_from ai K s o p a l :
  currentProject a = Some p ->
  ready K p ->
  RunPost ai K o p a l (from ai K s o p (mkSt a l)).
Proof.
  intros Hp Hr.
  destruct K; auto using RunPost_stage1, RunPost_stage2, RunPost_visuals,
    RunPost_stage3, RunPost_end.
Qed.

(** ** A whole run *)

Lemma executeAnalysis_unfold ai o isResuming a l :
  Js.blank (scriptToAnalyze a) = false ->
  executeAnalysis ai o isResuming (mkSt a l) =
  function (from ai AtStage1 (scriptToAnalyze a) o (startProject isResuming a))
           (mkSt (startApp o isResuming a) l).
Proof.
  intros Hb. unfold executeAnalysis, function, startApp, startProject.
  destruct a as [st er cp sc vo ss mo]. simpl in Hb.
  destruct isResuming; [ destruct cp as [p | ] | ];
    unfold bind, modifyApp, getApp, when, setError, setCurrentProject, ret;
    simpl; rewrite Hb; reflexivity.
Qed.

Lemma executeAnalysis_blank ai o isResuming a l :
  Js.blank (scriptToAnalyze a) = true ->
  executeAnalysis ai o isResuming (mkSt a l) =
  (Normal tt,
   mkSt (if isResuming then setIsVisualsModalOpen' false a
         else setVisualOptions' o
                (setShouldStop' false (setIsVisualsModalOpen' false a))) l).
Proof.
  intros Hb. unfold executeAnalysis, function.
  destruct a as [st er cp sc vo ss mo]. simpl in Hb.
  destruct isResuming;
    unfold bind, modifyApp, getApp, when, ret; simpl; rewrite Hb; reflexivity.
Qed.


(** List facts used to read a plan. *)
Lemma prefix_head {A} (x y : A) (xs ys zs : list A) :
  (x :: xs = (y :: ys) ++ zs)%list -> x = y.
Proof. simpl. congruence. Qed.





(** A run from the first boundary, seen from outside. *)
Lemma executeAnalysis_post ai o isResuming a l :
  Js.blank (scriptToAnalyze a) = false ->
  exists c evs a' p' rest,
    executeAnalysis ai o isResuming (mkSt a l)
      = (Normal tt, mkSt a' (l ++ evs)%list) /\
    plan1 o (startProject isResuming a) = (invoked evs ++ rest)%list /\
    currentProject a' = Some p' /\
    Keeps (startProject isResuming a) p' /\
    (shouldStop (startApp o isResuming a) = false ->
     plan1 o (startProject isResuming a) <> [] -> invoked evs <> []) /\
    (shouldStop a' = true ->
     shouldStop (startApp o isResuming a) = true \/ pressable ai) /\
    Ending c evs a' p' rest.
Proof.
  intros Hb. rewrite (executeAnalysis_unfold ai o isResuming a l Hb).
  destruct (RunPost_from ai AtStage1 (scriptToAnalyze a) o
              (startProject isResuming a) (startApp o isResuming a) l
              eq_refl I)
    as (c & evs & a' & p' & rest & Hres & Hplan & Hp & Hk & _ & _ & _
        & Hstart & Hflag & Hend).
  exists c, evs, a', p', rest. splits; auto.
  unfold function. rewrite Hres.
  destruct Hend as [(-> & _) | [(-> & _) | (-> & _)]]; reflexivity.
Qed.

Lemma prefix_starts {A} (x : A) (xs pre rest : list A) :
  (x :: xs = pre ++ rest)%list -> pre <> [] -> exists t, pre = x :: t.
Proof.
  destruct pre as [ | y t]; [ congruence | ].
  simpl. intros E _. exists t. congruence.
Qed.


(** ** C4: the stage-3 pair *)




(** ** C5: stopping is cooperative *)





(** ** C6: a failure halts the run and rolls nothing back *)

(** The rest of the pipeline after a failed step is [handleError] and
    nothing else. *)
Lemma fromStage1_failure ai s o p a l e st1 :
  stage1Result p = None -> shouldStop a = false ->
  analyzeStage1 ai s (mkSt (setStatus' ANALYZING_STAGE_1 a) l) = (Thrown e, st1) ->
  fromStage1 ai s o p (mkSt a l) = (Returned, mkSt (failApp e (app st1)) (log st1)) /\
  currentProject (app st1) = currentProject a.
Proof.
  intros Hnull Hstop Hrun.
  destruct (Effect_analyzeStage1 ai s l) as (c & b & evs & _ & _ & _ & Heff).
  pose proof (Heff (setStatus' ANALYZING_STAGE_1 a)) as H.
  rewrite Hrun in H. injection H as <- ->. split; [ | now destruct b ].
  unfold fromStage1, stage1Block. rewrite Hnull. simpl.
  unfold bind, checkStop, getApp, bind, tryCatch. simpl. rewrite Hstop. simpl.
  unfold bind. rewrite Hrun. reflexivity.
Qed.

Lemma fromStage2_failure ai s o p a l e st1 :
  stage2Result p = None -> shouldStop a = false ->
  analyzeStage2 ai s (loglineOf p) (synopsisOf p)
    (mkSt (setStatus' ANALYZING_STAGE_2 a) l) = (Thrown e, st1) ->
  fromStage2 ai s o p (mkSt a l) = (Returned, mkSt (failApp e (app st1)) (log st1)) /\
  currentProject (app st1) = currentProject a.
Proof.
  intros Hnull Hstop Hrun.
  destruct (Effect_analyzeStage2 ai s (loglineOf p) (synopsisOf p) l)
    as (c & b & evs & _ & _ & _ & Heff).
  pose proof (Heff (setStatus' ANALYZING_STAGE_2 a)) as H.
  rewrite Hrun in H. injection H as <- ->. split; [ | now destruct b ].
  unfold fromStage2, stage2Block. rewrite Hnull. simpl.
  unfold bind, checkStop, getApp, bind, tryCatch. simpl. rewrite Hstop. simpl.
  unfold bind. rewrite Hrun. reflexivity.
Qed.

Lemma fromStage3_failure ai s p a l :
  stage3Result p = None -> shouldStop a = false ->
  (forall e st1,
     analyzeStage3 ai s (mkSt (setStatus' ANALYZING_STAGE_3 a) l)
       = (Thrown e, st1) ->
     fromStage3 ai s p (mkSt a l)
       = (Returned, mkSt (failApp e (app st1)) (log st1)) /\
     currentProject (app st1) = currentProject a) /\
  (forall r3 st1 e st2,
     analyzeStage3 ai s (mkSt (setStatus' ANALYZING_STAGE_3 a) l)
       = (Normal r3, st1) ->
     extractScenes ai s st1 = (Thrown e, st2) ->
     fromStage3 ai s p (mkSt a l)
       = (Returned, mkSt (failApp e (app st2)) (log st2)) /\
     currentProject (app st2) = currentProject a).
Proof.
  intros Hnull Hstop.
  destruct (Effect_analyzeStage3 ai s l) as (c & b & evs & _ & _ & _ & Heff).
  pose proof (Heff (setStatus' ANALYZING_STAGE_3 a)) as H.
  assert (Hunf :
    fromStage3 ai s p (mkSt a l) =
    bind (tryCatch
            (result3 <- analyzeStage3 ai s ;;
             fullScenes <- extractScenes ai s ;;
             let activeProject := withStage3 p result3 fullScenes in
             setCurrentProject activeProject ;; ret activeProject)
            (fun err => handleError err ;; return_))
         (fun _ => setStatus COMPLETE)
         (mkSt (setStatus' ANALYZING_STAGE_3 a) l)).
  { unfold fromStage3, stage3Block. rewrite Hnull. simpl.
    unfold bind at 1 2. unfold checkStop, bind at 1, getApp. simpl.
    rewrite Hstop. reflexivity. }
  split.
  - intros e st1 Hrun. rewrite Hrun in H. injection H as <- ->.
    split; [ | now destruct b ].
    rewrite Hunf. unfold bind, tryCatch. rewrite Hrun. reflexivity.
  - intros r3 st1 e st2 Hrun Hsc. rewrite Hrun in H. injection H as <- ->.
    destruct (Effect_extractScenes ai s (l ++ evs)%list)
      as (c2 & b2 & evs2 & _ & _ & _ & Heff2).
    rewrite Heff2 in Hsc. injection Hsc as -> <-.
    split; [ | now destruct b, b2 ].
    rewrite Hunf. unfold bind, tryCatch. rewrite Hrun, Heff2. reflexivity.
Qed.

(** C6.  When a stage call fails, what is left of the pipeline is
    [handleError] alone: nothing is logged after the failed call, the
    status is [ERROR] and the project is the one the step started from.
    For a whole run: it keeps every result the project started with; if
    it ends [ERROR], the last service function it entered works for a
    stage whose result is still null, and every stage entered before it
    (the breakdown half of a failed stage-3 pair apart) has its result in
    the project. *)
Theorem failure_halts_pipeline ai o isResuming a l :
  Js.blank (scriptToAnalyze a) = false ->
  (forall s p a0 l0 e st1,
     stage1Result p = None -> shouldStop a0 = false ->
     analyzeStage1 ai s (mkSt (setStatus' ANALYZING_STAGE_1 a0) l0)
       = (Thrown e, st1) ->
     fromStage1 ai s o p (mkSt a0 l0)
       = (Returned, mkSt (failApp e (app st1)) (log st1)) /\
     status (failApp e (app st1)) = ERROR /\
     currentProject (failApp e (app st1)) = currentProject a0) /\
  (forall s p a0 l0 e st1,
     stage2Result p = None -> shouldStop a0 = false ->
     analyzeStage2 ai s (loglineOf p) (synopsisOf p)
       (mkSt (setStatus' ANALYZING_STAGE_2 a0) l0) = (Thrown e, st1) ->
     fromStage2 ai s o p (mkSt a0 l0)
       = (Returned, mkSt (failApp e (app st1)) (log st1)) /\
     status (failApp e (app st1)) = ERROR /\
     currentProject (failApp e (app st1)) = currentProject a0) /\
  (forall s p a0 l0 e st1,
     stage3Result p = None -> shouldStop a0 = false ->
     analyzeStage3 ai s (mkSt (setStatus' ANALYZING_STAGE_3 a0) l0)
       = (Thrown e, st1) ->
     fromStage3 ai s p (mkSt a0 l0)
       = (Returned, mkSt (failApp e (app st1)) (log st1)) /\
     status (failApp e (app st1)) = ERROR /\
     currentProject (failApp e (app st1)) = currentProject a0) /\
  (forall s p a0 l0 r3 st1 e st2,
     stage3Result p = None -> shouldStop a0 = false ->
     analyzeStage3 ai s (mkSt (setStatus' ANALYZING_STAGE_3 a0) l0)
       = (Normal r3, st1) ->
     extractScenes ai s st1 = (Thrown e, st2) ->
     fromStage3 ai s p (mkSt a0 l0)
       = (Returned, mkSt (failApp e (app st2)) (log st2)) /\
     status (failApp e (app st2)) = ERROR /\
     currentProject (failApp e (app st2)) = currentProject a0) /\
  (exists evs a' p',
     executeAnalysis ai o isResuming (mkSt a l)
       = (Normal tt, mkSt a' (l ++ evs)%list) /\
     currentProject a' = Some p' /\
     Keeps (startProject isResuming a) p' /\
     (status a' = ERROR ->
      exists pre op,
        invoked evs = (pre ++ [op])%list /\ stageNull op p' /\
        Forall (fun op' => op' <> OpStage3 -> doneBy p' op') pre)).
Proof.
  intros Hb. splits.
  - intros s p a0 l0 e st1 Hn Hs Hrun.
    destruct (fromStage1_failure ai s o p a0 l0 e st1 Hn Hs Hrun) as [E1 E2].
    splits; auto.
  - intros s p a0 l0 e st1 Hn Hs Hrun.
    destruct (fromStage2_failure ai s o p a0 l0 e st1 Hn Hs Hrun) as [E1 E2].
    splits; auto.
  - intros s p a0 l0 e st1 Hn Hs Hrun.
    destruct (fromStage3_failure ai s p a0 l0 Hn Hs) as [H3 _].
    destruct (H3 e st1 Hrun) as [E1 E2]. splits; auto.
  - intros s p a0 l0 r3 st1 e st2 Hn Hs Hrun Hsc.
    destruct (fromStage3_failure ai s p a0 l0 Hn Hs) as [_ H3].
    destruct (H3 r3 st1 e st2 Hrun Hsc) as [E1 E2]. splits; auto.
  - destruct (executeAnalysis_post ai o isResuming a l Hb)
      as (c & evs & a' & p' & rest & Hrun & Hplan & Hp' & Hk & _ & _ & Hend).
    exists evs, a', p'. splits; auto.
    intros Herr.
    destruct Hend as [(_ & E & _) | [(_ & _ & Hx) | (_ & E & _)]];
      [ congruence | exact Hx | congruence ].
Qed.

(** ** What the visuals step sends *)

Section LogsFacts.

Variable P : Event -> Prop.

Lemma Logs_ret {A} (x : A) : Logs P (ret x).
Proof. intros st. exists []. simpl. now rewrite app_nil_r. Qed.

Lemma Logs_throw {A} e : Logs P (@throw A e).
Proof. intros st. exists []. simpl. now rewrite app_nil_r. Qed.

Lemma Logs_tell e : P e -> Logs P (tell e).
Proof. intros He st. exists [e]. simpl. auto. Qed.

Lemma Logs_bind {A B} (m : M A) (k : A -> M B) :
  Logs P m -> (forall x, Logs P (k x)) -> Logs P (bind m k).
Proof.
  intros Hm Hk st. unfold bind.
  destruct (Hm st) as (evs & Hl & Hp).
  destruct (m st) as [[x | e | ] st1]; simpl in Hl; eauto.
  destruct (Hk x st1) as (evs' & Hl' & Hp').
  exists (evs ++ evs')%list. split.
  - rewrite Hl', Hl, app_assoc. reflexivity.
  - apply Forall_app. auto.
Qed.

Lemma Logs_tryCatch {A} (m : M A) (h : JsError -> M A) :
  Logs P m -> (forall e, Logs P (h e)) -> Logs P (tryCatch m h).
Proof.
  intros Hm Hh st. unfold tryCatch.
  destruct (Hm st) as (evs & Hl & Hp).
  destruct (m st) as [[x | e | ] st1]; simpl in Hl; eauto.
  destruct (Hh e st1) as (evs' & Hl' & Hp').
  exists (evs ++ evs')%list. split.
  - rewrite Hl', Hl, app_assoc. reflexivity.
  - apply Forall_app. auto.
Qed.

Lemma Logs_when b (m : M unit) : Logs P m -> Logs P (when b m).
Proof. destruct b; simpl; auto using Logs_ret. Qed.

Lemma Logs_request ai r : P (Send r) -> Logs P (request ai r).
Proof.
  intros Hr st. exists [Send r]. split; auto.
  unfold request. now destruct (outcome (ai (log st) r)).
Qed.

Lemma Logs_retryWithBackoff {T} (operation : M T) retries :
  P Attempt -> (forall ms, P (Slept ms)) -> Logs P operation ->
  forall delay factor,
    Logs P (retryWithBackoff operation retries delay factor).
Proof.
  intros Ha Hs Hop. induction retries as [ | n IH]; intros delay factor; simpl.
  - apply Logs_tryCatch.
    + apply Logs_bind; auto using Logs_tell.
    + intros e. apply Logs_throw.
  - apply Logs_tryCatch.
    + apply Logs_bind; auto using Logs_tell.
    + intros e. destruct (isRateLimit e || isServerOverload e).
      * apply Logs_bind; auto. apply Logs_tell. apply Hs.
      * apply Logs_throw.
Qed.

End LogsFacts.

Ltac logs :=
  repeat match goal with
  | |- Logs _ (retryDefault _) => unfold retryDefault
  | |- Logs _ (retryWithBackoff _ _ _ _) => apply Logs_retryWithBackoff
  | |- Logs _ (tryCatch _ _) => apply Logs_tryCatch
  | |- Logs _ (bind _ _) => apply Logs_bind
  | |- Logs _ (when _ _) => apply Logs_when
  | |- Logs _ (sleep _) => apply Logs_tell
  | |- Logs _ (tell _) => apply Logs_tell
  | |- Logs _ (request _ _) => apply Logs_request
  | |- Logs _ (ret _) => apply Logs_ret
  | |- Logs _ (throw _) => apply Logs_throw
  | |- Logs _ (if ?b then _ else _) => destruct b
  | |- forall _, _ => intro
  end.

Lemma Logs_portraitsLoop ai d o cs :
  incl cs (mainCharactersOf d) ->
  forall acc, Logs (portraitAllowed d) (portraitsLoop ai d o cs acc).
Proof.
  induction cs as [ | c cs IH]; intros Hincl acc; simpl.
  - apply Logs_ret.
  - apply Logs_bind.
    + unfold portraitFor. logs; simpl; auto.
      exists c. split; [ apply Hincl; now left | reflexivity ].
    + intros acc'. apply IH. intros x Hx. apply Hincl. now right.
Qed.

Lemma Logs_comparablesLoop ai d ps ts :
  forall acc, Logs (portraitAllowed d) (comparablesLoop ai ps ts acc).
Proof.
  induction ts as [ | t ts IH]; intros acc; simpl.
  - apply Logs_ret.
  - apply Logs_bind; auto. unfold comparableFor. logs; simpl; auto.
Qed.

Local Transparent generateAllVisuals.

Lemma Logs_generateAllVisuals ai d o :
  Logs (portraitAllowed d) (generateAllVisuals ai d o).
Proof.
  unfold generateAllVisuals.
  apply Logs_bind; [ now apply Logs_tell | intros _ ].
  apply Logs_bind; [ logs; simpl; auto | intros v1 ].
  apply Logs_bind; [ logs; simpl; auto | intros v2 ].
  apply Logs_bind; [ | intros v3 ].
  { destruct (characters o); [ | apply Logs_ret ].
    apply Logs_portraitsLoop. apply incl_refl. }
  apply Logs_bind; [ | intros v4 ].
  { destruct (poster o || concept o || characters o);
      auto using Logs_comparablesLoop, Logs_ret. }
  apply Logs_bind; [ logs; simpl; auto | intros v5 ].
  apply Logs_ret.
Qed.

Lemma In_firstn_In {A} n (l : list A) x : In x (firstn n l) -> In x l.
Proof.
  intros H. rewrite <- (firstn_skipn n l). apply in_or_app. now left.
Qed.

(** ** C10: portraits only for the first two on-screen characters *)

(** C10.  Whatever the options and the backend, every portrait request
    the visuals step sends is the one for a character among the first two
    profiles whose [screen_presence] is ['on-screen']: that character is
    on screen, there are at most two of them, and they are the first two
    on-screen profiles in the order of the pitch deck. *)
Theorem portraits_only_for_main_characters ai d o st :
  exists evs,
    log (snd (generateAllVisuals ai d o st)) = (log st ++ evs)%list /\
    (forall n ds g t v k ratio,
       In (GenerateImages (CharacterPrompt n ds g t v) k ratio) (sent evs) ->
       exists character,
         In character (mainCharactersOf d) /\
         screen_presence character = "on-screen" /\
         n = name character /\ ds = description character) /\
    (List.length (mainCharactersOf d) <= 2)%nat /\
    mainCharactersOf d =
      firstn 2 (filter (fun c => String.eqb (screen_presence c) "on-screen")
                       (character_profiles d)).
Proof.
  destruct (Logs_generateAllVisuals ai d o st) as (evs & Hl & Hall).
  exists evs. splits; auto.
  - intros n ds g t v k ratio Hin.
    unfold sent in Hin. apply in_flat_map in Hin.
    destruct Hin as (e & He & Hr).
    rewrite Forall_forall in Hall. specialize (Hall e He).
    destruct e as [ | | r | ]; simpl in Hr; try contradiction.
    destruct Hr as [-> | []]. simpl in Hall.
    destruct Hall as (c & Hc & Heq). exists c. splits; auto.
    + unfold mainCharactersOf in Hc. apply In_firstn_In in Hc.
      apply filter_In in Hc. destruct Hc as [_ Hc].
      now apply String.eqb_eq in Hc.
    + unfold characterPrompt in Heq. congruence.
    + unfold characterPrompt in Heq. congruence.
  - unfold mainCharactersOf. apply firstn_le_length.
Qed.

(** ** C8: merging visuals is a field-level patch *)

Lemma Total_run {A} (m : M A) :
  Total m -> forall st, exists x st', m st = (Normal x, st').
Proof.
  intros H st. destruct (H st) as (x & Hx).
  destruct (m st) as [c st']. simpl in Hx. subst c. eauto.
Qed.

Lemma patchProfile_other portraits profile :
  (forall q, In q portraits -> portrait_name q <> name profile) ->
  patchProfile portraits profile = profile.
Proof.
  intros H. unfold patchProfile.
  destruct (find _ portraits) as [q | ] eqn:E; auto.
  apply find_some in E. destruct E as [Hin Hq].
  apply String.eqb_eq in Hq. now apply H in Hin.
Qed.

Lemma patchProfile_match portraits profile q :
  find (fun p => String.eqb (portrait_name p) (name profile)) portraits
    = Some q ->
  patchProfile portraits profile =
  mkCharacterProfile (name profile) (description profile)
    (screen_presence profile) (arc profile) (motivation profile)
    (Some (portrait_image_base64 q)).
Proof. intros E. unfold patchProfile. now rewrite E. Qed.

Lemma mergeVisuals_profiles d v :
  character_profiles (mergeVisuals d v) =
  map (patchProfile (v_character_portraits v)) (character_profiles d).
Proof.
  unfold mergeVisuals. simpl.
  destruct (v_character_portraits v); simpl; auto.
  symmetry. rewrite <- (map_id (character_profiles d)) at 2.
  apply map_ext. intros c. reflexivity.
Qed.

(** What the visuals step resolves to, part by part. *)
Lemma generateAllVisuals_parts ai d o st :
  exists v st',
    generateAllVisuals ai d o st = (Normal v, st') /\
    (concept o = false ->
     v_concept_art_base64 v = "" /\ v_visual_style_images_base64 v = []) /\
    (poster o = false -> v_movie_poster_base64 v = "") /\
    (characters o = false -> v_character_portraits v = []) /\
    (characters o = true ->
     exists st1 st2,
       portraitsLoop ai d o (mainCharactersOf d) [] st1
         = (Normal (v_character_portraits v), st2)).
Proof.
  unfold generateAllVisuals.
  unfold bind at 1. unfold tell at 1.
  set (st0 := mkSt (app st) (log st ++ [Invoke OpStage2Visuals])%list).
  match goal with
  | |- context [bind ?m ?k st0] =>
      assert (H1 : Total m) by
        (destruct (concept o);
         [ apply (Total_tryCatch ai); [ effect | intros; apply Total_ret ]
         | apply Total_ret ]);
      destruct (Total_run m H1 st0) as (v1 & st1 & E1);
      assert (C1 : concept o = false -> v1 = "") by
        (intros Hc; rewrite Hc in E1; now inversion E1);
      unfold bind at 1; rewrite E1
  end.
  match goal with
  | |- context [bind ?m ?k st1] =>
      assert (H2 : Total m) by
        (destruct (poster o);
         [ apply (Total_tryCatch ai); [ effect | intros; apply Total_ret ]
         | apply Total_ret ]);
      destruct (Total_run m H2 st1) as (v2 & st2 & E2);
      assert (C2 : poster o = false -> v2 = "") by
        (intros Hc; rewrite Hc in E2; now inversion E2);
      unfold bind at 1; rewrite E2
  end.
  match goal with
  | |- context [bind ?m ?k st2] =>
      assert (H3 : Total m) by
        (destruct (characters o);
         auto using Total_portraitsLoop, Total_ret);
      destruct (Total_run m H3 st2) as (v3 & st3 & E3);
      assert (C3 : characters o = false -> v3 = []) by
        (intros Hc; rewrite Hc in E3; now inversion E3);
      assert (D3 : characters o = true ->
                   portraitsLoop ai d o (mainCharactersOf d) [] st2
                   = (Normal v3, st3)) by
        (intros Hc; rewrite Hc in E3; exact E3);
      unfold bind at 1; rewrite E3
  end.
  match goal with
  | |- context [bind ?m ?k st3] =>
      assert (H4 : Total m) by
        (destruct (poster o || concept o || characters o);
         auto using Total_comparablesLoop, Total_ret);
      destruct (Total_run m H4 st3) as (v4 & st4 & E4);
      unfold bind at 1; rewrite E4
  end.
  match goal with
  | |- context [bind ?m ?k st4] =>
      assert (H5 : Total m) by
        (destruct (concept o);
         [ apply (Total_tryCatch ai); [ effect | intros; apply Total_ret ]
         | apply Total_ret ]);
      destruct (Total_run m H5 st4) as (v5 & st5 & E5);
      assert (C5 : concept o = false -> v5 = []) by
        (intros Hc; rewrite Hc in E5; now inversion E5);
      unfold bind at 1; rewrite E5
  end.
  exists (mkVisuals v1 v2 v3 v4 v5), st5. simpl. splits; eauto.
Qed.

(** C8.  Merging the visuals onto the pitch deck patches fields: the
    concept art and the poster are overwritten only by a non-empty value;
    each profile keeps everything but its image, is left as it is when no
    returned portrait bears its name, and takes the image of the first
    returned portrait that does; the two arrays are replaced only by a
    non-empty array; nothing else of the pitch deck changes.  With only
    the poster requested, the concept art and every profile are left as
    they were. *)
Theorem visual_merge_is_field_patch d v :
  concept_art_base64 (mergeVisuals d v) =
    (if Js.truthy (v_concept_art_base64 v)
     then Some (v_concept_art_base64 v) else concept_art_base64 d) /\
  movie_poster_base64 (mergeVisuals d v) =
    (if Js.truthy (v_movie_poster_base64 v)
     then Some (v_movie_poster_base64 v) else movie_poster_base64 d) /\
  character_profiles (mergeVisuals d v) =
    map (patchProfile (v_character_portraits v)) (character_profiles d) /\
  (forall profile,
     stripImage (patchProfile (v_character_portraits v) profile)
       = stripImage profile /\
     ((forall q, In q (v_character_portraits v) ->
                 portrait_name q <> name profile) ->
      patchProfile (v_character_portraits v) profile = profile) /\
     (forall q,
        find (fun p => String.eqb (portrait_name p) (name profile))
             (v_character_portraits v) = Some q ->
        portrait_name q = name profile /\
        image_base64 (patchProfile (v_character_portraits v) profile)
          = Some (portrait_image_base64 q))) /\
  comparable_titles_visuals (mergeVisuals d v) =
    (match v_comparable_titles_visuals v with
     | [] => comparable_titles_visuals d
     | _ => Some (v_comparable_titles_visuals v)
     end) /\
  visual_style_images_base64 (mergeVisuals d v) =
    (match v_visual_style_images_base64 v with
     | [] => visual_style_images_base64 d
     | _ => Some (v_visual_style_images_base64 v)
     end) /\
  stripVisuals (mergeVisuals d v) = stripVisuals d /\
  (forall ai o st,
     concept o = false -> characters o = false ->
     exists visuals st',
       generateAllVisuals ai d o st = (Normal visuals, st') /\
       concept_art_base64 (mergeVisuals d visuals) = concept_art_base64 d /\
       character_profiles (mergeVisuals d visuals) = character_profiles d).
Proof.
  splits; try reflexivity.
  - apply mergeVisuals_profiles.
  - intros profile. splits.
    + apply stripImage_patchProfile.
    + apply patchProfile_other.
    + intros q E. split.
      * apply find_some in E. destruct E as [_ E]. now apply String.eqb_eq in E.
      * rewrite (patchProfile_match _ _ _ E). reflexivity.
  - unfold mergeVisuals. simpl. now destruct (v_comparable_titles_visuals v).
  - unfold mergeVisuals. simpl. now destruct (v_visual_style_images_base64 v).
  - apply stripVisuals_mergeVisuals.
  - intros ai o st Hc Hch.
    destruct (generateAllVisuals_parts ai d o st)
      as (visuals & st' & Hrun & C1 & _ & C3 & _).
    exists visuals, st'. splits; auto.
    + unfold mergeVisuals. simpl. destruct (C1 Hc) as [-> _]. reflexivity.
    + unfold mergeVisuals. simpl. rewrite (C3 Hch). reflexivity.
Qed.

(** ** A failed portrait does not hold anything up *)

(** An operation that can only throw or resolve to [x] keeps doing so
    under the retry policy. *)
Lemma retryWithBackoff_stuck {T} (operation : M T) (x : T) :
  (forall s, ThrowsOr x (fst (operation s))) ->
  forall retries delay factor st,
    ThrowsOr x (fst (retryWithBackoff operation retries delay factor st)).
Proof.
  intros Hop. induction retries as [ | n IH]; intros delay factor st; simpl;
    unfold tryCatch, bind at 1, tell; simpl;
    pose proof (Hop (mkSt (app st) (log st ++ [Attempt])%list)) as Hs;
    destruct (operation (mkSt (app st) (log st ++ [Attempt])%list))
      as [[y | e' | ] st1]; simpl in *; auto.
  destruct (isRateLimit e' || isServerOverload e'); auto.
  unfold bind, sleep, tell. simpl. apply IH.
Qed.

Lemma portraitFor_fails (ai : Backend) d o c acc st :
  neverYields ai (portraitRequest d c) firstImage ->
  fst (portraitFor ai d o c acc st) = Normal acc.
Proof.
  intros Hfail. unfold portraitFor, tryCatch, bind at 1.
  destruct (when _ (sleep 4000) st) as [[[] | e | ] st1] eqn:Ew;
    try (unfold when, sleep, tell, ret in Ew;
         destruct (negb (isEmpty acc) || poster o || concept o); discriminate).
  match goal with
  | |- context [retryDefault ?op st1] =>
      destruct (retryWithBackoff_stuck op acc) with
        (retries := 4%nat) (delay := 2000) (factor := 2) (st := st1)
        as [[e He] | Hx]
  end.
  - intros s. unfold bind, request.
    specialize (Hfail (log s)). fold (portraitRequest d c).
    destruct (outcome (ai (log s) (portraitRequest d c))) as [e | resp]; simpl.
    + left. eauto.
    + right. simpl in Hfail. now rewrite Hfail.
  - unfold retryDefault. destruct (retryWithBackoff _ _ _ _ _) as [c0 st2].
    simpl in He. subst c0. reflexivity.
  - unfold retryDefault. destruct (retryWithBackoff _ _ _ _ _) as [c0 st2].
    simpl in Hx. subst c0. reflexivity.
Qed.

Lemma portraitFor_succeeds (ai : Backend) d o c acc img st :
  Js.truthy img = true ->
  (forall l, exists more,
     outcome (ai l (portraitRequest d c)) = inr (img :: more)) ->
  fst (portraitFor ai d o c acc st)
    = Normal (acc ++ [mkPortrait (name c) img])%list.
Proof.
  intros Himg Hok. unfold portraitFor, tryCatch, bind at 1.
  destruct (when _ (sleep 4000) st) as [[[] | e | ] st1] eqn:Ew;
    try (unfold when, sleep, tell, ret in Ew;
         destruct (negb (isEmpty acc) || poster o || concept o); discriminate).
  unfold retryDefault. rewrite retryWithBackoff_first.
  - unfold bind, request. fold (portraitRequest d c).
    destruct (Hok (log (attempted st1))) as (more & ->). simpl.
    now rewrite Himg.
  - unfold bind, request. fold (portraitRequest d c).
    destruct (Hok (log (attempted st1))) as (more & ->). simpl.
    intros (e & He & _). discriminate.
Qed.

Lemma portraitsLoop_one_of_two (ai : Backend) d o ok failing img cs st :
  cs = [ok; failing] \/ cs = [failing; ok] ->
  Js.truthy img = true ->
  (forall l, exists more,
     outcome (ai l (portraitRequest d ok)) = inr (img :: more)) ->
  neverYields ai (portraitRequest d failing) firstImage ->
  fst (portraitsLoop ai d o cs [] st) = Normal [mkPortrait (name ok) img].
Proof.
  intros Hcs Himg Hok Hfail.
  destruct Hcs as [-> | ->]; simpl; unfold bind.
  - pose proof (portraitFor_succeeds ai d o ok [] img st Himg Hok) as H1.
    destruct (portraitFor ai d o ok [] st) as [c1 st1]. simpl in H1. subst c1.
    pose proof (portraitFor_fails ai d o failing
                  ([] ++ [mkPortrait (name ok) img])%list st1 Hfail) as H2.
    destruct (portraitFor ai d o failing _ st1) as [c2 st2].
    simpl in H2. subst c2. reflexivity.
  - pose proof (portraitFor_fails ai d o failing [] st Hfail) as H1.
    destruct (portraitFor ai d o failing [] st) as [c1 st1].
    simpl in H1. subst c1.
    pose proof (portraitFor_succeeds ai d o ok [] img st1 Himg Hok) as H2.
    destruct (portraitFor ai d o ok [] st1) as [c2 st2].
    simpl in H2. subst c2. reflexivity.
Qed.

Lemma Sends_request ai r : Sends r (request ai r).
Proof.
  intros st. exists [Send r]. split; [ | now left ].
  unfold request. now destruct (outcome (ai (log st) r)).
Qed.

Lemma Sends_bind_l {A B} r (m : M A) (k : A -> M B) :
  Sends r m -> (forall x, Logs anyEvent (k x)) -> Sends r (bind m k).
Proof.
  intros Hm Hk st. unfold bind.
  destruct (Hm st) as (evs & Hl & Hin).
  destruct (m st) as [[x | e | ] st1]; simpl in Hl; eauto.
  destruct (Hk x st1) as (evs' & Hl' & _).
  exists (evs ++ evs')%list. split.
  - rewrite Hl', Hl, app_assoc. reflexivity.
  - apply in_or_app. now left.
Qed.

Lemma Sends_bind_r {A B} r (m : M A) (k : A -> M B) :
  Total m -> Logs anyEvent m -> (forall x, Sends r (k x)) -> Sends r (bind m k).
Proof.
  intros Ht Hm Hk st. unfold bind.
  destruct (Hm st) as (evs & Hl & _).
  destruct (Total_run m Ht st) as (x & st1 & E). rewrite E in *. simpl in Hl.
  destruct (Hk x st1) as (evs' & Hl' & Hin).
  exists (evs ++ evs')%list. split.
  - rewrite Hl', Hl, app_assoc. reflexivity.
  - apply in_or_app. now right.
Qed.

Lemma Sends_tryCatch {A} r (m : M A) (h : JsError -> M A) :
  Sends r m -> (forall e, Logs anyEvent (h e)) -> Sends r (tryCatch m h).
Proof.
  intros Hm Hh st. unfold tryCatch.
  destruct (Hm st) as (evs & Hl & Hin).
  destruct (m st) as [[x | e | ] st1]; simpl in Hl; eauto.
  destruct (Hh e st1) as (evs' & Hl' & _).
  exists (evs ++ evs')%list. split.
  - rewrite Hl', Hl, app_assoc. reflexivity.
  - apply in_or_app. now left.
Qed.

Ltac grows :=
  logs; try exact I; auto using Logs_ret.

Lemma Sends_retryWithBackoff {T} r (operation : M T) :
  Sends r operation -> Logs anyEvent operation ->
  forall retries delay factor,
    Sends r (retryWithBackoff operation retries delay factor).
Proof.
  intros Hs Hl retries delay factor.
  assert (Hfirst : Sends r (tell Attempt ;; operation)).
  { apply Sends_bind_r; auto using Total_tell. now apply Logs_tell. }
  destruct retries as [ | n]; simpl; apply Sends_tryCatch; auto.
  - intros e. apply Logs_throw.
  - intros e. destruct (isRateLimit e || isServerOverload e).
    + apply Logs_bind; [ now apply Logs_tell | intros _ ].
      apply Logs_retryWithBackoff; auto.
      * exact I.
      * intros ms. exact I.
    + apply Logs_throw.
Qed.

Lemma Sends_retryDefault {T} r (operation : M T) :
  Sends r operation -> Logs anyEvent operation ->
  Sends r (retryDefault operation).
Proof. intros Hs Hl. now apply Sends_retryWithBackoff. Qed.

Lemma Total_when b (m : M unit) : Total m -> Total (when b m).
Proof. destruct b; simpl; auto using Total_ret. Qed.

Lemma Total_comparableFor ai ps t acc : Total (comparableFor ai ps t acc).
Proof.
  unfold comparableFor. apply Total_bind.
  - apply (Total_tryCatch ai); [ effect | intros; apply Total_ret ].
  - intros img. apply Total_bind; [ | intros; apply Total_ret ].
    destruct (negb (Js.truthy img)); [ | apply Total_ret ].
    apply (Total_tryCatch ai); [ effect | intros; apply Total_ret ].
Qed.

Lemma Grows_comparableFor ai ps t acc :
  Logs anyEvent (comparableFor ai ps t acc).
Proof. unfold comparableFor. grows. Qed.

Lemma Grows_comparablesLoop ai ps ts :
  forall acc, Logs anyEvent (comparablesLoop ai ps ts acc).
Proof.
  induction ts as [ | t ts IH]; intros acc; simpl.
  - apply Logs_ret.
  - apply Logs_bind; auto using Grows_comparableFor.
Qed.

Lemma Grows_portraitsLoop ai d o cs :
  forall acc, Logs anyEvent (portraitsLoop ai d o cs acc).
Proof.
  induction cs as [ | c cs IH]; intros acc; simpl.
  - apply Logs_ret.
  - apply Logs_bind; auto. unfold portraitFor. grows.
Qed.

Lemma Sends_comparableFor ai ps t acc :
  Sends (SearchPoster t) (comparableFor ai ps t acc).
Proof.
  unfold comparableFor. apply Sends_bind_l.
  - apply Sends_tryCatch; [ | intros; apply Logs_ret ].
    apply Sends_bind_r.
    + apply Total_when, Total_tell.
    + grows.
    + intros _. apply Sends_retryDefault.
      * apply Sends_bind_l; [ apply Sends_request | intros; apply Logs_ret ].
      * grows.
  - intros img. grows.
Qed.

Lemma Sends_comparablesLoop ai ps ts t :
  In t ts -> forall acc, Sends (SearchPoster t) (comparablesLoop ai ps ts acc).
Proof.
  induction ts as [ | t' ts IH]; intros Hin acc; simpl; [ contradiction | ].
  destruct Hin as [-> | Hin].
  - apply Sends_bind_l; auto using Sends_comparableFor, Grows_comparablesLoop.
  - apply Sends_bind_r;
      auto using Total_comparableFor, Grows_comparableFor.
Qed.

(** Whatever becomes of the other sub-assets, each of the first three
    comparable titles is searched for once any visual is requested. *)
Lemma Sends_generateAllVisuals ai d o t :
  poster o || concept o || characters o = true ->
  In t (firstn 3 (comparable_titles d)) ->
  Sends (SearchPoster t) (generateAllVisuals ai d o).
Proof.
  intros Hany Hin. unfold generateAllVisuals. rewrite Hany.
  apply Sends_bind_r; [ apply Total_tell | now apply Logs_tell | intros _ ].
  apply Sends_bind_r; [ | grows | intros v1 ].
  { destruct (concept o); [ | apply Total_ret ].
    apply (Total_tryCatch ai); [ effect | intros; apply Total_ret ]. }
  apply Sends_bind_r; [ | grows | intros v2 ].
  { destruct (poster o); [ | apply Total_ret ].
    apply (Total_tryCatch ai); [ effect | intros; apply Total_ret ]. }
  apply Sends_bind_r; [ | | intros v3 ].
  { destruct (characters o); auto using Total_portraitsLoop, Total_ret. }
  { destruct (characters o); auto using Grows_portraitsLoop, Logs_ret. }
  apply Sends_bind_l; [ now apply Sends_comparablesLoop | intros v4 ].
  grows.
Qed.

Local Opaque generateAllVisuals.

Lemma fromStage3_post ai s p a l :
  currentProject a = Some p ->
  exists c evs a' p',
    fromStage3 ai s p (mkSt a l) = (c, mkSt a' (l ++ evs)%list) /\
    currentProject a' = Some p' /\
    stage1Result p' = stage1Result p /\
    stage2Result p' = stage2Result p /\
    (stage3Result p = None -> shouldStop a = false ->
     exists rest, invoked evs = OpStage3 :: rest).
Proof.
  intros Hp. unfold fromStage3, bind.
  destruct (stage3Result p) as [r3 | ] eqn:H3.
  - rewrite stage3Block_skip by congruence.
    exists (Normal tt), [], (setStatus' COMPLETE a), p.
    rewrite app_nil_r. splits; auto. discriminate.
  - pose proof (stage3Block_step ai s p a l H3) as Hstep.
    inversion Hstep as [Hs Hr | pressed evs e Hs Hpr Hin Hr
                        | pressed evs p' Hs Hpr Hinv (r & scenes & ->) Hr].
    + exists Returned, [], (setStatus' PAUSED a), p.
      rewrite app_nil_r. splits; auto. congruence.
    + exists Returned, evs,
        (failApp e (stopApp pressed (setStatus' ANALYZING_STAGE_3 a))), p.
      splits; auto.
      * now destruct pressed.
      * intros _ _. destruct Hin as [<- | [<- | []]]; eauto.
    + eexists (Normal tt), evs, _, (withStage3 p r scenes).
      splits; try reflexivity. intros _ _. rewrite Hinv. eauto.
Qed.

Lemma patchProfile_single_match c q_name img :
  q_name = name c ->
  patchProfile [mkPortrait q_name img] c = withImage c img.
Proof.
  intros ->. unfold patchProfile. simpl. now rewrite String.eqb_refl.
Qed.

Lemma patchProfile_single_other c q_name img :
  q_name <> name c ->
  patchProfile [mkPortrait q_name img] c = c.
Proof.
  intros Hne. apply patchProfile_other.
  intros q [<- | []]. exact Hne.
Qed.

Lemma mainCharacters_are_profiles d c :
  In c (mainCharactersOf d) -> In c (character_profiles d).
Proof.
  unfold mainCharactersOf. intros H. apply In_firstn_In in H.
  apply filter_In in H. tauto.
Qed.

Lemma visualsBlock_run ai options p a l d :
  needVisualsOf (Some options) = true ->
  stage2Result p = Some d ->
  shouldStop a = false ->
  exists v pressed evs,
    generateAllVisuals ai d options
      (mkSt (setStatus' ANALYZING_STAGE_2_VISUALS a) l)
    = (Normal v,
       mkSt (stopApp pressed (setStatus' ANALYZING_STAGE_2_VISUALS a))
            (l ++ evs)%list) /\
    invoked evs = [OpStage2Visuals] /\
    (pressed = true -> pressable ai) /\
    visualsBlock ai (Some options) p (mkSt a l)
    = (Normal (withStage2 p (mergeVisuals d v)),
       mkSt (setCurrentProject' (Some (withStage2 p (mergeVisuals d v)))
               (stopApp pressed (setStatus' ANALYZING_STAGE_2_VISUALS a)))
            (l ++ evs)%list).
Proof.
  intros Hneed Hd Hstop.
  destruct (Total_generateAllVisuals ai d options
              (mkSt (setStatus' ANALYZING_STAGE_2_VISUALS a) l)) as (v & Hv).
  destruct (Effect_generateAllVisuals ai d options l)
    as (c & pressed & evs & Hinv & Hc & Hpressed & Hrun).
  rewrite Hrun in Hv. simpl in Hv. subst c.
  exists v, pressed, evs. splits; auto.
  unfold visualsBlock. rewrite Hneed, Hd.
  unfold bind, checkStop, getApp, bind. simpl. rewrite Hstop. simpl.
  unfold tryCatch, bind. rewrite Hrun. reflexivity.
Qed.

(** The two main characters are [ok] and [failing] (in either
    order), with different names; the backend yields the image [img] for
    the portrait of [ok] and never yields image bytes for the portrait of
    [failing]; the user presses no Stop.  Then a run that reaches the
    visuals step with portraits requested merges a pitch deck in which
    the profile of [ok] carries [img] and the profile of [failing] is
    what it was, searches for each of the first three comparable titles
    all the same, and goes on to enter stage 3.  The visuals step as such
    never throws. *)
Lemma partial_portrait_run (ai : Backend) s d o ok failing img p a l :
  mainCharactersOf d = [ok; failing] \/ mainCharactersOf d = [failing; ok] ->
  name ok <> name failing ->
  characters o = true ->
  Js.truthy img = true ->
  (forall l', exists more,
     outcome (ai l' (portraitRequest d ok)) = inr (img :: more)) ->
  neverYields ai (portraitRequest d failing) firstImage ->
  (forall l' r, stopPressed (ai l' r) = false) ->
  stage2Result p = Some d ->
  stage3Result p = None ->
  currentProject a = Some p ->
  shouldStop a = false ->
  (forall d0 o0, Total (generateAllVisuals ai d0 o0)) /\
  exists c evs a' p' d' rest,
    fromVisuals ai s (Some o) p (mkSt a l) = (c, mkSt a' (l ++ evs)%list) /\
    currentProject a' = Some p' /\
    stage2Result p' = Some d' /\
    character_profiles d' =
      map (patchProfile [mkPortrait (name ok) img]) (character_profiles d) /\
    In (withImage ok img) (character_profiles d') /\
    In failing (character_profiles d') /\
    (forall t, In t (firstn 3 (comparable_titles d)) ->
               In (SearchPoster t) (sent evs)) /\
    invoked evs = OpStage2Visuals :: OpStage3 :: rest.
Proof.
  intros Hmain Hne Hch Himg Hok Hfail Hquiet Hd H3 Hp Hstop.
  split; [ intros; apply Total_generateAllVisuals | ].
  assert (Hneed : needVisualsOf (Some o) = true).
  { unfold needVisualsOf. rewrite Hch. apply orb_true_r. }
  destruct (visualsBlock_run ai o p a l d Hneed Hd Hstop)
    as (v & pressed & evs & Hrun & Hinv & Hpr & Hblock).
  destruct pressed.
  { destruct (Hpr eq_refl) as (l' & r & Hx). rewrite Hquiet in Hx. discriminate. }
  simpl stopApp in *.
  unfold fromVisuals, bind. rewrite Hblock.
  (* what the visuals step resolved to *)
  destruct (generateAllVisuals_parts ai d o
              (mkSt (setStatus' ANALYZING_STAGE_2_VISUALS a) l))
    as (v' & st' & Hrun' & _ & _ & _ & Hloop).
  rewrite Hrun in Hrun'. injection Hrun' as <- _.
  destruct (Hloop Hch) as (st1 & st2 & Eloop).
  pose proof (portraitsLoop_one_of_two ai d o ok failing img
                (mainCharactersOf d) st1 Hmain Himg Hok Hfail) as Hps.
  rewrite Eloop in Hps. simpl in Hps. injection Hps as Hps.
  (* the comparable titles *)
  assert (Hsearch : forall t, In t (firstn 3 (comparable_titles d)) ->
                              In (SearchPoster t) (sent evs)).
  { intros t Ht.
    destruct (Sends_generateAllVisuals ai d o t) with
      (st := mkSt (setStatus' ANALYZING_STAGE_2_VISUALS a) l)
      as (evs0 & Hl0 & Hin0); auto.
    rewrite Hrun in Hl0. simpl in Hl0. apply app_inv_head in Hl0.
    subst evs0. unfold sent. apply in_flat_map.
    exists (Send (SearchPoster t)). split; auto. now left. }
  (* stage 3 follows *)
  set (p1 := withStage2 p (mergeVisuals d v)).
  set (a1 := setCurrentProject' (Some p1) (setStatus' ANALYZING_STAGE_2_VISUALS a)).
  destruct (fromStage3_post ai s p1 a1 (l ++ evs)%list eq_refl)
    as (c & evs2 & a' & p' & Hrun3 & Hp' & _ & H2' & Hthird).
  destruct (Hthird H3 Hstop) as (rest & Hinv3).
  exists c, (evs ++ evs2)%list, a', p', (mergeVisuals d v), rest.
  assert (Hprofiles : character_profiles (mergeVisuals d v) =
            map (patchProfile [mkPortrait (name ok) img]) (character_profiles d)).
  { rewrite mergeVisuals_profiles, Hps. reflexivity. }
  splits; auto.
  - fold p1 a1. rewrite Hrun3, app_assoc. reflexivity.
  - rewrite Hprofiles. apply in_map_iff. exists ok. split.
    + now apply patchProfile_single_match.
    + apply mainCharacters_are_profiles.
      destruct Hmain as [-> | ->]; simpl; auto.
  - rewrite Hprofiles. apply in_map_iff. exists failing. split.
    + now apply patchProfile_single_other.
    + apply mainCharacters_are_profiles.
      destruct Hmain as [-> | ->]; simpl; auto.
  - intros t Ht. rewrite sent_app. apply in_or_app. left. auto.
  - rewrite invoked_app, Hinv, Hinv3. reflexivity.
Qed.

(** ** C9: an empty script is rejected before anything runs *)

Lemma trimEnd_empty t : Js.trimEnd t = "" <-> Js.allWhiteSpace t = true.
Proof.
  induction t as [ | c t IH]; simpl.
  - tauto.
  - destruct (Js.trimEnd t) eqn:E.
    + destruct (Js.isWhiteSpace c); simpl.
      * tauto.
      * split; discriminate.
    + split; [ discriminate | ].
      intros H. apply andb_true_iff in H. destruct H as [_ H].
      apply IH in H. discriminate.
Qed.

Lemma allWhiteSpace_trimStart s :
  Js.allWhiteSpace (Js.trimStart s) = Js.allWhiteSpace s.
Proof.
  induction s as [ | c s IH]; simpl; auto.
  destruct (Js.isWhiteSpace c) eqn:E; simpl; auto. now rewrite E.
Qed.

(** [!s.trim()] holds exactly of the strings made of white space only. *)
Lemma blank_allWhiteSpace s : Js.blank s = Js.allWhiteSpace s.
Proof.
  unfold Js.blank, Js.trim.
  rewrite <- (allWhiteSpace_trimStart s).
  destruct (Js.allWhiteSpace (Js.trimStart s)) eqn:E.
  - apply trimEnd_empty in E. now rewrite E.
  - destruct (Js.trimEnd (Js.trimStart s)) eqn:T; auto.
    apply trimEnd_empty in T. congruence.
Qed.

(** C9.  With the visuals dialog closed: submitting a script that is
    empty or white space only sets the validation message and nothing
    else, no service function is entered and the project, the status and
    the log are what they were; submitting any other script always gets
    as far as entering stage 1, so the validation is the only way [start]
    ends before a stage is invoked. *)
Theorem blank_script_is_rejected ai text o st :
  isVisualsModalOpen (app st) = false ->
  (Js.allWhiteSpace text = true ->
   start ai text o st =
     (Normal tt, mkSt (setError' (Some emptyScriptMessage) (app st)) (log st)) /\
   error (app (snd (start ai text o st))) = Some emptyScriptMessage /\
   currentProject (app (snd (start ai text o st))) = currentProject (app st) /\
   status (app (snd (start ai text o st))) = status (app st) /\
   invoked (log (snd (start ai text o st))) = invoked (log st)) /\
  (Js.allWhiteSpace text = false ->
   exists evs a' rest,
     start ai text o st = (Normal tt, mkSt a' (log st ++ evs)%list) /\
     invoked evs = OpStage1 :: rest).
Proof.
  intros Hmodal. split.
  - intros Hb. rewrite <- blank_allWhiteSpace in Hb.
    assert (E : start ai text o st =
      (Normal tt, mkSt (setError' (Some emptyScriptMessage) (app st)) (log st))).
    { unfold start, handleAnalysis, function, bind at 1. rewrite Hb.
      unfold bind, setError, modifyApp, return_, getApp. simpl.
      rewrite Hmodal. reflexivity. }
    rewrite E. simpl. splits; auto.
  - intros Hb. rewrite <- blank_allWhiteSpace in Hb.
    set (a1 := setIsVisualsModalOpen' true (setScriptToAnalyze' text (app st))).
    assert (E : start ai text o st =
                executeAnalysis ai o false (mkSt a1 (log st))).
    { unfold start, handleAnalysis, function, bind at 1. rewrite Hb.
      unfold bind, modifyApp, getApp. simpl. reflexivity. }
    rewrite E.
    destruct (executeAnalysis_post ai o false a1 (log st) Hb)
      as (c & evs & a' & p' & rest & Hrun & Hplan & _ & _ & Hstart & _).
    simpl in Hplan, Hstart. unfold plan1 in Hplan, Hstart. simpl in Hplan, Hstart.
    destruct (prefix_starts _ _ _ _ Hplan) as (t & Ht).
    { apply Hstart; [ reflexivity | discriminate ]. }
    exists evs, a', t. split; auto.
Qed.

Lemma blank_script_is_rejected_witness :
  start helpful "   " None initialSt =
    (Normal tt,
     mkSt (setError' (Some emptyScriptMessage) (app initialSt)) (log initialSt)) /\
  exists evs a' rest,
    start helpful sampleScript None initialSt
      = (Normal tt, mkSt a' (log initialSt ++ evs)%list) /\
    invoked evs = OpStage1 :: rest.
Proof.
  split.
  - apply (blank_script_is_rejected helpful "   " None initialSt eq_refl).
    reflexivity.
  - apply (blank_script_is_rejected helpful sampleScript None initialSt eq_refl).
    reflexivity.
Defined.

(** ** C2: the visuals step on resume *)

(** C2 (the code departs from it).  A paused project has stages 1 and 2
    done and its poster populated; only the poster was requested.  On
    [resume()] the visuals step runs again all the same: the poster
    request is sent again and the stored poster is overwritten. *)
Theorem visuals_step_reruns_on_resume :
  let st' := snd (handleResumeAnalysis helpful (mkSt pausedApp [])) in
  invoked (log st') = [OpStage2Visuals; OpStage3; OpExtractScenes] /\
  In (GenerateImages
        (PosterPrompt "ROOM" "Drama" "A man enters a room." "Noir") 1 "3:4")
     (sent (log st')) /\
  option_map movie_poster_base64
    (match currentProject (app st') with
     | Some p => stage2Result p
     | None => None
     end) = Some (Some "IMG") /\
  option_map movie_poster_base64 (stage2Result pausedProject)
    = Some (Some "OLD POSTER").
Proof. vm_compute. splits; auto. Qed.

(** ** The theorems at work on sample sessions *)


Lemma failure_halts_pipeline_witness :
  exists evs a' p',
    executeAnalysis (failing isScenes blocked) None false (mkSt submittedApp [])
      = (Normal tt, mkSt a' ([] ++ evs)%list) /\
    currentProject a' = Some p' /\
    Keeps (startProject false submittedApp) p'.
Proof.
  destruct (failure_halts_pipeline (failing isScenes blocked) None false
              submittedApp [] eq_refl)
    as (_ & _ & _ & _ & evs & a' & p' & H1 & H2 & H3 & _).
  exists evs, a', p'. auto.
Defined.

(** The end-to-end scenario of the specification: with no visuals
    requested the run enters stage 1, stage 2, stage 3 and the scene
    extraction, in this order, and ends [COMPLETE] with the scene heading
    extracted. *)
Example end_to_end :
  let st' := snd (start helpful sampleScript None initialSt) in
  invoked (log st') = [OpStage1; OpStage2; OpStage3; OpExtractScenes] /\
  status (app st') = COMPLETE /\
  option_map (map heading)
    (match currentProject (app st') with
     | Some p => fullScenes p
     | None => None
     end) = Some ["INT. ROOM - DAY"].
Proof. vm_compute. splits; reflexivity. Qed.

(** Stop pressed while stage 1 is in flight: stage 1 is merged, nothing
    else is started, the status is [PAUSED]; [resume()] then goes
    straight to stage 2. *)
Example stop_then_resume :
  let st1 := snd (start stopDuringStage1 sampleScript None initialSt) in
  let st2 := snd (handleResumeAnalysis helpful st1) in
  invoked (log st1) = [OpStage1] /\
  status (app st1) = PAUSED /\
  option_map stage1Result (currentProject (app st1))
    = Some (Some sampleStage1) /\
  invoked (log st2) = [OpStage1; OpStage2; OpStage3; OpExtractScenes] /\
  status (app st2) = COMPLETE.
Proof. vm_compute. splits; reflexivity. Qed.

(** * Further properties of the code *)

(** ** Runs and what is rendered after them *)

Lemma complete_all_done o p p' evs :
  plan1 o p = invoked evs ->
  Forall (doneBy p') (invoked evs) ->
  Keeps p p' ->
  stage1Result p' <> None /\ stage2Result p' <> None /\ stage3Result p' <> None.
Proof.
  intros Hplan Hall HK. rewrite <- Hplan in Hall. rewrite Forall_forall in Hall.
  pose proof (Keeps_stage2 _ _ HK) as K2.
  destruct HK as (_ & _ & K1 & _ & K3).
  unfold plan1, plan2, planV, plan3 in Hall. splits.
  - destruct (stage1Result p) eqn:E.
    + destruct K1 as [-> | [? ?]]; congruence.
    + apply (Hall OpStage1). simpl. now left.
  - destruct (stage2Result p) eqn:E.
    + apply K2. congruence.
    + apply (Hall OpStage2). apply in_or_app. right. simpl. now left.
  - destruct (stage3Result p) eqn:E.
    + destruct K3 as [[-> _] | (? & ? & _)]; congruence.
    + apply (Hall OpStage3). apply in_or_app. right. apply in_or_app. right.
      apply in_or_app. right. simpl. now left.
Qed.




(** X1.  A run never leaves a status of the running kind behind, and it
    ends [COMPLETE] only with all three stage results in the project. *)
Theorem complete_means_all_stages ai o isResuming a l :
  Js.blank (scriptToAnalyze a) = false ->
  let a' := app (snd (executeAnalysis ai o isResuming (mkSt a l))) in
  (status a' = PAUSED \/ status a' = ERROR \/ status a' = COMPLETE) /\
  (status a' = COMPLETE ->
   exists p' r1 r2 r3,
     currentProject a' = Some p' /\ stage1Result p' = Some r1 /\
     stage2Result p' = Some r2 /\ stage3Result p' = Some r3).
Proof.
  intros Hb.
  destruct (executeAnalysis_post ai o isResuming a l Hb)
    as (c & evs & a' & p' & rest & Hrun & Hplan & Hp' & Hk & _ & _ & Hend).
  rewrite Hrun. simpl. split.
  - destruct Hend as [(_ & E & _) | [(_ & E & _) | (_ & E & _)]]; auto.
  - intros Hc.
    destruct Hend as [(_ & E & _) | [(_ & E & _) | (_ & _ & -> & Hall)]];
      try congruence.
    rewrite app_nil_r in Hplan.
    destruct (complete_all_done _ _ _ _ Hplan Hall Hk) as (N1 & N2 & N3).
    destruct (stage1Result p') as [r1 | ] eqn:E1; [ | congruence ].
    destruct (stage2Result p') as [r2 | ] eqn:E2; [ | congruence ].
    destruct (stage3Result p') as [r3 | ] eqn:E3; [ | congruence ].
    exists p', r1, r2, r3. splits; auto.
Qed.

Lemma complete_means_all_stages_witness :
  let a' := app (snd (executeAnalysis helpful None false
                        (mkSt submittedApp []))) in
  status a' = PAUSED \/ status a' = ERROR \/ status a' = COMPLETE.
Proof.
  apply (complete_means_all_stages helpful None false submittedApp []).
  reflexivity.
Defined.



(** X3.  Opening a stored project: without a stage-3 result it opens at
    the script input with status [IDLE]; with all three results it opens
    at the result view; with a stage-3 result but stage 1 or stage 2
    missing the status is [COMPLETE] all the same and the next render
    replaces the project by a new, empty one.  The visual options of an
    earlier run are forgotten in every case, the stop flag is not
    touched. *)
Theorem opening_a_stored_project project a sh :
  let ui := handleLoadProject (Some project) (a, sh) in
  visualOptions (fst ui) = None /\
  shouldStop (fst ui) = shouldStop a /\
  isReadOnlyMode (snd ui) = false /\
  (stage3Result project = None ->
   status (fst ui) = IDLE /\
   renderScriptContent ui
     = (ScriptInputView (error a) (script project) false, ui)) /\
  (stage1Result project <> None -> stage2Result project <> None ->
   stage3Result project <> None ->
   renderScriptContent ui = (AnalysisResultView project false, ui)) /\
  (stage3Result project <> None ->
   stage1Result project = None \/ stage2Result project = None ->
   status (fst ui) = COMPLETE /\
   fst (renderScriptContent ui) = NoView /\
   currentProject (fst (snd (renderScriptContent ui)))
     = Some createNewProject /\
   status (fst (snd (renderScriptContent ui))) = IDLE).
Proof.
  simpl. splits; auto.
  - intros H3. rewrite H3. simpl. auto.
  - intros H1 H2 H3. unfold renderScriptContent. simpl.
    destruct (stage1Result project); [ | congruence ].
    destruct (stage2Result project); [ | congruence ].
    destruct (stage3Result project); [ | congruence ]. reflexivity.
  - intros H3 H12. unfold renderScriptContent. simpl.
    destruct (stage3Result project); [ | congruence ]. simpl.
    destruct H12 as [-> | H2].
    + simpl. auto.
    + rewrite H2. rewrite andb_false_r. simpl. auto.
Qed.

(** ** The visuals step, part by part *)

Local Transparent generateAllVisuals.

Lemma generateAllVisuals_eq ai d o :
  generateAllVisuals ai d o =
  (tell (Invoke OpStage2Visuals) ;;
   concept_art_base64 <- conceptArtPart ai d o ;;
   movie_poster_base64 <- moviePosterPart ai d o ;;
   character_portraits <- portraitsPart ai d o ;;
   comparable_titles_visuals <- comparablesPart ai d o character_portraits ;;
   visual_style_images_base64 <- styleFramesPart ai d o ;;
   ret (mkVisuals concept_art_base64 movie_poster_base64 character_portraits
                  comparable_titles_visuals visual_style_images_base64)).
Proof. reflexivity. Qed.

Local Opaque generateAllVisuals.

Lemma Total_conceptArtPart ai d o : Total (conceptArtPart ai d o).
Proof.
  unfold conceptArtPart. destruct (concept o); [ | apply Total_ret ].
  apply (Total_tryCatch ai); [ effect | intros; apply Total_ret ].
Qed.

Lemma Total_moviePosterPart ai d o : Total (moviePosterPart ai d o).
Proof.
  unfold moviePosterPart. destruct (poster o); [ | apply Total_ret ].
  apply (Total_tryCatch ai); [ effect | intros; apply Total_ret ].
Qed.

Lemma Total_portraitsPart ai d o : Total (portraitsPart ai d o).
Proof.
  unfold portraitsPart.
  destruct (characters o); auto using Total_portraitsLoop, Total_ret.
Qed.

Lemma Total_comparablesPart ai d o ps : Total (comparablesPart ai d o ps).
Proof.
  unfold comparablesPart.
  destruct (poster o || concept o || characters o);
    auto using Total_comparablesLoop, Total_ret.
Qed.

Lemma Total_styleFramesPart ai d o : Total (styleFramesPart ai d o).
Proof.
  unfold styleFramesPart. destruct (concept o); [ | apply Total_ret ].
  apply (Total_tryCatch ai); [ effect | intros; apply Total_ret ].
Qed.

(** The visuals step resolves to what its five parts resolve to. *)
Lemma generateAllVisuals_run ai d o st :
  exists v st' s1 s2 s3 s4 s5,
    generateAllVisuals ai d o st = (Normal v, st') /\
    fst (conceptArtPart ai d o s1) = Normal (v_concept_art_base64 v) /\
    fst (moviePosterPart ai d o s2) = Normal (v_movie_poster_base64 v) /\
    fst (portraitsPart ai d o s3) = Normal (v_character_portraits v) /\
    fst (comparablesPart ai d o (v_character_portraits v) s4)
      = Normal (v_comparable_titles_visuals v) /\
    fst (styleFramesPart ai d o s5) = Normal (v_visual_style_images_base64 v).
Proof.
  rewrite generateAllVisuals_eq.
  unfold bind at 1. unfold tell at 1.
  set (s1 := mkSt (app st) (log st ++ [Invoke OpStage2Visuals])%list).
  destruct (Total_run _ (Total_conceptArtPart ai d o) s1) as (x1 & s2 & E1).
  destruct (Total_run _ (Total_moviePosterPart ai d o) s2) as (x2 & s3 & E2).
  destruct (Total_run _ (Total_portraitsPart ai d o) s3) as (x3 & s4 & E3).
  destruct (Total_run _ (Total_comparablesPart ai d o x3) s4)
    as (x4 & s5 & E4).
  destruct (Total_run _ (Total_styleFramesPart ai d o) s5) as (x5 & s6 & E5).
  exists (mkVisuals x1 x2 x3 x4 x5), s6, s1, s2, s3, s4, s5.
  simpl. splits;
    [ unfold bind; rewrite E1, E2, E3, E4, E5; reflexivity
    | now rewrite E1 | now rewrite E2 | now rewrite E3 | now rewrite E4
    | now rewrite E5 ].
Qed.

Section YieldsFacts.

Context {A : Type} (P : A -> Prop).

Lemma Yields_ret (x : A) : P x -> Yields P (ret x).
Proof. intros H st y E. simpl in E. congruence. Qed.

Lemma Yields_throw e : Yields P (throw e).
Proof. intros st y E. discriminate. Qed.

Lemma Yields_bind {B} (m : M B) (k : B -> M A) :
  (forall x, Yields P (k x)) -> Yields P (bind m k).
Proof.
  intros Hk st y. unfold bind.
  destruct (m st) as [[x | e | ] st1]; simpl; try discriminate.
  apply Hk.
Qed.

Lemma Yields_tryCatch (m : M A) (h : JsError -> M A) :
  Yields P m -> (forall e, Yields P (h e)) -> Yields P (tryCatch m h).
Proof.
  intros Hm Hh st y. unfold tryCatch.
  pose proof (Hm st) as Hm'.
  destruct (m st) as [[x | e | ] st1]; simpl in *; auto; try discriminate.
  apply Hh.
Qed.

Lemma Yields_retryWithBackoff (operation : M A) retries :
  Yields P operation ->
  forall delay factor,
    Yields P (retryWithBackoff operation retries delay factor).
Proof.
  intros Hop. induction retries as [ | n IH]; intros delay factor; simpl;
    apply Yields_tryCatch; auto using Yields_bind, Yields_throw.
  intros e. destruct (isRateLimit e || isServerOverload e);
    auto using Yields_bind, Yields_throw.
Qed.

Lemma Yields_rejected (ai : Backend) r (k : Resp r -> M A) :
  rejectsAll ai -> Yields P (bind (request ai r) k).
Proof.
  intros Hrej st y. unfold bind, request.
  destruct (Hrej (log st) r) as (e & ->). discriminate.
Qed.

End YieldsFacts.

Lemma Yields_run {A} (P : A -> Prop) (m : M A) st x :
  Yields P m -> fst (m st) = Normal x -> P x.
Proof. intros H. apply H. Qed.

Lemma Yields_bind_with {A B} (Q : B -> Prop) (P : A -> Prop)
    (m : M B) (k : B -> M A) :
  Yields Q m -> (forall x, Q x -> Yields P (k x)) -> Yields P (bind m k).
Proof.
  intros Hm Hk st y. unfold bind.
  pose proof (Hm st) as Hm'.
  destruct (m st) as [[x | e | ] st1]; simpl in *; try discriminate.
  apply Hk. now apply Hm'.
Qed.

Lemma Yields_weaken {A} (P Q : A -> Prop) (m : M A) :
  (forall x, P x -> Q x) -> Yields P m -> Yields Q m.
Proof. intros H Hm st x E. eauto. Qed.

(** *** What is sent *)

Lemma Logs_optionAllows_portraitsLoop ai d o cs :
  characters o = true ->
  forall acc, Logs (optionAllows o) (portraitsLoop ai d o cs acc).
Proof.
  intros Hc. induction cs as [ | c cs IH]; intros acc; simpl.
  - apply Logs_ret.
  - apply Logs_bind; auto. unfold portraitFor. logs; simpl; auto.
Qed.

Lemma Logs_optionAllows_comparablesLoop ai o ps ts :
  poster o || concept o || characters o = true ->
  forall acc, Logs (optionAllows o) (comparablesLoop ai ps ts acc).
Proof.
  intros Hany. induction ts as [ | t ts IH]; intros acc; simpl.
  - apply Logs_ret.
  - apply Logs_bind; auto. unfold comparableFor. logs; simpl; auto.
Qed.

(** X4.  The visuals step sends only what the options ask for: the
    concept art and the style frames with [concept], the poster with
    [poster], portraits with [characters], the comparable-title posters
    with any of the three, and never a text request. *)
Theorem visuals_send_only_what_was_asked ai d o st :
  exists evs,
    log (snd (generateAllVisuals ai d o st)) = (log st ++ evs)%list /\
    Forall (optionAllows o) evs /\
    (concept o = false -> poster o = false -> characters o = false ->
     sent evs = []).
Proof.
  assert (H : Logs (optionAllows o) (generateAllVisuals ai d o)).
  { rewrite generateAllVisuals_eq.
    apply Logs_bind; [ now apply Logs_tell | intros _ ].
    apply Logs_bind; [ | intros v1 ].
    { unfold conceptArtPart. destruct (concept o) eqn:E; logs; simpl; auto. }
    apply Logs_bind; [ | intros v2 ].
    { unfold moviePosterPart. destruct (poster o) eqn:E; logs; simpl; auto. }
    apply Logs_bind; [ | intros v3 ].
    { unfold portraitsPart. destruct (characters o) eqn:E;
        auto using Logs_optionAllows_portraitsLoop, Logs_ret. }
    apply Logs_bind; [ | intros v4 ].
    { unfold comparablesPart.
      destruct (poster o || concept o || characters o) eqn:E;
        auto using Logs_optionAllows_comparablesLoop, Logs_ret. }
    apply Logs_bind; [ | intros v5; apply Logs_ret ].
    unfold styleFramesPart. destruct (concept o) eqn:E; logs; simpl; auto. }
  destruct (H st) as (evs & Hl & Hall). exists evs. splits; auto.
  intros Hc Hp Hch. clear Hl.
  induction Hall as [ | e evs He Hall IH]; auto.
  unfold sent in *. simpl. rewrite IH.
  destruct e as [ | | r | ]; auto. simpl in He.
  rewrite Hc, Hp, Hch in He.
  destruct r as [ | | | | [ | | | | ] | ]; simpl in He;
    try contradiction; discriminate.
Qed.

(** *** The comparable titles *)

Lemma Yields_comparableFor ai ps t acc :
  Yields (fun res => exists img, res = (acc ++ [mkTitleVisual t img])%list)
         (comparableFor ai ps t acc).
Proof.
  unfold comparableFor.
  apply Yields_bind. intros img. apply Yields_bind. intros img'.
  apply Yields_ret. eauto.
Qed.

Lemma Yields_comparablesLoop ai ps ts :
  forall acc,
    Yields (fun res => map tv_title res = (map tv_title acc ++ ts)%list)
           (comparablesLoop ai ps ts acc).
Proof.
  induction ts as [ | t ts IH]; intros acc; simpl.
  - apply Yields_ret. now rewrite app_nil_r.
  - eapply Yields_bind_with; [ apply Yields_comparableFor | ].
    intros x (img & ->).
    eapply Yields_weaken; [ | apply IH ].
    intros res Hres. rewrite Hres, map_app, <- app_assoc. reflexivity.
Qed.

(** X5.  Once any visual is requested the visuals step returns one entry
    per comparable title, for the first three titles and in their order,
    whether or not an image could be had for it; with nothing requested
    it returns none. *)
Theorem comparable_entries_follow_titles ai d o st :
  exists v st',
    generateAllVisuals ai d o st = (Normal v, st') /\
    map tv_title (v_comparable_titles_visuals v) =
      (if poster o || concept o || characters o
       then firstn 3 (comparable_titles d) else []) /\
    (List.length (v_comparable_titles_visuals v) <= 3)%nat.
Proof.
  destruct (generateAllVisuals_run ai d o st)
    as (v & st' & s1 & s2 & s3 & s4 & s5 & Hrun & _ & _ & _ & H4 & _).
  exists v, st'. split; auto.
  assert (Ht : map tv_title (v_comparable_titles_visuals v) =
               (if poster o || concept o || characters o
                then firstn 3 (comparable_titles d) else [])).
  { unfold comparablesPart in H4.
    destruct (poster o || concept o || characters o).
    - apply (Yields_run _ _ _ _ (Yields_comparablesLoop ai _ _ [])) in H4.
      exact H4.
    - simpl in H4. injection H4 as <-. reflexivity. }
  split; auto.
  rewrite <- (length_map tv_title), Ht.
  destruct (poster o || concept o || characters o);
    [ apply firstn_le_length | simpl; lia ].
Qed.

(** *** Portraits and style frames *)

Lemma Yields_portraitFor ai d o c acc :
  Yields (fun res =>
            res = acc \/
            exists img, Js.truthy img = true /\
                        res = (acc ++ [mkPortrait (name c) img])%list)
         (portraitFor ai d o c acc).
Proof.
  unfold portraitFor. apply Yields_tryCatch.
  - apply Yields_bind. intros _. unfold retryDefault.
    apply Yields_retryWithBackoff. apply Yields_bind. intros resp.
    apply Yields_ret.
    destruct (Js.truthy (firstImage resp)) eqn:E; eauto.
  - intros e. apply Yields_ret. auto.
Qed.

Lemma Yields_portraitsLoop ai d o cs :
  incl cs (mainCharactersOf d) ->
  forall acc,
    Forall (goodPortrait d) acc ->
    Yields (fun res =>
              Forall (goodPortrait d) res /\
              (List.length res <= List.length acc + List.length cs)%nat)
           (portraitsLoop ai d o cs acc).
Proof.
  induction cs as [ | c cs IH]; intros Hincl acc Hacc; simpl.
  - apply Yields_ret. split; auto. lia.
  - eapply Yields_bind_with; [ apply Yields_portraitFor | ].
    intros x [-> | (img & Himg & ->)].
    + eapply Yields_weaken; [ | apply IH; auto ].
      * intros res [H1 H2]. split; auto. lia.
      * intros y Hy. apply Hincl. now right.
    + eapply Yields_weaken; [ | apply IH ].
      * intros res [H1 H2]. split; auto.
        rewrite length_app in H2. simpl in H2. lia.
      * intros y Hy. apply Hincl. now right.
      * apply Forall_app. split; auto. constructor; [ | constructor ].
        split; auto. exists c. split; auto. apply Hincl. now left.
Qed.

(** X6.  Every portrait the visuals step returns carries image bytes and
    the name of one of the main characters, and there are at most two;
    every style frame it returns carries image bytes. *)
Theorem returned_images_are_not_empty ai d o st :
  exists v st',
    generateAllVisuals ai d o st = (Normal v, st') /\
    Forall (goodPortrait d) (v_character_portraits v) /\
    (List.length (v_character_portraits v) <= 2)%nat /\
    Forall (fun img => Js.truthy img = true) (v_visual_style_images_base64 v).
Proof.
  destruct (generateAllVisuals_run ai d o st)
    as (v & st' & s1 & s2 & s3 & s4 & s5 & Hrun & _ & _ & H3 & _ & H5).
  exists v, st'. split; auto.
  assert (Hp : Forall (goodPortrait d) (v_character_portraits v) /\
               (List.length (v_character_portraits v)
                <= 0 + List.length (mainCharactersOf d))%nat).
  { unfold portraitsPart in H3. destruct (characters o).
    - eapply (Yields_run _ _ _ _ (Yields_portraitsLoop ai d o _
                                    (incl_refl _) [] (Forall_nil _))).
      exact H3.
    - simpl in H3. injection H3 as <-. split; [ constructor | simpl; lia ]. }
  destruct Hp as [Hp1 Hp2]. splits; auto.
  - assert (List.length (mainCharactersOf d) <= 2)%nat
      by (unfold mainCharactersOf; apply firstn_le_length).
    lia.
  - unfold styleFramesPart in H5. destruct (concept o).
    + revert H5. apply Yields_tryCatch.
      * apply Yields_bind. intros _. unfold retryDefault.
        apply Yields_retryWithBackoff. apply Yields_bind. intros resp.
        apply Yields_ret. apply Forall_forall. intros x Hx.
        apply filter_In in Hx. tauto.
      * intros e. apply Yields_ret. constructor.
    + simpl in H5. injection H5 as <-. constructor.
Qed.

(** *** When every request fails *)

Section Rejected.

Variable ai : Backend.
Hypothesis Hrej : rejectsAll ai.

Lemma Yields_rejected_retry {A} (P : A -> Prop) r (k : Resp r -> M A) :
  Yields P (retryDefault (bind (request ai r) k)).
Proof.
  unfold retryDefault. apply Yields_retryWithBackoff.
  now apply Yields_rejected.
Qed.

Lemma rejected_conceptArtPart d o :
  Yields (fun x => x = "") (conceptArtPart ai d o).
Proof.
  unfold conceptArtPart. destruct (concept o); [ | now apply Yields_ret ].
  apply Yields_tryCatch; [ apply Yields_rejected_retry | ].
  intros e. now apply Yields_ret.
Qed.

Lemma rejected_moviePosterPart d o :
  Yields (fun x => x = "") (moviePosterPart ai d o).
Proof.
  unfold moviePosterPart. destruct (poster o); [ | now apply Yields_ret ].
  apply Yields_tryCatch.
  - apply Yields_bind. intros _. apply Yields_rejected_retry.
  - intros e. now apply Yields_ret.
Qed.

Lemma rejected_portraitsLoop d o cs :
  Yields (fun res => res = []) (portraitsLoop ai d o cs []).
Proof.
  induction cs as [ | c cs IH]; simpl.
  - now apply Yields_ret.
  - apply (Yields_bind_with (fun x => x = [])).
    + unfold portraitFor. apply Yields_tryCatch.
      * apply Yields_bind. intros _. apply Yields_rejected_retry.
      * intros e. now apply Yields_ret.
    + intros x ->. exact IH.
Qed.

Lemma rejected_comparableFor ps t acc :
  Yields (fun res => res = (acc ++ [mkTitleVisual t ""])%list)
         (comparableFor ai ps t acc).
Proof.
  unfold comparableFor. apply (Yields_bind_with (fun img => img = "")).
  - apply Yields_tryCatch.
    + apply Yields_bind. intros _. apply Yields_rejected_retry.
    + intros e. now apply Yields_ret.
  - intros img ->. simpl.
    apply (Yields_bind_with (fun img => img = "")).
    + apply Yields_tryCatch.
      * apply Yields_bind. intros _.
        apply (Yields_rejected_retry _
                 (GenerateImages (ComparablePosterPrompt t) 1 "3:4")
                 (fun resp => ret (firstImage resp))).
      * intros e. now apply Yields_ret.
    + intros img ->. now apply Yields_ret.
Qed.

Lemma rejected_comparablesLoop ps ts :
  forall acc,
    Yields (fun res => res = (acc ++ emptyVisualsOf ts)%list)
           (comparablesLoop ai ps ts acc).
Proof.
  induction ts as [ | t ts IH]; intros acc; simpl.
  - apply Yields_ret. now rewrite app_nil_r.
  - eapply Yields_bind_with; [ apply rejected_comparableFor | ].
    intros x ->. eapply Yields_weaken; [ | apply IH ].
    intros res ->. now rewrite <- app_assoc.
Qed.

Lemma rejected_styleFramesPart d o :
  Yields (fun x => x = []) (styleFramesPart ai d o).
Proof.
  unfold styleFramesPart. destruct (concept o); [ | now apply Yields_ret ].
  apply Yields_tryCatch.
  - apply Yields_bind. intros _. apply Yields_rejected_retry.
  - intros e. now apply Yields_ret.
Qed.

End Rejected.

(** X7.  When the backend rejects every request the visuals step still
    resolves, with no concept art, poster, portrait or style frame, and
    with one entry of empty image per comparable title.  Merged onto the
    pitch deck this leaves the concept art, the poster, the profiles and
    the style frames as they were, but replaces the stored
    comparable-title visuals by the empty entries whenever the deck has
    comparable titles. *)
Theorem visuals_when_every_request_fails ai d o st :
  rejectsAll ai ->
  poster o || concept o || characters o = true ->
  exists v st',
    generateAllVisuals ai d o st = (Normal v, st') /\
    v = mkVisuals "" "" []
          (emptyVisualsOf (firstn 3 (comparable_titles d))) [] /\
    concept_art_base64 (mergeVisuals d v) = concept_art_base64 d /\
    movie_poster_base64 (mergeVisuals d v) = movie_poster_base64 d /\
    character_profiles (mergeVisuals d v) = character_profiles d /\
    visual_style_images_base64 (mergeVisuals d v)
      = visual_style_images_base64 d /\
    comparable_titles_visuals (mergeVisuals d v) =
      (match comparable_titles d with
       | [] => comparable_titles_visuals d
       | _ => Some (emptyVisualsOf (firstn 3 (comparable_titles d)))
       end).
Proof.
  intros Hrej Hany.
  destruct (generateAllVisuals_run ai d o st)
    as (v & st' & s1 & s2 & s3 & s4 & s5 & Hrun & H1 & H2 & H3 & H4 & H5).
  apply (Yields_run _ _ _ _ (rejected_conceptArtPart ai Hrej d o)) in H1.
  apply (Yields_run _ _ _ _ (rejected_moviePosterPart ai Hrej d o)) in H2.
  apply (Yields_run _ _ _ _ (rejected_styleFramesPart ai Hrej d o)) in H5.
  assert (H3' : v_character_portraits v = []).
  { unfold portraitsPart in H3. destruct (characters o).
    - now apply (Yields_run _ _ _ _ (rejected_portraitsLoop ai Hrej d o _)) in H3.
    - simpl in H3. now injection H3 as <-. }
  unfold comparablesPart in H4. rewrite Hany in H4.
  apply (Yields_run _ _ _ _ (rejected_comparablesLoop ai Hrej _ _ [])) in H4.
  simpl in H4.
  destruct v as [c p ch cmp vs]. simpl in *. subst.
  exists (mkVisuals "" "" []
            (emptyVisualsOf (firstn 3 (comparable_titles d))) []), st'.
  splits; auto.
  unfold mergeVisuals. simpl. now destruct (comparable_titles d).
Qed.

Lemma visuals_when_every_request_fails_witness :
  exists v st',
    generateAllVisuals rejecting sampleDeck posterOnly initialSt
      = (Normal v, st') /\
    v = mkVisuals "" "" [] [mkTitleVisual "Alien" ""] [].
Proof.
  destruct (visuals_when_every_request_fails rejecting sampleDeck posterOnly
              initialSt)
    as (v & st' & H1 & H2 & _).
  - intros l r. exists blocked. reflexivity.
  - reflexivity.
  - exists v, st'. split; auto.
Defined.

(** ** Stage calls under the retry policy *)

Local Transparent analyzeStage1 analyzeStage2 analyzeStage3 extractScenes.

Lemma request_then ai r {B} (post : Resp r -> M B) st :
  Silent post ->
  log (snd (bind (request ai r) post st)) = (log st ++ [Send r])%list.
Proof.
  intros Hs. unfold bind, request.
  destruct (outcome (ai (log st) r)) as [e | v]; simpl; auto.
  now rewrite Hs.
Qed.

Lemma retry_request_shape ai r {B} (post : Resp r -> M B) :
  Silent post ->
  forall retries delay factor st,
  exists k,
    (k <= retries)%nat /\
    log (snd (retryWithBackoff (bind (request ai r) post) retries delay
                factor st))
      = (log st ++ attempts r k delay factor)%list /\
    ((k < retries)%nat ->
     ~ transientThrow
         (fst (retryWithBackoff (bind (request ai r) post) retries delay
                 factor st))).
Proof.
  intros Hs. induction retries as [ | n IH]; intros delay factor st.
  - exists 0%nat. rewrite retryWithBackoff_exhausted. splits; [ lia | | lia ].
    rewrite request_then by auto. simpl. now rewrite <- app_assoc.
  - pose proof (request_then ai r post (attempted st) Hs) as Hl.
    destruct (bind (request ai r) post (attempted st)) as [c st1] eqn:E.
    simpl in Hl.
    assert (Hcases : transientThrow c \/ ~ transientThrow c).
    { destruct c as [x | e | ].
      - right. intros (e' & He' & _). discriminate.
      - destruct (transient e) eqn:Et.
        + left. now exists e.
        + right. intros (e' & He' & Ht). congruence.
      - right. intros (e' & He' & _). discriminate. }
    destruct Hcases as [(e & -> & Et) | Hnt].
    + rewrite (retryWithBackoff_again _ _ _ _ _ _ _ E Et).
      destruct (IH (delay * factor) factor
                   (mkSt (app st1) (log st1 ++ [Slept delay])%list))
        as (k & Hk & Hlog & Hstop).
      exists (S k). splits; [ lia | | intros; apply Hstop; lia ].
      rewrite Hlog. simpl. rewrite Hl. repeat rewrite <- app_assoc.
      reflexivity.
    + exists 0%nat. rewrite retryWithBackoff_first by now rewrite E.
      rewrite E. simpl. splits; [ lia | | auto ].
      rewrite Hl, <- app_assoc. reflexivity.
Qed.

Lemma Silent_parseJson {T} msg : Silent (@parseJson T msg).
Proof. intros text st. now destruct text. Qed.

Lemma sent_attempts r k : forall delay factor,
  sent (attempts r k delay factor) = repeat r (S k).
Proof.
  induction k as [ | k IH]; intros delay factor; simpl; auto.
  unfold sent in *. simpl. now rewrite (IH (delay * factor) factor).
Qed.

Lemma slept_attempts r k :
  (k <= 4)%nat -> 0 <= slept (attempts r k 2000 2) <= 30000.
Proof.
  intros Hk.
  destruct k as [ | [ | [ | [ | [ | k]]]]]; simpl; lia.
Qed.

Lemma callShape_entered ai op r {T} (post : Resp r -> M T) st :
  Silent post ->
  callShape op r
    ((tell (Invoke op) ;; retryDefault (bind (request ai r) post)) st) st.
Proof.
  intros Hs. unfold bind at 1. unfold tell at 1.
  destruct (retry_request_shape ai r post Hs 4 2000 2
              (mkSt (app st) (log st ++ [Invoke op])%list))
    as (k & Hk & Hlog & Hstop).
  exists k. unfold retryDefault. splits; auto.
  - rewrite Hlog. simpl. now rewrite <- app_assoc.
  - change (Invoke op :: attempts r k 2000 2)
      with ([Invoke op] ++ attempts r k 2000 2)%list.
    rewrite sent_app, sent_attempts. reflexivity.
  - change (slept (Invoke op :: attempts r k 2000 2))
      with (slept (attempts r k 2000 2)).
    now apply slept_attempts.
Qed.

(** X8.  Each of the four stage calls is entered once and then sends one
    and the same request once per attempt: at least once, at most five
    times, with the timers 2000, 4000, 8000, 16000 ms in between and
    never more than 30 s of waiting in all; it stops before the fifth
    attempt only on an outcome that is not a transient failure. *)
Theorem stage_calls_have_one_shape ai s lg sy st :
  callShape OpStage1 (GenerateStage1 s) (analyzeStage1 ai s st) st /\
  callShape OpStage2 (GenerateStage2 s lg sy) (analyzeStage2 ai s lg sy st) st /\
  callShape OpStage3 (GenerateStage3 s) (analyzeStage3 ai s st) st /\
  callShape OpExtractScenes (GenerateScenes s) (extractScenes ai s st) st.
Proof.
  splits; apply callShape_entered; apply Silent_parseJson.
Qed.

Lemma endsAtOnce_entered ai op r {T} (v : Resp r) (post : Resp r -> M T)
    e st :
  outcome (ai (log st ++ [Invoke op; Attempt])%list r) = inr v ->
  (forall st', post v st' = (Thrown e, st')) ->
  transient e = false ->
  errorMessageOf e = message e ->
  endsAtOnce op r
    ((tell (Invoke op) ;; retryDefault (bind (request ai r) post)) st) st.
Proof.
  intros Hout Hpost Ht Hm.
  set (st0 := mkSt (app st) (log st ++ [Invoke op])%list).
  assert (E : exists st1,
             bind (request ai r) post (attempted st0) = (Thrown e, st1) /\
             log st1 = (log st ++ [Invoke op; Attempt; Send r])%list).
  { unfold bind, request. simpl. rewrite <- app_assoc. simpl.
    rewrite Hout. rewrite Hpost. eexists. split; [ reflexivity | ].
    simpl. rewrite <- app_assoc. reflexivity. }
  destruct E as (st1 & E & Hl).
  assert (Hrun : (tell (Invoke op) ;;
                  retryDefault (bind (request ai r) post)) st
                 = (Thrown e, st1)).
  { unfold bind at 1. unfold tell at 1. fold st0. unfold retryDefault.
    rewrite retryWithBackoff_first.
    - exact E.
    - rewrite E. simpl. intros (e' & He' & Ht'). congruence. }
  exists e. rewrite Hrun. simpl. splits; auto.
Qed.

(** X9.  A stage call whose first answer has no text is not retried: one
    request is sent, the call throws an error that is not transient, and
    [handleError] shows that error's own message. *)
Theorem empty_response_is_terminal (ai : Backend) s lg sy st :
  (outcome (ai (log st ++ [Invoke OpStage1; Attempt])%list (GenerateStage1 s))
     = inr NoText ->
   endsAtOnce OpStage1 (GenerateStage1 s) (analyzeStage1 ai s st) st) /\
  (outcome (ai (log st ++ [Invoke OpStage2; Attempt])%list
              (GenerateStage2 s lg sy))
     = inr NoText ->
   endsAtOnce OpStage2 (GenerateStage2 s lg sy)
     (analyzeStage2 ai s lg sy st) st) /\
  (outcome (ai (log st ++ [Invoke OpStage3; Attempt])%list (GenerateStage3 s))
     = inr NoText ->
   endsAtOnce OpStage3 (GenerateStage3 s) (analyzeStage3 ai s st) st) /\
  (outcome (ai (log st ++ [Invoke OpExtractScenes; Attempt])%list
              (GenerateScenes s))
     = inr NoText ->
   endsAtOnce OpExtractScenes (GenerateScenes s) (extractScenes ai s st) st).
Proof.
  splits; intros Hout;
    (eapply endsAtOnce_entered;
     [ exact Hout | intros st'; reflexivity | reflexivity | reflexivity ]).
Qed.

Local Opaque analyzeStage1 analyzeStage2 analyzeStage3 extractScenes.

(** ** What the requests of a run carry *)

Lemma Logs_silent {A} P (m : M A) :
  (forall st, log (snd (m st)) = log st) -> Logs P m.
Proof.
  intros H st. exists []. rewrite app_nil_r. split; [ apply H | constructor ].
Qed.

Lemma Logs_weaken {A} (P Q : Event -> Prop) (m : M A) :
  (forall e, P e -> Q e) -> Logs P m -> Logs Q m.
Proof.
  intros H Hm st. destruct (Hm st) as (evs & Hl & Hall).
  exists evs. split; auto. eapply Forall_impl; eauto.
Qed.

Lemma Logs_parseJson {T} P msg (text : Json T) : Logs P (parseJson msg text).
Proof. destruct text; simpl; auto using Logs_ret, Logs_throw. Qed.

Lemma Logs_modifyApp P f : Logs P (modifyApp f).
Proof. now apply Logs_silent. Qed.

Lemma Logs_checkStop P : Logs P checkStop.
Proof.
  apply Logs_silent. intros st. unfold checkStop, bind, getApp.
  now destruct (shouldStop (app st)).
Qed.

Lemma Logs_handler {A} P err : Logs P (handleError err ;; @return_ A).
Proof. now apply Logs_silent. Qed.

Lemma carriesNoStage2_carries s lg sy e :
  carriesNoStage2 s e -> carries s lg sy e.
Proof. destruct e as [ | | [ | | | | | ] | ]; simpl; tauto. Qed.

Lemma carriesNoStage2_sent s evs s' lg sy :
  Forall (carriesNoStage2 s) evs -> ~ In (GenerateStage2 s' lg sy) (sent evs).
Proof.
  intros Hall Hin. unfold sent in Hin. apply in_flat_map in Hin.
  destruct Hin as (e & He & Hin).
  rewrite Forall_forall in Hall. specialize (Hall e He).
  destruct e as [ | | r | ]; simpl in Hin; try contradiction.
  destruct Hin as [Hr | []]. subst r. exact Hall.
Qed.

Section Carried.

Variable ai : Backend.
Variable s : string.

Local Transparent analyzeStage1 analyzeStage2 analyzeStage3 extractScenes.

Lemma Logs_text_analyzeStage1 :
  Logs (carriesNoStage2 s) (analyzeStage1 ai s).
Proof.
  unfold analyzeStage1. logs; simpl; auto. intros; apply Logs_parseJson.
Qed.

Lemma Logs_text_analyzeStage2 lg sy :
  Logs (carries s lg sy) (analyzeStage2 ai s lg sy).
Proof.
  unfold analyzeStage2. logs; simpl; auto. intros; apply Logs_parseJson.
Qed.

Lemma Logs_text_analyzeStage3 :
  Logs (carriesNoStage2 s) (analyzeStage3 ai s).
Proof.
  unfold analyzeStage3. logs; simpl; auto. intros; apply Logs_parseJson.
Qed.

Lemma Logs_text_extractScenes :
  Logs (carriesNoStage2 s) (extractScenes ai s).
Proof.
  unfold extractScenes. logs; simpl; auto. intros; apply Logs_parseJson.
Qed.

Local Opaque analyzeStage1 analyzeStage2 analyzeStage3 extractScenes.

Lemma Logs_text_portraitsLoop d o cs :
  forall acc, Logs (carriesNoStage2 s) (portraitsLoop ai d o cs acc).
Proof.
  induction cs as [ | c cs IH]; intros acc; simpl.
  - apply Logs_ret.
  - apply Logs_bind; auto. unfold portraitFor. logs; simpl; auto.
Qed.

Lemma Logs_text_comparablesLoop ps ts :
  forall acc, Logs (carriesNoStage2 s) (comparablesLoop ai ps ts acc).
Proof.
  induction ts as [ | t ts IH]; intros acc; simpl.
  - apply Logs_ret.
  - apply Logs_bind; auto. unfold comparableFor. logs; simpl; auto.
Qed.

Lemma Logs_text_generateAllVisuals d o :
  Logs (carriesNoStage2 s) (generateAllVisuals ai d o).
Proof.
  rewrite generateAllVisuals_eq.
  apply Logs_bind; [ now apply Logs_tell | intros _ ].
  apply Logs_bind; [ | intros v1 ].
  { unfold conceptArtPart. logs; simpl; auto. }
  apply Logs_bind; [ | intros v2 ].
  { unfold moviePosterPart. logs; simpl; auto. }
  apply Logs_bind; [ | intros v3 ].
  { unfold portraitsPart. destruct (characters o);
      auto using Logs_text_portraitsLoop, Logs_ret. }
  apply Logs_bind; [ | intros v4 ].
  { unfold comparablesPart.
    destruct (poster o || concept o || characters o);
      auto using Logs_text_comparablesLoop, Logs_ret. }
  apply Logs_bind; [ | intros v5; apply Logs_ret ].
  unfold styleFramesPart. logs; simpl; auto.
Qed.

Lemma Logs_text_stage1Block p :
  Logs (carriesNoStage2 s) (stage1Block ai s p).
Proof.
  unfold stage1Block. destruct (isNull (stage1Result p)); [ | apply Logs_ret ].
  apply Logs_bind; [ apply Logs_checkStop | intros _ ].
  apply Logs_bind; [ apply Logs_modifyApp | intros _ ].
  apply Logs_tryCatch; [ | intros; apply Logs_handler ].
  apply Logs_bind; [ apply Logs_text_analyzeStage1 | intros r ].
  apply Logs_bind; [ apply Logs_modifyApp | intros _; apply Logs_ret ].
Qed.

Lemma Logs_text_stage2Block p :
  Logs (carries s (loglineOf p) (synopsisOf p)) (stage2Block ai s p).
Proof.
  unfold stage2Block. destruct (isNull (stage2Result p)); [ | apply Logs_ret ].
  apply Logs_bind; [ apply Logs_checkStop | intros _ ].
  apply Logs_bind; [ apply Logs_modifyApp | intros _ ].
  apply Logs_tryCatch; [ | intros; apply Logs_handler ].
  apply Logs_bind; [ apply Logs_text_analyzeStage2 | intros r ].
  apply Logs_bind; [ apply Logs_modifyApp | intros _; apply Logs_ret ].
Qed.

Lemma Logs_text_visualsBlock o p :
  Logs (carriesNoStage2 s) (visualsBlock ai o p).
Proof.
  unfold visualsBlock. destruct (needVisualsOf o); [ | apply Logs_ret ].
  apply Logs_bind; [ apply Logs_checkStop | intros _ ].
  apply Logs_bind; [ apply Logs_modifyApp | intros _ ].
  apply Logs_tryCatch; [ | intros; apply Logs_handler ].
  destruct (stage2Result p) as [d | ]; [ destruct o as [o | ] | ];
    try apply Logs_throw.
  apply Logs_bind; [ apply Logs_text_generateAllVisuals | intros v ].
  apply Logs_bind; [ apply Logs_modifyApp | intros _; apply Logs_ret ].
Qed.

Lemma Logs_text_fromStage3 p : Logs (carriesNoStage2 s) (fromStage3 ai s p).
Proof.
  unfold fromStage3. apply Logs_bind; [ | intros; apply Logs_modifyApp ].
  unfold stage3Block. destruct (isNull (stage3Result p)); [ | apply Logs_ret ].
  apply Logs_bind; [ apply Logs_checkStop | intros _ ].
  apply Logs_bind; [ apply Logs_modifyApp | intros _ ].
  apply Logs_tryCatch; [ | intros; apply Logs_handler ].
  apply Logs_bind; [ apply Logs_text_analyzeStage3 | intros r ].
  apply Logs_bind; [ apply Logs_text_extractScenes | intros scenes ].
  apply Logs_bind; [ apply Logs_modifyApp | intros _; apply Logs_ret ].
Qed.

Lemma Logs_text_fromStage2 o p :
  Logs (carries s (loglineOf p) (synopsisOf p)) (fromStage2 ai s o p).
Proof.
  unfold fromStage2. apply Logs_bind; [ apply Logs_text_stage2Block | ].
  intros p2. unfold fromVisuals.
  apply (Logs_weaken (carriesNoStage2 s));
    [ intros e; apply carriesNoStage2_carries | ].
  apply Logs_bind; [ apply Logs_text_visualsBlock | intros p3 ].
  apply Logs_text_fromStage3.
Qed.

(** The run from the second boundary on, for a project that has its
    stage-1 result. *)
Lemma fromStage2_carried o p a l :
  currentProject a = Some p ->
  exists c evs a' p',
    fromStage2 ai s o p (mkSt a l) = (c, mkSt a' (l ++ evs)%list) /\
    currentProject a' = Some p' /\
    (stage1Result p <> None -> stage1Result p' = stage1Result p) /\
    Forall (carries s (loglineOf p) (synopsisOf p)) evs.
Proof.
  intros Hp.
  destruct (RunPost_from ai AtStage2 s o p a l Hp I)
    as (c & evs & a' & p' & rest & Hres & _ & Hp' & Hk & _).
  simpl in Hres.
  destruct (Logs_text_fromStage2 o p (mkSt a l)) as (evs' & Hl & Hall).
  rewrite Hres in Hl. simpl in Hl. apply app_inv_head in Hl. subst evs'.
  exists c, evs, a', p'. splits; auto.
  intros Hsome. destruct Hk as (_ & _ & [Heq | (Hnone & _)] & _); congruence.
Qed.

Lemma fromStage1_carried o p a l :
  currentProject a = Some p ->
  exists c evs a' p',
    fromStage1 ai s o p (mkSt a l) = (c, mkSt a' (l ++ evs)%list) /\
    currentProject a' = Some p' /\
    Forall (carries s (loglineOf p') (synopsisOf p')) evs /\
    (stage1Result p' = None -> Forall (carriesNoStage2 s) evs).
Proof.
  intros Hp. unfold fromStage1.
  destruct (stage1Result p) as [r0 | ] eqn:E1.
  - unfold bind at 1. rewrite stage1Block_skip by congruence.
    destruct (fromStage2_carried o p a l Hp)
      as (c & evs & a' & p' & Hres & Hp' & Hsame & Hall).
    exists c, evs, a', p'.
    assert (E1' : stage1Result p' = stage1Result p) by (apply Hsame; congruence).
    splits; auto.
    + unfold loglineOf, synopsisOf in *. now rewrite E1'.
    + rewrite E1', E1. discriminate.
  - pose proof (stage1Block_step ai s p a l E1) as Hstep.
    destruct (Logs_text_stage1Block p (mkSt a l)) as (evs1 & Hl & Hall1).
    unfold bind at 1.
    inversion Hstep as [ Hstop Hres
                       | pressed evs e Hstop Hpress Hin Hres
                       | pressed evs p1 Hstop Hpress Hinv (r & Hr) Hres ];
      rewrite <- Hres in Hl; simpl in Hl.
    + exists Returned, [], (setStatus' PAUSED a), p.
      rewrite app_nil_r. splits; auto.
    + apply app_inv_head in Hl. subst evs1.
      eexists Returned, evs, _, p.
      splits; [ reflexivity | destruct pressed; exact Hp | | auto ].
      eapply Forall_impl; [ | exact Hall1 ].
      intros ev. apply carriesNoStage2_carries.
    + apply app_inv_head in Hl. subst evs1.
      destruct (fromStage2_carried o p1
                  (setCurrentProject' (Some p1)
                     (stopApp pressed (setStatus' ANALYZING_STAGE_1 a)))
                  (l ++ evs)%list eq_refl)
        as (c & evs2 & a' & p' & Hres2 & Hp' & Hsame & Hall2).
      assert (E1' : stage1Result p' = stage1Result p1).
      { apply Hsame. rewrite Hr. discriminate. }
      exists c, (evs ++ evs2)%list, a', p'.
      rewrite Hres2, <- app_assoc. splits; auto.
      * apply Forall_app. split.
        -- eapply Forall_impl; [ | exact Hall1 ].
           intros ev. apply carriesNoStage2_carries.
        -- unfold loglineOf, synopsisOf in *. now rewrite E1'.
      * rewrite E1', Hr. discriminate.
Qed.

End Carried.

(** X10.  Every text request of a run carries the script that was
    submitted ([scriptToAnalyze], also when a stored project with another
    script is resumed), and a stage-2 request carries the logline and the
    extended synopsis of the stage-1 result the project ends up with;
    a run that sends one leaves a project that has its stage-1 result. *)
Theorem requests_carry_the_submitted_script ai o isResuming a l :
  Js.blank (scriptToAnalyze a) = false ->
  exists evs a' p',
    executeAnalysis ai o isResuming (mkSt a l)
      = (Normal tt, mkSt a' (l ++ evs)%list) /\
    currentProject a' = Some p' /\
    Forall (carries (scriptToAnalyze a) (loglineOf p') (synopsisOf p')) evs /\
    (forall s lg sy,
       In (GenerateStage2 s lg sy) (sent evs) -> stage1Result p' <> None).
Proof.
  intros Hb. rewrite (executeAnalysis_unfold ai o isResuming a l Hb).
  destruct (fromStage1_carried ai (scriptToAnalyze a) o
              (startProject isResuming a) (startApp o isResuming a) l eq_refl)
    as (c & evs & a' & p' & Hres & Hp' & Hall & Hnone).
  destruct (executeAnalysis_post ai o isResuming a l Hb)
    as (c0 & evs0 & a0 & p0 & rest & Hrun & _).
  rewrite (executeAnalysis_unfold ai o isResuming a l Hb) in Hrun.
  exists evs, a', p'. splits; auto.
  - unfold function in *. simpl from in *. rewrite Hres in *.
    destruct c as [[] | e | ]; try reflexivity. discriminate Hrun.
  - intros s' lg sy Hin Hn.
    exact (carriesNoStage2_sent _ _ _ _ _ (Hnone Hn) Hin).
Qed.

Lemma requests_carry_the_submitted_script_witness :
  exists evs a' p',
    executeAnalysis helpful None false
      (mkSt (setScriptToAnalyze' sampleScript initialApp) [])
      = (Normal tt, mkSt a' ([] ++ evs)%list) /\
    currentProject a' = Some p' /\
    Forall (carries sampleScript (loglineOf p') (synopsisOf p')) evs /\
    (forall s lg sy,
       In (GenerateStage2 s lg sy) (sent evs) -> stage1Result p' <> None).
Proof.
  apply (requests_carry_the_submitted_script helpful None false
           (setScriptToAnalyze' sampleScript initialApp) []).
  reflexivity.
Defined.

Lemma empty_response_is_terminal_witness :
  endsAtOnce OpStage1 (GenerateStage1 sampleScript)
    (analyzeStage1 mute sampleScript initialSt) initialSt.
Proof.
  apply (proj1 (empty_response_is_terminal mute sampleScript "" ""
                  initialSt)).
  reflexivity.
Defined.

(** ** Failures and what the user is told *)

(** X11.  The canned quota and high-demand messages of [handleError] are
    kept for failures [retryWithBackoff] retries: an [Error] that is not
    retried is shown with its own message, word for word. *)
Theorem unretried_errors_are_shown_verbatim err (st : St) :
  instanceofError err = true ->
  transient err = false ->
  errorMessageOf err = message err /\
  handleError err st
    = (Normal tt,
       mkSt (setStatus' ERROR (setError' (Some (message err)) (app st)))
            (log st)).
Proof.
  intros Hi Ht.
  assert (Hm : errorMessageOf err = message err).
  { unfold transient, isRateLimit, isServerOverload in Ht.
    repeat match goal with
           | H : (_ || _) = false |- _ =>
               apply orb_false_elim in H; destruct H
           end.
    unfold errorMessageOf. rewrite Hi.
    repeat match goal with
           | H : Js.includes _ _ = false |- _ => try rewrite H; clear H
           end.
    reflexivity. }
  split; [ exact Hm | ].
  unfold handleError, setError, setStatus, bind, modifyApp. simpl.
  now rewrite Hm.
Qed.

Lemma unretried_errors_are_shown_verbatim_witness :
  errorMessageOf blocked = message blocked /\
  handleError blocked initialSt
    = (Normal tt,
       mkSt (setStatus' ERROR (setError' (Some (message blocked))
                                 (app initialSt)))
            (log initialSt)).
Proof.
  apply (unretried_errors_are_shown_verbatim blocked initialSt);
    reflexivity.
Defined.

(** ** The merge of the visuals, once more *)

Lemma patchProfile_idempotent portraits c :
  patchProfile portraits (patchProfile portraits c) = patchProfile portraits c.
Proof.
  unfold patchProfile.
  destruct (find (fun p => String.eqb (portrait_name p) (name c)) portraits)
    as [q | ] eqn:E; simpl; rewrite E; reflexivity.
Qed.

(** X12.  Merging visuals in which nothing was generated leaves the pitch
    deck as it is, and merging the same visuals a second time changes
    nothing more. *)
Theorem merge_is_neutral_and_idempotent d v :
  mergeVisuals d noVisuals = d /\
  mergeVisuals (mergeVisuals d v) v = mergeVisuals d v.
Proof.
  split.
  - destruct d; reflexivity.
  - unfold mergeVisuals. simpl.
    destruct (negb (isEmpty (v_character_portraits v)));
      destruct (negb (isEmpty (v_comparable_titles_visuals v)));
      destruct (negb (isEmpty (v_visual_style_images_base64 v)));
      destruct (Js.truthy (v_concept_art_base64 v));
      destruct (Js.truthy (v_movie_poster_base64 v));
      f_equal;
      rewrite map_map; apply map_ext; intros c;
      apply patchProfile_idempotent.
Qed.

(** ** The image-free copy behind a share code *)

Lemma liteStage2_idempotent d : liteStage2 (liteStage2 d) = liteStage2 d.
Proof.
  unfold liteStage2. simpl. f_equal.
  - rewrite map_map. reflexivity.
  - destruct (comparable_titles_visuals d) as [cs | ]; simpl; auto.
    now rewrite map_map.
Qed.

Lemma liteStage2_imageFree d : imageFree (liteStage2 d).
Proof.
  unfold imageFree, liteStage2. simpl. splits; auto.
  - apply Forall_forall. intros c Hin. apply in_map_iff in Hin.
    destruct Hin as (c0 & <- & _). reflexivity.
  - intros cs Hcs. destruct (comparable_titles_visuals d) as [cs0 | ];
      simpl in Hcs; [ | discriminate ].
    injection Hcs as <-. apply Forall_forall. intros c Hin.
    apply in_map_iff in Hin. destruct Hin as (c0 & <- & _). reflexivity.
Qed.

(** X13.  The pitch deck in the copy [generateLiteCode] encodes holds no
    image and differs from the pitch deck of the project in imagery only:
    it is the same up to its imagery, the titles of its comparable
    entries are kept, and stripping it a second time changes nothing. *)
Theorem lite_deck_drops_only_imagery d :
  imageFree (liteStage2 d) /\
  stripVisuals (liteStage2 d) = stripVisuals d /\
  option_map (map tv_title) (comparable_titles_visuals (liteStage2 d))
    = option_map (map tv_title) (comparable_titles_visuals d) /\
  liteStage2 (liteStage2 d) = liteStage2 d.
Proof.
  splits.
  - apply liteStage2_imageFree.
  - unfold stripVisuals, liteStage2. simpl. now rewrite map_map.
  - unfold liteStage2. simpl.
    destruct (comparable_titles_visuals d) as [cs | ]; simpl; auto.
    now rewrite map_map.
  - apply liteStage2_idempotent.
Qed.

(** ** C7: the failure of one sub-asset and the other sub-assets *)

(** C7, as stated: the two main characters share a name; the portrait of
    the first is generated, the request for the portrait of the second is
    rejected, and yet the profile of the second carries an image after
    the merge, the one of the first: profiles are matched by name. *)
Lemma same_name_portrait_counterexample :
  let ai := failing (isPortraitDescribed "Her double.") blocked in
  let st' :=
    snd (fromVisuals ai sampleScript (Some portraitsOnly) twinProject
           (mkSt twinApp [])) in
  mainCharactersOf twinDeck = [ava; twin] /\
  image_base64 twin = None /\
  (forall l, outcome (ai l (portraitRequest twinDeck twin)) = inl blocked) /\
  sent (log st')
    = [portraitRequest twinDeck ava; portraitRequest twinDeck twin;
       SearchPoster "Alien"; GenerateStage3 sampleScript;
       GenerateScenes sampleScript] /\
  option_map character_profiles
    (match currentProject (app st') with
     | Some p => stage2Result p
     | None => None
     end)
    = Some [withImage ava "IMG"; withImage twin "IMG"].
Proof. vm_compute. splits; reflexivity. Qed.

Section SubAssets.

Variable ai : Backend.

Lemma Returns_ret {A} (x : A) : Returns x (ret x).
Proof. intros st. reflexivity. Qed.

Lemma Returns_after {A B} (m : M B) (k : B -> M A) x :
  Total m -> (forall y, Returns x (k y)) -> Returns x (bind m k).
Proof.
  intros Hm Hk st. unfold bind.
  destruct (Total_run m Hm st) as (y & st' & ->). apply Hk.
Qed.

Lemma Returns_bind {A B} (m : M B) (k : B -> M A) y x :
  Returns y m -> Returns x (k y) -> Returns x (bind m k).
Proof.
  intros Hm Hk st. unfold bind. pose proof (Hm st) as H.
  destruct (m st) as [c st']. simpl in H. subst c. apply Hk.
Qed.

Lemma Returns_tryCatch {A} (m : M A) (h : JsError -> M A) x :
  Returns x m -> Returns x (tryCatch m h).
Proof.
  intros Hm st. unfold tryCatch. pose proof (Hm st) as H.
  destruct (m st) as [c st']. simpl in H. subst c. reflexivity.
Qed.

(** A request the backend always answers is answered at the first
    attempt. *)
Lemma Returns_answered r (resp : Resp r) {A} (f : Resp r -> A) :
  answers ai r resp ->
  Returns (f resp) (retryDefault (x <- request ai r ;; ret (f x))).
Proof.
  intros Ha st. unfold retryDefault.
  assert (E : fst ((x <- request ai r ;; ret (f x)) (attempted st))
              = Normal (f resp)).
  { unfold bind, request. rewrite Ha. reflexivity. }
  rewrite retryWithBackoff_first; [ exact E | ].
  rewrite E. intros (e & He & _). discriminate.
Qed.

Lemma Returns_conceptArtPart d o (resp : list string) :
  concept o = true ->
  answers ai (conceptRequest d) resp ->
  Returns (firstImage resp) (conceptArtPart ai d o).
Proof.
  intros Hc Ha. unfold conceptArtPart. rewrite Hc.
  apply Returns_tryCatch.
  exact (Returns_answered (conceptRequest d) resp firstImage Ha).
Qed.

Lemma Returns_moviePosterPart d o (resp : list string) :
  poster o = true ->
  answers ai (posterRequest d) resp ->
  Returns (firstImage resp) (moviePosterPart ai d o).
Proof.
  intros Hp Ha. unfold moviePosterPart. rewrite Hp.
  apply Returns_tryCatch.
  apply Returns_after; [ apply Total_when, Total_tell | intros _ ].
  exact (Returns_answered (posterRequest d) resp firstImage Ha).
Qed.

Lemma Returns_styleFramesPart d o (resp : list string) :
  concept o = true ->
  answers ai (styleRequest d) resp ->
  Returns (filter Js.truthy resp) (styleFramesPart ai d o).
Proof.
  intros Hc Ha. unfold styleFramesPart. rewrite Hc.
  apply Returns_tryCatch.
  apply Returns_after; [ apply Total_tell | intros _ ].
  exact (Returns_answered (styleRequest d) resp (filter Js.truthy) Ha).
Qed.

Lemma portraitFor_answered d o c acc (resp : list string) :
  answers ai (portraitRequest d c) resp ->
  Js.truthy (firstImage resp) = true ->
  Returns (acc ++ [mkPortrait (name c) (firstImage resp)])%list
          (portraitFor ai d o c acc).
Proof.
  intros Ha Ht st. apply portraitFor_succeeds; auto.
  intros l. destruct resp as [ | img more]; [ discriminate | ].
  exists more. apply Ha.
Qed.

Lemma portraitsLoop_answered d o c (resp : list string) :
  answers ai (portraitRequest d c) resp ->
  Js.truthy (firstImage resp) = true ->
  forall cs acc,
    In c cs \/ In (mkPortrait (name c) (firstImage resp)) acc ->
    Yields (In (mkPortrait (name c) (firstImage resp)))
           (portraitsLoop ai d o cs acc).
Proof.
  intros Ha Ht. induction cs as [ | c' cs IH]; intros acc Hin; simpl.
  - apply Yields_ret. destruct Hin as [[] | Hin]. exact Hin.
  - apply Yields_bind_with with
      (Q := fun acc' =>
              In c cs \/ In (mkPortrait (name c) (firstImage resp)) acc').
    + intros st acc' E.
      destruct Hin as [[-> | Hin] | Hin].
      * right. rewrite (portraitFor_answered d o c acc resp Ha Ht st) in E.
        injection E as <-. apply in_or_app. right. now left.
      * now left.
      * right.
        destruct (Yields_portraitFor ai d o c' acc st acc' E)
          as [-> | (img & _ & ->)]; auto.
        apply in_or_app. now left.
    + intros acc' Hacc'. now apply IH.
Qed.

Lemma comparableFor_answered ps t acc (resp : list (option string)) :
  answers ai (SearchPoster t) resp ->
  Js.truthy (firstInlineData resp) = true ->
  Returns (acc ++ [mkTitleVisual t (firstInlineData resp)])%list
          (comparableFor ai ps t acc).
Proof.
  intros Ha Ht. unfold comparableFor.
  apply Returns_bind with (y := firstInlineData resp).
  - apply Returns_tryCatch.
    apply Returns_after; [ apply Total_when, Total_tell | intros _ ].
    exact (Returns_answered (SearchPoster t) resp firstInlineData Ha).
  - rewrite Ht. simpl.
    apply Returns_bind with (y := firstInlineData resp); apply Returns_ret.
Qed.

Lemma comparablesLoop_answered ps t (resp : list (option string)) :
  answers ai (SearchPoster t) resp ->
  Js.truthy (firstInlineData resp) = true ->
  forall ts acc,
    In t ts \/ In (mkTitleVisual t (firstInlineData resp)) acc ->
    Yields (In (mkTitleVisual t (firstInlineData resp)))
           (comparablesLoop ai ps ts acc).
Proof.
  intros Ha Ht. induction ts as [ | t' ts IH]; intros acc Hin; simpl.
  - apply Yields_ret. destruct Hin as [[] | Hin]. exact Hin.
  - apply Yields_bind_with with
      (Q := fun acc' =>
              In t ts \/ In (mkTitleVisual t (firstInlineData resp)) acc').
    + intros st acc' E.
      destruct Hin as [[-> | Hin] | Hin].
      * right. rewrite (comparableFor_answered ps t acc resp Ha Ht st) in E.
        injection E as <-. apply in_or_app. right. now left.
      * now left.
      * right.
        destruct (Yields_comparableFor ai ps t' acc st acc' E) as (img & ->).
        apply in_or_app. now left.
    + intros acc' Hacc'. now apply IH.
Qed.

(** *** Every request is sent *)

Lemma Total_portraitFor d o c acc : Total (portraitFor ai d o c acc).
Proof.
  unfold portraitFor.
  apply (Total_tryCatch ai); [ effect | intros; apply Total_ret ].
Qed.

Lemma Grows_portraitFor d o c acc : Logs anyEvent (portraitFor ai d o c acc).
Proof. unfold portraitFor. grows. Qed.

Lemma Sends_portraitFor d o c acc :
  Sends (portraitRequest d c) (portraitFor ai d o c acc).
Proof.
  unfold portraitFor, portraitRequest.
  apply Sends_tryCatch; [ | intros; apply Logs_ret ].
  apply Sends_bind_r; [ apply Total_when, Total_tell | grows | intros _ ].
  apply Sends_retryDefault; [ | grows ].
  apply Sends_bind_l; [ apply Sends_request | intros; apply Logs_ret ].
Qed.

Lemma Sends_portraitsLoop d o c cs :
  In c cs ->
  forall acc, Sends (portraitRequest d c) (portraitsLoop ai d o cs acc).
Proof.
  induction cs as [ | c' cs IH]; intros Hin acc; simpl; [ contradiction | ].
  destruct Hin as [-> | Hin].
  - apply Sends_bind_l; auto using Sends_portraitFor, Grows_portraitsLoop.
  - apply Sends_bind_r; auto using Total_portraitFor, Grows_portraitFor.
Qed.

Lemma Grows_conceptArtPart d o : Logs anyEvent (conceptArtPart ai d o).
Proof. unfold conceptArtPart. grows. Qed.

Lemma Grows_moviePosterPart d o : Logs anyEvent (moviePosterPart ai d o).
Proof. unfold moviePosterPart. grows. Qed.

Lemma Grows_portraitsPart d o : Logs anyEvent (portraitsPart ai d o).
Proof.
  unfold portraitsPart.
  destruct (characters o); auto using Grows_portraitsLoop, Logs_ret.
Qed.

Lemma Grows_comparablesPart d o ps : Logs anyEvent (comparablesPart ai d o ps).
Proof.
  unfold comparablesPart.
  destruct (poster o || concept o || characters o);
    auto using Grows_comparablesLoop, Logs_ret.
Qed.

Lemma Grows_styleFramesPart d o : Logs anyEvent (styleFramesPart ai d o).
Proof. unfold styleFramesPart. grows. Qed.

Lemma Sends_conceptArtPart d o :
  concept o = true -> Sends (conceptRequest d) (conceptArtPart ai d o).
Proof.
  intros Hc. unfold conceptArtPart, conceptRequest. rewrite Hc.
  apply Sends_tryCatch; [ | intros; apply Logs_ret ].
  apply Sends_retryDefault; [ | grows ].
  apply Sends_bind_l; [ apply Sends_request | intros; apply Logs_ret ].
Qed.

Lemma Sends_moviePosterPart d o :
  poster o = true -> Sends (posterRequest d) (moviePosterPart ai d o).
Proof.
  intros Hp. unfold moviePosterPart, posterRequest. rewrite Hp.
  apply Sends_tryCatch; [ | intros; apply Logs_ret ].
  apply Sends_bind_r; [ apply Total_when, Total_tell | grows | intros _ ].
  apply Sends_retryDefault; [ | grows ].
  apply Sends_bind_l; [ apply Sends_request | intros; apply Logs_ret ].
Qed.

Lemma Sends_styleFramesPart d o :
  concept o = true -> Sends (styleRequest d) (styleFramesPart ai d o).
Proof.
  intros Hc. unfold styleFramesPart, styleRequest. rewrite Hc.
  apply Sends_tryCatch; [ | intros; apply Logs_ret ].
  apply Sends_bind_r; [ apply Total_tell | grows | intros _ ].
  apply Sends_retryDefault; [ | grows ].
  apply Sends_bind_l; [ apply Sends_request | intros; apply Logs_ret ].
Qed.

Ltac parts_grow :=
  repeat first
    [ apply Logs_ret
    | apply Grows_conceptArtPart
    | apply Grows_moviePosterPart
    | apply Grows_portraitsPart
    | apply Grows_comparablesPart
    | apply Grows_styleFramesPart
    | apply Logs_bind; [ | intros ? ] ].

Lemma Sends_visuals_concept d o :
  concept o = true -> Sends (conceptRequest d) (generateAllVisuals ai d o).
Proof.
  intros Hc. rewrite generateAllVisuals_eq.
  apply Sends_bind_r; [ apply Total_tell | now apply Logs_tell | intros _ ].
  apply Sends_bind_l; [ now apply Sends_conceptArtPart | intros ? ].
  parts_grow.
Qed.

Lemma Sends_visuals_poster d o :
  poster o = true -> Sends (posterRequest d) (generateAllVisuals ai d o).
Proof.
  intros Hp. rewrite generateAllVisuals_eq.
  apply Sends_bind_r; [ apply Total_tell | now apply Logs_tell | intros _ ].
  apply Sends_bind_r;
    [ apply Total_conceptArtPart | apply Grows_conceptArtPart | intros ? ].
  apply Sends_bind_l; [ now apply Sends_moviePosterPart | intros ? ].
  parts_grow.
Qed.

Lemma Sends_visuals_portrait d o c :
  characters o = true -> In c (mainCharactersOf d) ->
  Sends (portraitRequest d c) (generateAllVisuals ai d o).
Proof.
  intros Hch Hin. rewrite generateAllVisuals_eq.
  apply Sends_bind_r; [ apply Total_tell | now apply Logs_tell | intros _ ].
  apply Sends_bind_r;
    [ apply Total_conceptArtPart | apply Grows_conceptArtPart | intros ? ].
  apply Sends_bind_r;
    [ apply Total_moviePosterPart | apply Grows_moviePosterPart | intros ? ].
  apply Sends_bind_l; [ | intros ?; parts_grow ].
  unfold portraitsPart. rewrite Hch. now apply Sends_portraitsLoop.
Qed.

Lemma Sends_visuals_style d o :
  concept o = true -> Sends (styleRequest d) (generateAllVisuals ai d o).
Proof.
  intros Hc. rewrite generateAllVisuals_eq.
  apply Sends_bind_r; [ apply Total_tell | now apply Logs_tell | intros _ ].
  apply Sends_bind_r;
    [ apply Total_conceptArtPart | apply Grows_conceptArtPart | intros ? ].
  apply Sends_bind_r;
    [ apply Total_moviePosterPart | apply Grows_moviePosterPart | intros ? ].
  apply Sends_bind_r;
    [ apply Total_portraitsPart | apply Grows_portraitsPart | intros ? ].
  apply Sends_bind_r;
    [ apply Total_comparablesPart | apply Grows_comparablesPart | intros ? ].
  apply Sends_bind_l; [ now apply Sends_styleFramesPart | intros ? ].
  parts_grow.
Qed.

Lemma sent_in_run {A} r (m : M A) st c st' evs :
  Sends r m -> m st = (c, st') -> log st' = (log st ++ evs)%list ->
  In (Send r) evs.
Proof.
  intros Hs Hrun Hl. destruct (Hs st) as (evs0 & Hl0 & Hin).
  rewrite Hrun in Hl0. simpl in Hl0. rewrite Hl in Hl0.
  apply app_inv_head in Hl0. now subst evs0.
Qed.

(** Whatever becomes of the other requests, every requested sub-asset is
    asked for, and what the backend answers is what the step returns. *)
Lemma generateAllVisuals_subAssets d o st :
  exists v evs st',
    generateAllVisuals ai d o st = (Normal v, st') /\
    log st' = (log st ++ evs)%list /\
    subAssetsOnTheirOwn ai d o evs v.
Proof.
  destruct (generateAllVisuals_run ai d o st)
    as (v & st' & s1 & s2 & s3 & s4 & s5 & Hrun & E1 & E2 & E3 & E4 & E5).
  destruct (Logs_generateAllVisuals ai d o st) as (evs & Hl & _).
  rewrite Hrun in Hl. simpl in Hl.
  exists v, evs, st'. split; [ exact Hrun | split; [ exact Hl | ] ].
  unfold subAssetsOnTheirOwn. splits.
  - intros Hc. splits.
    + exact (sent_in_run _ _ _ _ _ _ (Sends_visuals_concept d o Hc) Hrun Hl).
    + intros resp Ha.
      pose proof (Returns_conceptArtPart d o resp Hc Ha s1) as H.
      rewrite E1 in H. now injection H.
    + exact (sent_in_run _ _ _ _ _ _ (Sends_visuals_style d o Hc) Hrun Hl).
    + intros resp Ha.
      pose proof (Returns_styleFramesPart d o resp Hc Ha s5) as H.
      rewrite E5 in H. now injection H.
  - intros Hp. splits.
    + exact (sent_in_run _ _ _ _ _ _ (Sends_visuals_poster d o Hp) Hrun Hl).
    + intros resp Ha.
      pose proof (Returns_moviePosterPart d o resp Hp Ha s2) as H.
      rewrite E2 in H. now injection H.
  - intros Hch c Hin. splits.
    + exact (sent_in_run _ _ _ _ _ _
               (Sends_visuals_portrait d o c Hch Hin) Hrun Hl).
    + intros resp Ha Ht. unfold portraitsPart in E3. rewrite Hch in E3.
      exact (portraitsLoop_answered d o c resp Ha Ht (mainCharactersOf d) []
               (or_introl Hin) s3 _ E3).
  - intros Hany t Hin. splits.
    + exact (sent_in_run _ _ _ _ _ _
               (Sends_generateAllVisuals ai d o t Hany Hin) Hrun Hl).
    + intros resp Ha Ht. unfold comparablesPart in E4. rewrite Hany in E4.
      exact (comparablesLoop_answered _ t resp Ha Ht _ []
               (or_introl Hin) s4 _ E4).
Qed.

End SubAssets.

(** C7, amended.  The two main characters are [ok] and [failing] (in
    either order), with different names; the backend yields the image
    [img] for the portrait of [ok] and never yields image bytes for the
    portrait of [failing]; the user presses no Stop.  Then a run that
    reaches the visuals step with portraits requested merges a pitch deck
    in which the profile of [ok] carries [img] and the profile of
    [failing] is what it was, and goes on to enter stage 3.  For every
    pitch deck and every set of options the visuals step never throws,
    and no sub-asset waits on another: the request of each requested
    sub-asset (concept art, style frames, poster, the portrait of each
    main character, the search for each of the first three comparable
    titles) is sent whatever the other requests come to, and what the
    backend answers to it is in the visuals the step returns. *)
Theorem partial_portrait_failure (ai : Backend) s d o ok failing img p a l :
  mainCharactersOf d = [ok; failing] \/ mainCharactersOf d = [failing; ok] ->
  name ok <> name failing ->
  characters o = true ->
  Js.truthy img = true ->
  (forall l', exists more,
     outcome (ai l' (portraitRequest d ok)) = inr (img :: more)) ->
  neverYields ai (portraitRequest d failing) firstImage ->
  (forall l' r, stopPressed (ai l' r) = false) ->
  stage2Result p = Some d ->
  stage3Result p = None ->
  currentProject a = Some p ->
  shouldStop a = false ->
  (forall d0 o0, Total (generateAllVisuals ai d0 o0)) /\
  (forall d0 o0 st0,
     exists v evs st',
       generateAllVisuals ai d0 o0 st0 = (Normal v, st') /\
       log st' = (log st0 ++ evs)%list /\
       subAssetsOnTheirOwn ai d0 o0 evs v) /\
  exists c evs a' p' d' rest,
    fromVisuals ai s (Some o) p (mkSt a l) = (c, mkSt a' (l ++ evs)%list) /\
    currentProject a' = Some p' /\
    stage2Result p' = Some d' /\
    character_profiles d' =
      map (patchProfile [mkPortrait (name ok) img]) (character_profiles d) /\
    In (withImage ok img) (character_profiles d') /\
    In failing (character_profiles d') /\
    (forall t, In t (firstn 3 (comparable_titles d)) ->
               In (SearchPoster t) (sent evs)) /\
    invoked evs = OpStage2Visuals :: OpStage3 :: rest.
Proof.
  intros Hmain Hne Hch Himg Hok Hfail Hquiet Hd H3 Hp Hstop.
  destruct (partial_portrait_run ai s d o ok failing img p a l
              Hmain Hne Hch Himg Hok Hfail Hquiet Hd H3 Hp Hstop)
    as (Htotal & Hrun).
  splits; [ exact Htotal | | exact Hrun ].
  intros d0 o0 st0. apply generateAllVisuals_subAssets.
Qed.

Lemma partial_portrait_failure_witness :
  exists c evs a' p' d' rest,
    fromVisuals (failing (isPortraitOf "BEN") blocked) sampleScript
      (Some portraitsOnly) deckProject (mkSt deckApp [])
      = (c, mkSt a' ([] ++ evs)%list) /\
    currentProject a' = Some p' /\
    stage2Result p' = Some d' /\
    In (withImage ava "IMG") (character_profiles d') /\
    In ben (character_profiles d') /\
    invoked evs = OpStage2Visuals :: OpStage3 :: rest.
Proof.
  destruct (partial_portrait_failure (failing (isPortraitOf "BEN") blocked)
              sampleScript sampleDeck portraitsOnly ava ben "IMG"
              deckProject deckApp [])
    as (_ & _ & c & evs & a' & p' & d' & rest
        & H1 & H2 & H3 & _ & H5 & H6 & _ & H8).
  - left. reflexivity.
  - vm_compute. discriminate.
  - reflexivity.
  - reflexivity.
  - intros l'. exists []. reflexivity.
  - intros l'. vm_compute. exact I.
  - intros l' r. reflexivity.
  - reflexivity.
  - reflexivity.
  - reflexivity.
  - reflexivity.
  - exists c, evs, a', p', d', rest. auto 10.
Defined.

(** ** C1: what a resume computes again *)


(** ** What a resume leaves alone *)





